(** * TASE market indicators: a shallow embedding of the indicator engine
    (indicators.ts) and of the database queries built on it (db-api.ts).

    Numbers.  A JavaScript number is modelled as an exact rational extended
    with the three IEEE special values; rounding, overflow and the sign of
    zero are not modelled there.  [null] is [None]; reading an array past
    its end yields [undefined], which behaves like [NaN] in every operation
    the code applies to it.  What depends on rounding ([sma]'s running sum,
    the guard of [cci]) is evaluated on binary64 doubles, in [Ieee]. *)

From Stdlib Require Import List ZArith QArith Qcanon Bool Arith Lia.
From Stdlib Require Import Lqa.
From Stdlib Require Import Sorting.Sorted.
From Stdlib Require Import Sorting.Permutation.
From Stdlib Require String.
From Corelib Require PrimFloat.
Import ListNotations.

Set Implicit Arguments.
Local Open Scope nat_scope.
Local Open Scope list_scope.

(** * Part I: the embedding *)

(** ** Numbers *)

Inductive num : Type :=
| Fin (q : Qc)
| PInf
| NInf
| NaN.

Definition Qceqb (x y : Qc) : bool :=
  match (x ?= y)%Qc with Eq => true | _ => false end.

Definition Qcltb (x y : Qc) : bool :=
  match (x ?= y)%Qc with Lt => true | _ => false end.

Definition nat2Qc (n : nat) : Qc := Q2Qc (inject_Z (Z.of_nat n)).
Definition Z2Qc (z : Z) : Qc := Q2Qc (inject_Z z).

Definition nat2num (n : nat) : num := Fin (nat2Qc n).
Definition Z2num (z : Z) : num := Fin (Z2Qc z).

Definition isFinite (a : num) : bool :=
  match a with Fin _ => true | _ => false end.

Definition nneg (a : num) : num :=
  match a with
  | Fin x => Fin (- x)%Qc
  | PInf => NInf
  | NInf => PInf
  | NaN => NaN
  end.

Definition nadd (a b : num) : num :=
  match a, b with
  | NaN, _ | _, NaN => NaN
  | Fin x, Fin y => Fin (x + y)%Qc
  | PInf, NInf | NInf, PInf => NaN
  | PInf, _ | _, PInf => PInf
  | NInf, _ | _, NInf => NInf
  end.

Definition nsub (a b : num) : num :=
  match a, b with
  | NaN, _ | _, NaN => NaN
  | Fin x, Fin y => Fin (x - y)%Qc
  | PInf, PInf | NInf, NInf => NaN
  | PInf, _ | _, NInf => PInf
  | NInf, _ | _, PInf => NInf
  end.

(** The sign of an (extended) number: [None] for NaN. *)
Definition nsign (a : num) : option comparison :=
  match a with
  | Fin x => Some (x ?= 0)%Qc
  | PInf => Some Gt
  | NInf => Some Lt
  | NaN => None
  end.

Definition signed_inf (s t : comparison) : num :=
  match s, t with
  | Eq, _ | _, Eq => NaN
  | Gt, Gt | Lt, Lt => PInf
  | _, _ => NInf
  end.

Definition nmul (a b : num) : num :=
  match a, b with
  | Fin x, Fin y => Fin (x * y)%Qc
  | _, _ =>
    match nsign a, nsign b with
    | Some s, Some t => signed_inf s t
    | _, _ => NaN
    end
  end.

Definition ndiv (a b : num) : num :=
  match a, b with
  | NaN, _ | _, NaN => NaN
  | Fin x, Fin y =>
    if Qceqb y 0 then
      match (x ?= 0)%Qc with Gt => PInf | Lt => NInf | Eq => NaN end
    else Fin (x / y)%Qc
  | Fin _, _ => Fin 0%Qc
  | _, Fin y =>
    match nsign a with
    | Some s => signed_inf s (match (y ?= 0)%Qc with Lt => Lt | _ => Gt end)
    | None => NaN
    end
  | _, _ => NaN
  end.

Definition nabs (a : num) : num :=
  match a with
  | Fin x => if Qcltb x 0 then Fin (- x)%Qc else Fin x
  | PInf | NInf => PInf
  | NaN => NaN
  end.

(** [a < b], [a > b] and [a === b] on numbers: all false on NaN. *)
Definition nlt (a b : num) : bool :=
  match a, b with
  | NaN, _ | _, NaN => false
  | Fin x, Fin y => Qcltb x y
  | NInf, NInf | PInf, _ => false
  | NInf, _ => true
  | Fin _, PInf => true
  | Fin _, NInf => false
  end.

Definition ngt (a b : num) : bool := nlt b a.

Definition neqb (a b : num) : bool :=
  match a, b with
  | Fin x, Fin y => Qceqb x y
  | PInf, PInf | NInf, NInf => true
  | _, _ => false
  end.

Definition nle (a b : num) : bool := nlt a b || neqb a b.

Definition n0 : num := Fin 0%Qc.
Definition n100 : num := nat2num 100.

(** ** Arrays of nullable numbers *)

Definition arr := list (option num).

(** [values[i]]: [undefined] past the end. *)
Definition get (values : arr) (i : nat) : option num :=
  nth i values (Some NaN).

(** Coercion of a possibly-null operand of an arithmetic operator. *)
Definition toNumber (o : option num) : num :=
  match o with Some v => v | None => n0 end.

(** ** Index loops carrying a state

    [loop step i n s] runs [step] at the indices [i, i+1, ..., i+n-1];
    each iteration returns the next state and the entry written to the
    (null-filled) output array at that index. *)

Section Loop.
Context {St Out : Type} (step : nat -> St -> St * Out).

Fixpoint loop (i n : nat) (s : St) : list Out :=
  match n with
  | O => []
  | S n' => let (s', o) := step i s in o :: loop (S i) n' s'
  end.

(** The state reached after [k] iterations started at index [i]. *)
Fixpoint state_at (i k : nat) (s : St) : St :=
  match k with
  | O => s
  | S k' => fst (step (i + k') (state_at i k' s))
  end.

End Loop.

(** ** SeriesMath: sma *)

Definition sma_step (values : arr) (period : nat) (i : nat)
  (st : num * nat) : (num * nat) * option num :=
  let '(sum, count) := st in
  match get values i with
  | None => ((n0, 0), None)
  | Some v =>
    if negb (isFinite v) then ((n0, 0), None)
    else
      let sum := nadd sum v in
      let count := S count in
      let '(sum, count) :=
        if period <? count
        then (nsub sum (toNumber (get values (i - period))), period)
        else (sum, count) in
      ((sum, count),
       if count =? period then Some (ndiv sum (nat2num period)) else None)
  end.

Definition sma (values : arr) (period : nat) : arr :=
  loop (sma_step values period) 0 (length values) (n0, 0).

(** [values.map((v, i) => f(v, i))] *)
Fixpoint mapi_from {A B : Type} (f : A -> nat -> B) (i : nat) (l : list A)
  : list B :=
  match l with
  | [] => []
  | x :: l' => f x i :: mapi_from f (S i) l'
  end.

Definition mapi {A B : Type} (f : A -> nat -> B) (l : list A) : list B :=
  mapi_from f 0 l.

Definition n1 : num := nat2num 1.
Definition n2 : num := nat2num 2.
Definition n3 : num := nat2num 3.

(** ** IndicatorEngine: ez, rsi, ema, macd, cci, mfi *)

Definition ez (close sma20Arr : arr) : arr :=
  mapi (fun c i =>
    match c, get sma20Arr i with
    | Some c, Some m =>
      if negb (isFinite c) || negb (isFinite m) || neqb m n0 then None
      else Some (nmul n100 (ndiv (nsub c m) m))
    | _, _ => None
    end) close.

(** The seeding loop of [rsi] ([k] runs from 1 to [period]); a null entry
    zeroes both sums and leaves the loop. *)
Fixpoint rsi_seed_loop (values : arr) (k n : nat) (g l : num) : num * num :=
  match n with
  | O => (g, l)
  | S n' =>
    match get values (k - 1), get values k with
    | Some a, Some b =>
      let d := nsub b a in
      rsi_seed_loop values (S k) n'
        (nadd g (if ngt d n0 then d else n0))
        (nadd l (if nlt d n0 then nneg d else n0))
    | _, _ => (n0, n0)
    end
  end.

Definition rsi_out (avgGain avgLoss : num) : num :=
  if neqb avgLoss n0 then n100
  else nsub n100 (ndiv n100 (nadd n1 (ndiv avgGain avgLoss))).

Definition rsi_step (values : arr) (period : nat) (i : nat)
  (st : option num * option num) : (option num * option num) * option num :=
  let '(avgGain, avgLoss) := st in
  match get values (i - 1), get values i with
  | Some prev, Some cur =>
    let change := nsub cur prev in
    let gain := if ngt change n0 then change else n0 in
    let loss := if nlt change n0 then nneg change else n0 in
    if i <? period then ((avgGain, avgLoss), None)
    else
      let '(avgGain, avgLoss) :=
        if i =? period then
          let '(g, l) := rsi_seed_loop values 1 period n0 n0 in
          (Some (ndiv g (nat2num period)), Some (ndiv l (nat2num period)))
        else
          match avgGain, avgLoss with
          | Some ag, Some al =>
            (Some (ndiv (nadd (nmul ag (nsub (nat2num period) n1)) gain)
                        (nat2num period)),
             Some (ndiv (nadd (nmul al (nsub (nat2num period) n1)) loss)
                        (nat2num period)))
          | _, _ => (avgGain, avgLoss)
          end in
      match avgGain, avgLoss with
      | Some ag, Some al => ((avgGain, avgLoss), Some (rsi_out ag al))
      | _, _ => ((avgGain, avgLoss), None)
      end
  | _, _ => ((None, None), None)
  end.

Definition rsi (values : arr) (period : nat) : arr :=
  match values with
  | [] => []
  | _ :: _ =>
    None :: loop (rsi_step values period) 1 (length values - 1) (None, None)
  end.

(** The seeding loop of [ema]: [None] when the window holds a null. *)
Fixpoint ema_seed_loop (values : arr) (j n : nat) (sum : num) : option num :=
  match n with
  | O => Some sum
  | S n' =>
    match get values j with
    | None => None
    | Some w => ema_seed_loop values (S j) n' (nadd sum w)
    end
  end.

Definition ema_step (values : arr) (period : nat) (i : nat)
  (prev : option num) : option num * option num :=
  let k := ndiv n2 (nat2num (period + 1)) in
  match get values i with
  | None => (None, None)
  | Some v =>
    if negb (isFinite v) then (None, None)
    else
      match prev with
      | None =>
        if period <=? i + 1 then
          match ema_seed_loop values (i + 1 - period) period n0 with
          | None => (None, None)
          | Some sum =>
            let p := ndiv sum (nat2num period) in (Some p, Some p)
          end
        else (None, None)
      | Some p =>
        let p' := nadd (nmul v k) (nmul p (nsub n1 k)) in (Some p', Some p')
      end
  end.

Definition ema (values : arr) (period : nat) : arr :=
  loop (ema_step values period) 0 (length values) None.

Record Macd : Type := mkMacd {
  m_macd : arr;
  m_macdSignal : arr;
  m_macdHist : arr
}.

Definition macd12269 (values : arr) : Macd :=
  let e12 := ema values 12 in
  let e26 := ema values 26 in
  let macd := mapi (fun _ i =>
    match get e12 i, get e26 i with
    | Some a, Some b => Some (nsub a b)
    | _, _ => None
    end) values in
  let macdSignal := ema macd 9 in
  let macdHist := mapi (fun m i =>
    match m, get macdSignal i with
    | Some m, Some s => Some (nsub m s)
    | _, _ => None
    end) macd in
  mkMacd macd macdSignal macdHist.

(** Typical price, shared by [cci] and [mfi]. *)
Definition typical (high low close : arr) : arr :=
  mapi (fun _ i =>
    match get high i, get low i, get close i with
    | Some h, Some l, Some c => Some (ndiv (nadd (nadd h l) c) n3)
    | _, _, _ => None
    end) close.

(** 0.015 *)
Definition c015 : num := Fin (Q2Qc (15 # 1000)).

(** The deviation loop of [cci]: a null entry zeroes the sum and leaves
    the loop. *)
Fixpoint cci_dev_loop (tp : arr) (m : num) (j n : nat) (sumDev : num) : num :=
  match n with
  | O => sumDev
  | S n' =>
    match get tp j with
    | None => n0
    | Some w => cci_dev_loop tp m (S j) n' (nadd sumDev (nabs (nsub w m)))
    end
  end.

Definition cci_at (tp tpSma : arr) (period i : nat) : option num :=
  if i + 1 <? period then None
  else
    match get tp i, get tpSma i with
    | Some t, Some m =>
      let sumDev := cci_dev_loop tp m (i + 1 - period) period n0 in
      let meanDev := ndiv sumDev (nat2num period) in
      if neqb meanDev n0 then None
      else Some (ndiv (nsub t m) (nmul c015 meanDev))
    | _, _ => None
    end.

Definition cci (high low close : arr) (period : nat) : arr :=
  let tp := typical high low close in
  let tpSma := sma tp period in
  map (cci_at tp tpSma period) (seq 0 (length tp)).

(** The money-flow loop of [mfi]: a null entry zeroes both sums and leaves
    the loop. *)
Fixpoint mfi_flow_loop (tp rmf : arr) (j n : nat) (pos neg : num)
  : num * num :=
  match n with
  | O => (pos, neg)
  | S n' =>
    match get tp j, get tp (j - 1), get rmf j with
    | Some t, Some tPrev, Some f =>
      if ngt t tPrev then mfi_flow_loop tp rmf (S j) n' (nadd pos f) neg
      else if nlt t tPrev then mfi_flow_loop tp rmf (S j) n' pos (nadd neg f)
      else mfi_flow_loop tp rmf (S j) n' pos neg
    | _, _, _ => (n0, n0)
    end
  end.

Definition mfi_at (tp rmf : arr) (period i : nat) : option num :=
  if i <? period then None
  else
    let '(pos, neg) := mfi_flow_loop tp rmf (i + 1 - period) period n0 n0 in
    if neqb pos n0 && neqb neg n0 then None
    else if neqb neg n0 then Some n100
    else Some (nsub n100 (ndiv n100 (nadd n1 (ndiv pos neg)))).

Definition money_flow (tp volume : arr) : arr :=
  mapi (fun t i =>
    match t, get volume i with
    | Some t, Some v => Some (nmul t v)
    | _, _ => None
    end) tp.

Definition mfi (high low close volume : arr) (period : nat) : arr :=
  let tp := typical high low close in
  let rmf := money_flow tp volume in
  match tp with
  | [] => []
  | _ :: _ => None :: map (mfi_at tp rmf period) (seq 1 (length tp - 1))
  end.

(** ** Structural equality tests, used to compare evaluated arrays *)

Definition num_same (a b : num) : bool :=
  match a, b with
  | Fin x, Fin y => Qc_eq_bool x y
  | PInf, PInf | NInf, NInf | NaN, NaN => true
  | _, _ => false
  end.

Definition opt_same (a b : option num) : bool :=
  match a, b with
  | Some x, Some y => num_same x y
  | None, None => true
  | _, _ => false
  end.

Fixpoint arr_same (a b : arr) : bool :=
  match a, b with
  | [], [] => true
  | x :: a', y :: b' => opt_same x y && arr_same a' b'
  | _, _ => false
  end.

(** ** Specification side: windows of [sma], example series *)

Definition valid (o : option num) : bool :=
  match o with Some (Fin _) => true | _ => false end.

(** The finite value stored at index [j] (0 when there is none). *)
Definition qat (values : arr) (j : nat) : Qc :=
  match get values j with Some (Fin q) => q | _ => 0%Qc end.

(** Sum of the [n] entries starting at index [a]. *)
Fixpoint qsum_range (values : arr) (a n : nat) : Qc :=
  match n with
  | O => 0%Qc
  | S n' => (qsum_range values a n' + qat values (a + n'))%Qc
  end.

(** Loop invariant of [sma] on entry to iteration [i]: [count] is the
    length of the current run of valid entries, capped at [period], and
    [sum] is the sum of the last [count] entries. *)
Definition sma_inv (values : arr) (period i : nat) (st : num * nat) : Prop :=
  let '(sum, count) := st in
  count <= period /\ count <= i /\
  (forall j, i - count <= j < i -> valid (get values j) = true) /\
  sum = Fin (qsum_range values (i - count) count) /\
  (count < period -> count < i ->
   valid (get values (i - count - 1)) = false).

Definition closes (zs : list Z) : arr := map (fun z => Some (Z2num z)) zs.

(** Closes 1..16, a null at index 16, then twenty more valid closes. *)
Definition gap_closes : arr :=
  closes [1; 2; 3; 4; 5; 6; 7; 8; 9; 10; 11; 12; 13; 14; 15; 16]%Z
  ++ [None]
  ++ closes [1; 2; 3; 4; 5; 6; 7; 8; 9; 10;
             11; 12; 13; 14; 15; 16; 17; 18; 19; 20]%Z.

(** Fifteen closes with a single null, at index 5. *)
Definition one_null_closes : arr :=
  closes [1; 2; 3; 4; 5]%Z ++ [None]
  ++ closes [7; 8; 9; 10; 11; 12; 13; 14; 15]%Z.

(** ** Specification side: money-flow sums of [mfi] *)

Definition rising (tp : arr) (j : nat) : bool :=
  match get tp j, get tp (j - 1) with
  | Some t, Some tPrev => ngt t tPrev
  | _, _ => false
  end.

Definition falling (tp : arr) (j : nat) : bool :=
  match get tp j, get tp (j - 1) with
  | Some t, Some tPrev => nlt t tPrev
  | _, _ => false
  end.

(** Sum of the raw money flow of the days selected by [dir] among the [n]
    days starting at [j], added to [acc] in date order. *)
Fixpoint flow_sum (dir : arr -> nat -> bool) (tp rmf : arr) (j n : nat)
  (acc : num) : num :=
  match n with
  | O => acc
  | S n' =>
    flow_sum dir tp rmf (S j) n'
      (if dir tp j then nadd acc (toNumber (get rmf j)) else acc)
  end.

Definition posSum (tp rmf : arr) (period i : nat) : num :=
  flow_sum rising tp rmf (i + 1 - period) period n0.

Definition negSum (tp rmf : arr) (period i : nat) : num :=
  flow_sum falling tp rmf (i + 1 - period) period n0.

(** The trailing window of [i]: typical price, prior typical price and raw
    money flow are all non-null on each of its days. *)
Definition mfi_window_valid (tp rmf : arr) (period i : nat) : Prop :=
  forall j, i + 1 - period <= j <= i ->
    get tp j <> None /\ get tp (j - 1) <> None /\ get rmf j <> None.

Definition mfi_formula (pos neg : num) : num :=
  nsub n100 (ndiv n100 (nadd n1 (ndiv pos neg))).

(** Sixteen bars with high = low = close = 10 and volume 10. *)
Definition flat_bars : arr := closes (repeat 10%Z 16).

(** The rule as the specification words it: on a valid window the MFI is
    100 whenever the negative sum is zero, and the formula otherwise. *)
Definition mfi_claim_as_stated (high low close volume : arr) (i : nat)
  : Prop :=
  let tp := typical high low close in
  let rmf := money_flow tp volume in
  14 <= i -> i < length close ->
  mfi_window_valid tp rmf 14 i ->
  (neqb (negSum tp rmf 14 i) n0 = true ->
   nth i (mfi high low close volume 14) None = Some n100)
  /\
  (neqb (negSum tp rmf 14 i) n0 = false ->
   nth i (mfi high low close volume 14) None
   = Some (mfi_formula (posSum tp rmf 14 i) (negSum tp rmf 14 i))).

(** ** The trading-data table

    One record per row of "TaseSecuritiesEndOfDayTradingData"; a calendar
    date is the number of its day. *)

Abbreviation string := String.string.
Definition date := Z.

Module Db.
Record Row : Type := mkRow {
  id : string;
  tradeDate : date;
  firstTradingDate : option date;
  isin : string;
  change : option num;
  securityId : Z;
  turnover : option Z;
  closingPrice : option num;
  basePrice : option num;
  openingPrice : option num;
  high : option num;
  low : option num;
  changeValue : option num;
  transactionsNumber : option Z;
  volume : option Z;
  marketCap : option Z;
  minContPhaseAmount : option Z;
  listedCapital : option Z;
  adjustedClosingPrice : option num;
  exCode : option string;
  adjustmentCoefficient : option num;
  symbol : string;
  marketType : option string;
  rsi14 : option num;
  macd : option num;
  macdSignal : option num;
  macdHist : option num;
  cci20 : option num;
  mfi14 : option num;
  turnover10 : option num;
  sma20 : option num;
  sma50 : option num;
  sma200 : option num;
  ez : option num;
  stddev20 : option num;
  upperBollingerBand20 : option num;
  lowerBollingerBand20 : option num
}.
End Db.

(** The columns selected by [getTradingIndicators]. *)
Module Bar.
Record t : Type := mk {
  symbol : string;
  tradeDate : date;
  closingPrice : option num;
  high : option num;
  low : option num;
  volume : option Z;
  turnover : option Z
}.
End Bar.

(** The object returned by [getTradingIndicators]. *)
Module Ind.
Record t : Type := mk {
  rsi14 : option num;
  macd : option num;
  macdSignal : option num;
  macdHist : option num;
  cci20 : option num;
  mfi14 : option num;
  turnover10 : option num;
  sma20 : option num;
  sma50 : option num;
  sma200 : option num;
  ez : option num;
  stddev20 : option num;
  upperBollingerBand20 : option num;
  lowerBollingerBand20 : option num
}.
End Ind.

Definition table := list Db.Row.

(** [ORDER BY] / [orderBy]: insertion into an ordered list. *)
Fixpoint insert_sorted {A : Type} (leb : A -> A -> bool) (x : A)
  (l : list A) : list A :=
  match l with
  | [] => [x]
  | y :: l' => if leb x y then x :: l else y :: insert_sorted leb x l'
  end.

Definition order_by {A : Type} (leb : A -> A -> bool) (l : list A) : list A :=
  fold_right (insert_sorted leb) [] l.

Definition by_tradeDate (r1 r2 : Db.Row) : bool :=
  (Db.tradeDate r1 <=? Db.tradeDate r2)%Z.

Definition select_bar (r : Db.Row) : Bar.t :=
  Bar.mk (Db.symbol r) (Db.tradeDate r) (Db.closingPrice r) (Db.high r)
    (Db.low r) (Db.volume r) (Db.turnover r).

(** The [findMany] of [getTradingIndicators]. *)
Definition in_lookback (symbol : string) (fromDate tradeDate : date)
  (r : Db.Row) : bool :=
  String.eqb (Db.symbol r) symbol
  && (fromDate <=? Db.tradeDate r)%Z && (Db.tradeDate r <=? tradeDate)%Z.

Definition findMany_bars (db : table) (symbol : string)
  (fromDate tradeDate : date) : list Bar.t :=
  map select_bar
    (order_by by_tradeDate (filter (in_lookback symbol fromDate tradeDate) db)).

Definition LOOKBACK_DAYS : Z := 450.

(** [arr[rows.length - 1] ?? null] *)
Definition last_or_null (len : nat) (a : arr) : option num :=
  match len with
  | O => None
  | S idx => nth idx a None
  end.

Definition bigint_to_num (o : option Z) : option num :=
  match o with Some z => Some (Z2num z) | None => None end.

Section Host.
(** [Math.sqrt], a builtin with no exact rational model. *)
Variable sqrt : num -> num.

Definition stddev_step (values : arr) (period : nat) (i : nat)
  (window : list num) : list num * option num :=
  match get values i with
  | None => ([], None)
  | Some v =>
    if negb (isFinite v) then ([], None)
    else
      let window := window ++ [v] in
      let window := if period <? length window then tl window else window in
      (window,
       if length window =? period then
         let mean := ndiv (fold_left nadd window n0) (nat2num period) in
         let variance :=
           ndiv (fold_left
                   (fun a b => nadd a (nmul (nsub b mean) (nsub b mean)))
                   window n0)
                (nat2num period) in
         Some (sqrt variance)
       else None)
  end.

Definition stddev (values : arr) (period : nat) : arr :=
  loop (stddev_step values period) 0 (length values) [].

(** The computation of [getTradingIndicators] on the rows it has read. *)
Definition indicators_of (rows : list Bar.t) : Ind.t :=
  let close := map Bar.closingPrice rows in
  let highArr := map Bar.high rows in
  let lowArr := map Bar.low rows in
  let volumeArr := map (fun row => bigint_to_num (Bar.volume row)) rows in
  let turnoverArr := map (fun row => bigint_to_num (Bar.turnover row)) rows in
  let rsi14Arr := rsi close 14 in
  let m := macd12269 close in
  let cci20Arr := cci highArr lowArr close 20 in
  let mfi14Arr := mfi highArr lowArr close volumeArr 14 in
  let turnover10Arr := sma turnoverArr 10 in
  let sma20Arr := sma close 20 in
  let sma50Arr := sma close 50 in
  let sma200Arr := sma close 200 in
  let ezArr := ez close sma20Arr in
  let stddev20Arr := stddev close 20 in
  let upperBB20 := mapi (fun sd i =>
    match sd, get sma20Arr i with
    | Some sd, Some m => Some (nadd m (nmul n2 sd))
    | _, _ => None
    end) stddev20Arr in
  let lowerBB20 := mapi (fun sd i =>
    match sd, get sma20Arr i with
    | Some sd, Some m => Some (nsub m (nmul n2 sd))
    | _, _ => None
    end) stddev20Arr in
  let len := length rows in
  Ind.mk (last_or_null len rsi14Arr)
    (last_or_null len (m_macd m))
    (last_or_null len (m_macdSignal m))
    (last_or_null len (m_macdHist m))
    (last_or_null len cci20Arr)
    (last_or_null len mfi14Arr)
    (last_or_null len turnover10Arr)
    (last_or_null len sma20Arr)
    (last_or_null len sma50Arr)
    (last_or_null len sma200Arr)
    (last_or_null len ezArr)
    (last_or_null len stddev20Arr)
    (last_or_null len upperBB20)
    (last_or_null len lowerBB20).

Definition getTradingIndicators (db : table) (symbol : string)
  (tradeDate fromDate : date) : Ind.t :=
  indicators_of (findMany_bars db symbol fromDate tradeDate).

(** [prisma.update({ where: { symbol, tradeDate }, data: indicators })]
    on one row: the fourteen keys of [data] are written. *)
Definition write_indicators (ind : Ind.t) (r : Db.Row) : Db.Row :=
  Db.mkRow (Db.id r) (Db.tradeDate r) (Db.firstTradingDate r) (Db.isin r)
    (Db.change r) (Db.securityId r) (Db.turnover r) (Db.closingPrice r)
    (Db.basePrice r) (Db.openingPrice r) (Db.high r) (Db.low r)
    (Db.changeValue r) (Db.transactionsNumber r) (Db.volume r)
    (Db.marketCap r) (Db.minContPhaseAmount r) (Db.listedCapital r)
    (Db.adjustedClosingPrice r) (Db.exCode r) (Db.adjustmentCoefficient r)
    (Db.symbol r) (Db.marketType r)
    (Ind.rsi14 ind) (Ind.macd ind) (Ind.macdSignal ind) (Ind.macdHist ind)
    (Ind.cci20 ind) (Ind.mfi14 ind) (Ind.turnover10 ind) (Ind.sma20 ind)
    (Ind.sma50 ind) (Ind.sma200 ind) (Ind.ez ind) (Ind.stddev20 ind)
    (Ind.upperBollingerBand20 ind) (Ind.lowerBollingerBand20 ind).

Definition has_key (symbol : string) (tradeDate : date) (r : Db.Row) : bool :=
  String.eqb (Db.symbol r) symbol && (Db.tradeDate r =? tradeDate)%Z.

(** The update fails (the client throws) when no row has the key. *)
Definition prisma_update (db : table) (symbol : string) (tradeDate : date)
  (ind : Ind.t) : option table :=
  if existsb (has_key symbol tradeDate) db
  then Some (map (fun r => if has_key symbol tradeDate r
                           then write_indicators ind r else r) db)
  else None.

Definition marketType_is (marketType : string) (r : Db.Row) : bool :=
  match Db.marketType r with
  | Some m => String.eqb m marketType
  | None => false
  end.

Definition on_date (tradeDate : date) (marketType : string) (r : Db.Row)
  : bool :=
  (Db.tradeDate r =? tradeDate)%Z && marketType_is marketType r.

(** The [for (const symbol of symbols)] loop, threading the table and the
    counter. *)
Fixpoint update_loop (symbols : list string) (tradeDate fromDate : date)
  (db : table) (updated : nat) : option (table * nat) :=
  match symbols with
  | [] => Some (db, updated)
  | symbol :: rest =>
    let indicators := getTradingIndicators db symbol tradeDate fromDate in
    match prisma_update db symbol tradeDate indicators with
    | None => None
    | Some db' => update_loop rest tradeDate fromDate db' (S updated)
    end
  end.

Definition updateTradingDayIndicators (db : table) (tradeDate : date)
  (marketType : string) : option (table * nat) :=
  let fromDate := (tradeDate - LOOKBACK_DAYS)%Z in
  let rows := filter (on_date tradeDate marketType) db in
  let symbols := map Db.symbol rows in
  update_loop symbols tradeDate fromDate db 0.

End Host.

(** ** RefreshJob: what a run writes *)

(** The row a refresh of [tradeDate] over the symbols [symbols] leaves in
    place of [r]: rows of that date and of one of these symbols get the
    indicators computed from the bars of the original table [db0]. *)
Definition refreshed (sqrt : num -> num) (db0 : table) (tradeDate : date)
  (symbols : list string) (r : Db.Row) : Db.Row :=
  if (Db.tradeDate r =? tradeDate)%Z
     && existsb (String.eqb (Db.symbol r)) symbols
  then write_indicators
         (getTradingIndicators sqrt db0 (Db.symbol r) tradeDate
            (tradeDate - LOOKBACK_DAYS)%Z) r
  else r.

Definition symbols_on (db : table) (tradeDate : date) (marketType : string)
  : list string :=
  map Db.symbol (filter (on_date tradeDate marketType) db).

(** Every column written by ingestion agrees on [r] and [r']. *)
Definition same_ingested (r r' : Db.Row) : Prop :=
  Db.id r' = Db.id r /\
  Db.tradeDate r' = Db.tradeDate r /\
  Db.firstTradingDate r' = Db.firstTradingDate r /\
  Db.isin r' = Db.isin r /\
  Db.change r' = Db.change r /\
  Db.securityId r' = Db.securityId r /\
  Db.turnover r' = Db.turnover r /\
  Db.closingPrice r' = Db.closingPrice r /\
  Db.basePrice r' = Db.basePrice r /\
  Db.openingPrice r' = Db.openingPrice r /\
  Db.high r' = Db.high r /\
  Db.low r' = Db.low r /\
  Db.changeValue r' = Db.changeValue r /\
  Db.transactionsNumber r' = Db.transactionsNumber r /\
  Db.volume r' = Db.volume r /\
  Db.marketCap r' = Db.marketCap r /\
  Db.minContPhaseAmount r' = Db.minContPhaseAmount r /\
  Db.listedCapital r' = Db.listedCapital r /\
  Db.adjustedClosingPrice r' = Db.adjustedClosingPrice r /\
  Db.exCode r' = Db.exCode r /\
  Db.adjustmentCoefficient r' = Db.adjustmentCoefficient r /\
  Db.symbol r' = Db.symbol r /\
  Db.marketType r' = Db.marketType r.

(** A row transformer that leaves the bar columns and the segment alone. *)
Definition keeps_bars (g : Db.Row -> Db.Row) : Prop :=
  forall r, select_bar (g r) = select_bar r
            /\ Db.marketType (g r) = Db.marketType r.

(** ** Queries of db-api.ts: SQL comparison, latest trade date *)

(** Ordering of [DOUBLE PRECISION] values in the database: NaN is equal to
    itself and greater than every other value. *)
Definition sql_compare (a b : num) : comparison :=
  match a, b with
  | NaN, NaN => Eq
  | NaN, _ => Gt
  | _, NaN => Lt
  | PInf, PInf => Eq
  | PInf, _ => Gt
  | _, PInf => Lt
  | NInf, NInf => Eq
  | NInf, _ => Lt
  | _, NInf => Gt
  | Fin x, Fin y => (x ?= y)%Qc
  end.

Definition sql_gt (a b : num) : bool :=
  match sql_compare a b with Gt => true | _ => false end.

Definition sql_ge (a b : num) : bool :=
  match sql_compare a b with Lt => false | _ => true end.

Definition sql_lt (a b : num) : bool := sql_gt b a.
Definition sql_le (a b : num) : bool := sql_ge b a.

Definition by_tradeDate_desc (r1 r2 : Db.Row) : bool :=
  (Db.tradeDate r2 <=? Db.tradeDate r1)%Z.

(** [getLastTradeDate]: [None] stands for the thrown error. *)
Definition getLastTradeDate (db : table) (marketType : string)
  (before : option date) : option date :=
  let candidates :=
    filter (fun r =>
      marketType_is marketType r
      && match before with
         | Some b => (Db.tradeDate r <=? b)%Z
         | None => true
         end) db in
  match order_by by_tradeDate_desc candidates with
  | [] => None
  | row :: _ => Some (Db.tradeDate row)
  end.

Definition resolve_date (db : table) (marketType : string)
  (tradeDate : option date) : option date :=
  match tradeDate with
  | Some d => Some d
  | None => getLastTradeDate db marketType None
  end.

(** ** Uptrend screen *)

Module Uptrend.
Record Item : Type := mkItem {
  symbol : string;
  ez : num
}.
Record Response : Type := mkResponse {
  tradeDate : date;
  marketType : string;
  count : nat;
  items : list Item
}.
End Uptrend.

(** The [WHERE] clause of [fetchUptrendSymbols]. *)
Definition uptrend_where (tradeDate : date) (marketType : string)
  (r : Db.Row) : bool :=
  (Db.tradeDate r =? tradeDate)%Z
  && marketType_is marketType r
  && match Db.turnover10 r, Db.rsi14 r, Db.macdHist r, Db.closingPrice r,
           Db.sma20 r, Db.sma50 r, Db.sma200 r with
     | Some t10, Some rsi, Some hist, Some close, Some s20, Some s50,
       Some s200 =>
       sql_ge t10 (Z2num 1500000)
       && (sql_ge rsi (Z2num 60) && sql_le rsi (Z2num 70))
       && sql_ge hist n0
       && sql_gt close s20
       && sql_gt s20 s50
       && sql_gt s50 s200
     | _, _, _, _, _, _, _ => false
     end.

(** Ascending order of a nullable column: nulls come last. *)
Definition sql_compare_nulls_last (a b : option num) : comparison :=
  match a, b with
  | None, None => Eq
  | None, Some _ => Gt
  | Some _, None => Lt
  | Some x, Some y => sql_compare x y
  end.

(** [ORDER BY ez ASC, symbol ASC] *)
Definition by_ez_symbol (r1 r2 : Db.Row) : bool :=
  match sql_compare_nulls_last (Db.ez r1) (Db.ez r2) with
  | Lt => true
  | Gt => false
  | Eq => String.leb (Db.symbol r1) (Db.symbol r2)
  end.

(** [Number(x)] on a nullable number: [Number(null)] is 0. *)
Definition Number (o : option num) : num := toNumber o.

Definition uptrend_rows (db : table) (tradeDate : date)
  (marketType : string) : list Db.Row :=
  order_by by_ez_symbol (filter (uptrend_where tradeDate marketType) db).

Definition uptrend_item (r : Db.Row) : Uptrend.Item :=
  Uptrend.mkItem (Db.symbol r) (Number (Db.ez r)).

Definition fetchUptrendSymbols (db : table) (marketType : string)
  (tradeDate : option date) : option Uptrend.Response :=
  match resolve_date db marketType tradeDate with
  | None => None
  | Some date =>
    let rows := uptrend_rows db date marketType in
    let items := map uptrend_item rows in
    Some (Uptrend.mkResponse date marketType (length items) items)
  end.



(** A row with no ingested value beyond its key and segment. *)
Definition snapshot_row (symbol : string) (tradeDate : date)
  (marketType : string) (closingPrice turnover10 rsi14 macdHist sma20 sma50
  sma200 ez : option num) : Db.Row :=
  Db.mkRow symbol tradeDate None symbol None 0%Z None closingPrice None None
    None None None None None None None None None None None symbol
    (Some marketType)
    rsi14 None None macdHist None None turnover10 sma20 sma50 sma200 ez
    None None None.

(** Symbols and segment names used by the examples. *)
Module Sym.
Import String.
Local Open Scope string_scope.
Definition STOCK : string := "STOCK".
Definition AAA : string := "AAA".
Definition BBB : string := "BBB".
End Sym.

(** Two qualifying snapshots of day 1: AAA with ez = 5, BBB with a null
    ez. *)
Definition null_ez_table : table :=
  [ snapshot_row Sym.BBB 1%Z Sym.STOCK (Some (Z2num 120))
      (Some (Z2num 2000000)) (Some (Z2num 65)) (Some (Z2num 1))
      (Some (Z2num 110)) (Some (Z2num 100)) (Some (Z2num 90)) None;
    snapshot_row Sym.AAA 1%Z Sym.STOCK (Some (Z2num 105))
      (Some (Z2num 2000000)) (Some (Z2num 65)) (Some (Z2num 1))
      (Some (Z2num 100)) (Some (Z2num 90)) (Some (Z2num 80))
      (Some (Z2num 5)) ].


(** ** Market Spirit *)

Inductive Score : Type := Defense | Selective | Attack.

Module Spirit.
Record Response : Type := mkResponse {
  tradeDate : date;
  marketType : string;
  score : option Score;
  adv : option Z;
  adLine : option Z
}.
End Spirit.

(** [x ?? d] *)
Definition nullish (o : option num) (d : num) : num :=
  match o with Some v => v | None => d end.

Definition count_rows (p : Db.Row -> bool) (rows : list Db.Row) : nat :=
  length (filter p rows).

(** [GROUP BY "tradeDate" ORDER BY "tradeDate" ASC]: the distinct dates. *)
Definition group_keys (keys : list Z) : list Z :=
  order_by Z.leb (nodup Z.eq_dec keys).

(** [CASE WHEN change > 0 THEN 1 ELSE 0 END] and its mirror: a null
    comparison falls to [ELSE]. *)
Definition sql_change_pos (r : Db.Row) : bool :=
  match Db.change r with Some c => sql_gt c n0 | None => false end.

Definition sql_change_neg (r : Db.Row) : bool :=
  match Db.change r with Some c => sql_lt c n0 | None => false end.

(** The raw query of [fetchMarketSpirit]: one [adv] per trade date of the
    segment between [fromDate] and [date]. *)
Definition advHistory (db : table) (marketType : string)
  (fromDate tradeDate : date) : list Z :=
  let rows :=
    filter (fun r =>
      marketType_is marketType r
      && (fromDate <=? Db.tradeDate r)%Z && (Db.tradeDate r <=? tradeDate)%Z)
      db in
  map (fun d =>
         let day := filter (fun r => (Db.tradeDate r =? d)%Z) rows in
         (Z.of_nat (count_rows sql_change_pos day)
          - Z.of_nat (count_rows sql_change_neg day))%Z)
      (group_keys (map Db.tradeDate rows)).

(** [Number(row.adv) || 0] on an integer. *)
Definition or_zero (adv : Z) : Z := if (adv =? 0)%Z then 0%Z else adv.

Definition half : num := Fin (Q2Qc (1 # 2)).

(** [stocks.filter(p).length / total > 0.5] *)
Definition over_half (p : Db.Row -> bool) (stocks : list Db.Row) : bool :=
  ngt (ndiv (nat2num (count_rows p stocks)) (nat2num (length stocks))) half.

Definition js_advancing (s : Db.Row) : bool :=
  ngt (nullish (Db.change s) n0) n0.
Definition js_declining (s : Db.Row) : bool :=
  nlt (nullish (Db.change s) n0) n0.
Definition js_ez_pos (s : Db.Row) : bool := ngt (nullish (Db.ez s) NInf) n0.
Definition js_rsi_bull (s : Db.Row) : bool :=
  ngt (nullish (Db.rsi14 s) n0) (Z2num 50).
Definition js_hist_pos (s : Db.Row) : bool :=
  ngt (nullish (Db.macdHist s) NInf) n0.
Definition js_cci_pos (s : Db.Row) : bool :=
  ngt (nullish (Db.cci20 s) NInf) n0.

Definition bump (b : bool) (scorePoints : nat) : nat :=
  if b then S scorePoints else scorePoints.

Definition fetchMarketSpirit (db : table) (marketType : string)
  (tradeDate : option date) : option Spirit.Response :=
  match resolve_date db marketType tradeDate with
  | None => None
  | Some date =>
    let stocks := filter (on_date date marketType) db in
    let total := length stocks in
    if total =? 0 then
      Some (Spirit.mkResponse date marketType None None None)
    else
      let advancing := count_rows js_advancing stocks in
      let declining := count_rows js_declining stocks in
      let adv := (Z.of_nat advancing - Z.of_nat declining)%Z in
      let fromDate := (date - 90)%Z in
      let adLine :=
        fold_left (fun sum row => (sum + or_zero row)%Z)
          (advHistory db marketType fromDate date) 0%Z in
      let scorePoints := 0 in
      let scorePoints := bump (0 <? adv)%Z scorePoints in
      let scorePoints := bump (0 <? adLine)%Z scorePoints in
      let scorePoints := bump (over_half js_ez_pos stocks) scorePoints in
      let scorePoints := bump (over_half js_rsi_bull stocks) scorePoints in
      let scorePoints := bump (over_half js_hist_pos stocks) scorePoints in
      let scorePoints := bump (over_half js_cci_pos stocks) scorePoints in
      let score :=
        if scorePoints <=? 2 then Defense
        else if scorePoints <=? 4 then Selective else Attack in
      Some (Spirit.mkResponse date marketType (Some score) (Some adv)
              (Some adLine))
  end.

(** Specification side: a column is positive (above [bound]) on a row when
    it is non-null and greater. *)
Definition above (col : Db.Row -> option num) (bound : num) (r : Db.Row)
  : bool :=
  match col r with Some v => ngt v bound | None => false end.

(** Strictly more than half of the universe satisfies [p]. *)
Definition majority (p : Db.Row -> bool) (stocks : list Db.Row) : bool :=
  length stocks <? 2 * count_rows p stocks.

Definition point (b : bool) : nat := if b then 1 else 0.

(** A day's breadth as the database counts it: the rows whose change is
    above zero minus the rows whose change is below zero, a null change
    counting on neither side. *)
Definition advances (r : Db.Row) : bool :=
  match Db.change r with Some c => sql_gt c n0 | None => false end.

Definition declines (r : Db.Row) : bool :=
  match Db.change r with Some c => sql_lt c n0 | None => false end.

Definition day_breadth (day : list Db.Row) : Z :=
  (Z.of_nat (length (filter advances day))
   - Z.of_nat (length (filter declines day)))%Z.

(** The trade dates on which the segment has a row, from 90 calendar days
    before [tradeDate] up to [tradeDate]. *)
Definition trailing_dates (db : table) (marketType : string)
  (tradeDate : date) : list date :=
  nodup Z.eq_dec
    (map Db.tradeDate
       (filter (fun r =>
          marketType_is marketType r
          && (tradeDate - 90 <=? Db.tradeDate r)%Z
          && (Db.tradeDate r <=? tradeDate)%Z) db)).

(** Cumulative breadth: the day breadths of the segment over the trailing
    trade dates, added up. *)
Definition breadth_line (db : table) (marketType : string) (tradeDate : date)
  : Z :=
  fold_right Z.add 0%Z
    (map (fun d => day_breadth (filter (on_date d marketType) db))
       (trailing_dates db marketType tradeDate)).

(** Today's breadth: advancing minus declining symbols. *)
Definition breadth (stocks : list Db.Row) : Z :=
  (Z.of_nat (count_rows (above Db.change n0) stocks)
   - Z.of_nat (count_rows (fun r =>
       match Db.change r with Some c => nlt c n0 | None => false end) stocks))%Z.

Definition spirit_points (db : table) (marketType : string) (tradeDate : date)
  : nat :=
  let stocks := filter (on_date tradeDate marketType) db in
  point (0 <? breadth stocks)%Z
  + point (0 <? breadth_line db marketType tradeDate)%Z
  + point (majority (above Db.ez n0) stocks)
  + point (majority (above Db.rsi14 (Z2num 50)) stocks)
  + point (majority (above Db.macdHist n0) stocks)
  + point (majority (above Db.cci20 n0) stocks).

(** ** Candlesticks and their aggregation *)

Module Stock.
Record Data : Type := mk {
  tradeDate : date;
  symbol : string;
  change : option num;
  turnover : option num;
  closingPrice : option num;
  basePrice : option num;
  openingPrice : option num;
  high : option num;
  low : option num;
  changeValue : option num;
  volume : option num;
  marketCap : option num;
  minContPhaseAmount : option num;
  listedCapital : option num;
  marketType : option string;
  rsi14 : option num;
  macd : option num;
  macdSignal : option num;
  macdHist : option num;
  cci20 : option num;
  mfi14 : option num;
  turnover10 : option num;
  sma20 : option num;
  sma50 : option num;
  sma200 : option num;
  stddev20 : option num;
  upperBollingerBand20 : option num;
  lowerBollingerBand20 : option num;
  ez : option num;
  companyName : option string;
  sector : option string;
  subSector : option string
}.
End Stock.

(** Raw row returned by the aggregated SQL queries. *)
Module Agg.
Record Row : Type := mk {
  tradeDate : date;
  openingPrice : option num;
  high : option num;
  low : option num;
  closingPrice : option num;
  volume : option Z;
  sma20 : option num;
  sma50 : option num;
  sma200 : option num;
  ez : option num
}.
End Agg.

Inductive Timeframe : Type := TF_1D | TF_3D | TF_1W | TF_1M | TF_3M.

Inductive TruncUnit : Type := week | month | quarter.

Module Candle.
Record Response : Type := mkResponse {
  symbol : string;
  timeframe : Timeframe;
  count : nat;
  dateFrom : option date;
  dateTo : option date;
  items : list Stock.Data
}.
End Candle.

Definition rowToStockData (row : Db.Row) : Stock.Data :=
  Stock.mk (Db.tradeDate row) (Db.symbol row) (Db.change row)
    (bigint_to_num (Db.turnover row)) (Db.closingPrice row)
    (Db.basePrice row) (Db.openingPrice row) (Db.high row) (Db.low row)
    (Db.changeValue row) (bigint_to_num (Db.volume row))
    (bigint_to_num (Db.marketCap row))
    (bigint_to_num (Db.minContPhaseAmount row))
    (bigint_to_num (Db.listedCapital row)) (Db.marketType row)
    (Db.rsi14 row) (Db.macd row) (Db.macdSignal row) (Db.macdHist row)
    (Db.cci20 row) (Db.mfi14 row) (Db.turnover10 row) (Db.sma20 row)
    (Db.sma50 row) (Db.sma200 row) (Db.stddev20 row)
    (Db.upperBollingerBand20 row) (Db.lowerBollingerBand20 row) (Db.ez row)
    None None None.

Definition agg_change (open close : option num) : option num :=
  match open, close with
  | Some o, Some c =>
    if negb (neqb o n0) then Some (nmul (ndiv (nsub c o) o) n100) else None
  | _, _ => None
  end.

Definition aggRowToStockData (row : Agg.Row) (symbol : string) : Stock.Data :=
  let open := Agg.openingPrice row in
  let close := Agg.closingPrice row in
  let change := agg_change open close in
  Stock.mk (Agg.tradeDate row) symbol change
    None close None open (Agg.high row) (Agg.low row) None
    (bigint_to_num (Agg.volume row)) None None None None
    None None None None None None None
    (Agg.sma20 row) (Agg.sma50 row) (Agg.sma200 row) None None None
    (Agg.ez row) None None None.

(** SQL aggregates: nulls are skipped; the result is null when every
    input is. *)
Definition sql_max2 (acc o : option num) : option num :=
  match acc, o with
  | None, _ => o
  | _, None => acc
  | Some a, Some b => if sql_gt b a then Some b else Some a
  end.

Definition sql_min2 (acc o : option num) : option num :=
  match acc, o with
  | None, _ => o
  | _, None => acc
  | Some a, Some b => if sql_lt b a then Some b else Some a
  end.

Definition sql_sum2 (acc o : option Z) : option Z :=
  match acc, o with
  | None, _ => o
  | _, None => acc
  | Some a, Some b => Some (a + b)%Z
  end.

Definition sql_max (l : list (option num)) : option num :=
  fold_left sql_max2 l None.
Definition sql_min (l : list (option num)) : option num :=
  fold_left sql_min2 l None.
Definition sql_sum (l : list (option Z)) : option Z :=
  fold_left sql_sum2 l None.
Definition sql_max_date (l : list date) : date :=
  fold_left Z.max l (hd 0%Z l).

(** [CASE WHEN cond THEN v END] *)
Definition case_when (cond : bool) (v : option num) : option num :=
  if cond then v else None.

(** [MAX(CASE WHEN rn_asc = 1 THEN col END)] over a bucket listed by
    ascending trade date: [rn_asc] is the position counted from 1. *)
Definition first_in_bucket (col : Db.Row -> option num) (g : list Db.Row)
  : option num :=
  sql_max (mapi (fun r i => case_when (S i =? 1) (col r)) g).

(** [MAX(CASE WHEN rn_desc = 1 THEN col END)]: [rn_desc] is the position
    counted from the end. *)
Definition last_in_bucket (col : Db.Row -> option num) (g : list Db.Row)
  : option num :=
  sql_max (mapi (fun r i => case_when (length g - i =? 1) (col r)) g).

(** The [SELECT] list of both aggregated queries, on one bucket. *)
Definition aggregate (g : list Db.Row) : Agg.Row :=
  Agg.mk (sql_max_date (map Db.tradeDate g))
    (first_in_bucket Db.openingPrice g)
    (sql_max (map Db.high g))
    (sql_min (map Db.low g))
    (last_in_bucket Db.closingPrice g)
    (sql_sum (map Db.volume g))
    (last_in_bucket Db.sma20 g)
    (last_in_bucket Db.sma50 g)
    (last_in_bucket Db.sma200 g)
    (last_in_bucket Db.ez g).

(** [GROUP BY key ORDER BY key] on rows listed by ascending trade date. *)
Definition buckets (keyed : list (Z * Db.Row)) : list (list Db.Row) :=
  map (fun k => map snd (filter (fun p => (fst p =? k)%Z) keyed))
    (group_keys (map fst keyed)).

Definition candle_rows (db : table) (symbol : string) (from to : date)
  : list Db.Row :=
  order_by by_tradeDate (filter (in_lookback symbol from to) db).

Section Calendar.
(** [DATE_TRUNC(unit, date)] and the date one year before, both left to
    the calendar. *)
Variable date_trunc : TruncUnit -> date -> date.
Variable yearBefore : date -> date.

Definition candle_keyed (rows : list Db.Row) (timeframe : Timeframe)
  : list (Z * Db.Row) :=
  match timeframe with
  | TF_3D => mapi (fun r row_idx => (Z.of_nat (row_idx / 3), r)) rows
  | _ =>
    let truncUnit :=
      match timeframe with
      | TF_1W => week
      | TF_1M => month
      | _ => quarter
      end in
    map (fun r => (date_trunc truncUnit (Db.tradeDate r), r)) rows
  end.

Definition candle_buckets (db : table) (symbol : string) (from to : date)
  (timeframe : Timeframe) : list (list Db.Row) :=
  buckets (candle_keyed (candle_rows db symbol from to) timeframe).

Definition fetchCandlestickAggregated (db : table) (symbol : string)
  (from to : date) (timeframe : Timeframe) : list Agg.Row :=
  map aggregate (candle_buckets db symbol from to timeframe).

Definition fetchCandlestick (db : table) (symbol : string)
  (dateFrom dateTo : option date) (timeframe : Timeframe)
  : option Candle.Response :=
  match getLastTradeDate db Sym.STOCK None with
  | None => None
  | Some lastDate =>
    let to := match dateTo with Some d => d | None => lastDate end in
    let from := match dateFrom with Some d => d | None => yearBefore to end in
    let items :=
      match timeframe with
      | TF_1D => map rowToStockData (candle_rows db symbol from to)
      | _ =>
        map (fun r => aggRowToStockData r symbol)
          (fetchCandlestickAggregated db symbol from to timeframe)
      end in
    Some (Candle.mkResponse symbol timeframe (length items)
            (match items with
             | [] => None
             | first :: _ => Some (Stock.tradeDate first)
             end)
            (match items with
             | [] => None
             | first :: _ => Some (Stock.tradeDate (last items first))
             end)
            items)
  end.



End Calendar.


(** A row carrying only its key, segment, open and close. *)
Definition price_row (symbol : string) (tradeDate : date)
  (openingPrice closingPrice : option num) : Db.Row :=
  Db.mkRow symbol tradeDate None symbol None 0%Z None closingPrice None
    openingPrice None None None None None None None None None None None
    symbol (Some Sym.STOCK)
    None None None None None None None None None None None None None None.

(** Four daily bars of AAA: days 1 to 3 fall in the first 3-day bucket. *)
Definition candle_table : table :=
  [ price_row Sym.AAA 1%Z (Some (Z2num 100)) (Some (Z2num 104));
    price_row Sym.AAA 2%Z (Some (Z2num 104)) (Some (Z2num 90));
    price_row Sym.AAA 3%Z (Some (Z2num 90)) (Some (Z2num 110));
    price_row Sym.AAA 4%Z (Some (Z2num 110)) (Some (Z2num 121)) ].

Definition trunc_same (u : TruncUnit) (d : date) : date := d.
Definition minus_365 (d : date) : date := (d - 365)%Z.

(** ** Specification side: further properties of the engine *)

(** Invariant of [ema] on entry to iteration [i]: a running average exists
    only when the [period] entries before [i] are all non-null. *)
Definition ema_inv (values : arr) (period i : nat) (prev : option num)
  : Prop :=
  prev <> None ->
  period <= i /\ forall j, i - period <= j < i -> get values j <> None.

(** The finite values of the window of [period] entries ending at [i]. *)
Definition window_q (values : arr) (period i : nat) : list Qc :=
  map (qat values) (seq (i + 1 - period) period).

Definition qsum (l : list Qc) : Qc := fold_left Qcplus l 0%Qc.

Definition qmean (l : list Qc) (n : nat) : Qc := (qsum l / nat2Qc n)%Qc.

(** Population variance: squared deviations from the mean, divided by the
    number of entries. *)
Definition qvariance (l : list Qc) (n : nat) : Qc :=
  (fold_left (fun a x => a + (x - qmean l n) * (x - qmean l n)) l 0
   / nat2Qc n)%Qc.

(** Invariant of [stddev] on entry to iteration [i]: the window holds the
    last [len] entries, all valid, where [len] is the length of the
    current run of valid entries capped at [period]. *)
Definition stddev_inv (values : arr) (period i : nat) (window : list num)
  : Prop :=
  exists len,
    len <= period /\ len <= i /\
    window = map (fun j => Fin (qat values j)) (seq (i - len) len) /\
    (forall j, i - len <= j < i -> valid (get values j) = true) /\
    (len < period -> len < i -> valid (get values (i - len - 1)) = false).

(** A row that [getLastTradeDate] considers. *)
Definition last_date_candidate (marketType : string) (before : option date)
  (r : Db.Row) : Prop :=
  Db.marketType r = Some marketType
  /\ match before with
     | Some b => (Db.tradeDate r <= b)%Z
     | None => True
     end.

(** Sum of the non-null entries. *)
Definition zsum (l : list (option Z)) : Z :=
  fold_right (fun o s => match o with Some z => (z + s)%Z | None => s end)
    0%Z l.

Definition is_null {A : Type} (o : option A) : bool :=
  match o with None => true | Some _ => false end.

(** ** End-of-day rows of chosen symbols, period change *)

Inductive HeatmapPeriod : Type := P_1D | P_1W | P_1M | P_3M.

Definition HEATMAP_PERIOD_OFFSETS (period : HeatmapPeriod) : nat :=
  match period with
  | P_1D => 1
  | P_1W => 5
  | P_1M => 21
  | P_3M => 63
  end.

Module Eod.
Record Response : Type := mkResponse {
  symbols : list string;
  count : nat;
  dateFrom : date;
  dateTo : date;
  items : list Stock.Data
}.
End Eod.

(** [symbol IN (symbols)] *)
Definition symbol_in (symbols : list string) (r : Db.Row) : bool :=
  existsb (String.eqb (Db.symbol r)) symbols.

Definition by_symbol (r1 r2 : Db.Row) : bool :=
  String.leb (Db.symbol r1) (Db.symbol r2).

(** [orderBy: [{ symbol: "asc" }, { tradeDate: "asc" }]] *)
Definition by_symbol_tradeDate (r1 r2 : Db.Row) : bool :=
  match String.compare (Db.symbol r1) (Db.symbol r2) with
  | Lt => true
  | Gt => false
  | Eq => (Db.tradeDate r1 <=? Db.tradeDate r2)%Z
  end.

Definition fetchEndOfDaySymbols (db : table) (symbols : option (list string))
  (dateFrom dateTo : option date) : option Eod.Response :=
  match getLastTradeDate db Sym.STOCK None with
  | None => None
  | Some lastDate =>
    let from := match dateFrom with Some d => d | None => lastDate end in
    let to := match dateTo with Some d => d | None => lastDate end in
    let rows :=
      order_by by_symbol_tradeDate
        (filter (fun r =>
           match symbols with
           | Some (s :: l) => symbol_in (s :: l) r
           | _ => true
           end
           && (from <=? Db.tradeDate r)%Z && (Db.tradeDate r <=? to)%Z) db) in
    Some (Eod.mkResponse
            (match symbols with Some l => l | None => [] end)
            (length rows) from to (map rowToStockData rows))
  end.

(** The rows an end-of-day response with these [symbols], [dateFrom] and
    [dateTo] stands for: dated within the two bounds, and of a listed
    symbol unless the list is empty. *)
Definition eod_selected (symbols : list string) (dateFrom dateTo : date)
  (r : Db.Row) : bool :=
  match symbols with
  | [] => true
  | _ => if in_dec String.string_dec (Db.symbol r) symbols then true else false
  end
  && (dateFrom <=? Db.tradeDate r)%Z && (Db.tradeDate r <=? dateTo)%Z.

Definition dates_desc (a b : date) : bool := (b <=? a)%Z.

Definition dates : Type := list date.

(** The [recent_dates] subquery: the [limit] latest distinct trade dates
    of the table up to [date]. *)
Definition recent_dates (db : table) (date : date) (limit : nat)
  : dates :=
  firstn limit
    (order_by dates_desc
       (nodup Z.eq_dec
          (map Db.tradeDate
             (filter (fun r => (Db.tradeDate r <=? date)%Z) db)))).

(** [LAG(col, N) OVER (ORDER BY ...)] on a partition listed in that order:
    the column of the row [N] places before, null when there is none. *)
Definition lag (N : nat) (col : Db.Row -> option num)
  (partition : list Db.Row) : list (Db.Row * option num) :=
  mapi (fun t i =>
          (t, if N <=? i
              then match nth_error partition (i - N) with
                   | Some p => col p
                   | None => None
                   end
              else None))
    partition.

Definition in_window (recent : list date) (symbols : list string)
  (t : Db.Row) : bool :=
  existsb (Z.eqb (Db.tradeDate t)) recent && symbol_in symbols t.

(** The [windowed] subquery: each row with its [past_close]. *)
Definition windowed (db : table) (symbols : list string) (date : date)
  (N limit : nat) : list (Db.Row * option num) :=
  let recent := recent_dates db date limit in
  let rows := filter (in_window recent symbols) db in
  concat
    (map (fun s =>
            lag N Db.closingPrice
              (order_by by_tradeDate
                 (filter (fun t => String.eqb (Db.symbol t) s) rows)))
       (nodup String.string_dec (map Db.symbol rows))).

(** [CASE WHEN past_close IS NOT NULL AND past_close > 0
     THEN (closingPrice - past_close) / past_close * 100 ELSE NULL END] *)
Definition period_change (closingPrice past_close : option num)
  : option num :=
  match past_close with
  | Some p =>
    if sql_gt p n0 then
      match closingPrice with
      | Some c => Some (nmul (ndiv (nsub c p) p) n100)
      | None => None
      end
    else None
  | None => None
  end.

Module Sidebar.
Record Row : Type := mk {
  symbol : string;
  closingPrice : option num;
  marketCap : option Z;
  change : option num
}.
End Sidebar.

Definition sidebar_row (w : Db.Row * option num) : Sidebar.Row :=
  Sidebar.mk (Db.symbol (fst w)) (Db.closingPrice (fst w))
    (Db.marketCap (fst w))
    (period_change (Db.closingPrice (fst w)) (snd w)).

(** The raw query of [fetchEndOfDaySymbolsByDate] for a period other than
    1D. *)
Definition period_rows (db : table) (symbols : list string) (date : date)
  (N limit : nat) : list Sidebar.Row :=
  map sidebar_row
    (order_by (fun w1 w2 => by_symbol (fst w1) (fst w2))
       (filter (fun w => (Db.tradeDate (fst w) =? date)%Z)
          (windowed db symbols date N limit))).

Definition sidebar_item (dateStr : date) (r : Sidebar.Row) : Stock.Data :=
  Stock.mk dateStr (Sidebar.symbol r) (Sidebar.change r)
    None (Sidebar.closingPrice r) None None None None None None
    (bigint_to_num (Sidebar.marketCap r)) None None None
    None None None None None None None None None None None None None None
    None None None.

(** [None] stands for a thrown error: no STOCK row at all, or an empty
    symbol list handed to [Prisma.join], which rejects it. *)
Definition fetchEndOfDaySymbolsByDate (db : table) (symbols : list string)
  (tradeDate : option date) (period : HeatmapPeriod)
  : option Eod.Response :=
  match getLastTradeDate db Sym.STOCK None with
  | None => None
  | Some lastDate =>
    let date := match tradeDate with Some d => d | None => lastDate end in
    match period with
    | P_1D =>
      let rows :=
        order_by by_symbol
          (filter (fun r => symbol_in symbols r
                            && (Db.tradeDate r =? date)%Z) db) in
      Some (Eod.mkResponse symbols (length rows) date date
              (map rowToStockData rows))
    | _ =>
      let N := HEATMAP_PERIOD_OFFSETS period in
      let limit := N + 1 in
      match symbols with
      | [] => None
      | _ :: _ =>
        let rows := period_rows db symbols date N limit in
        let items := map (sidebar_item date) rows in
        Some (Eod.mkResponse symbols (length items) date date items)
      end
    end
  end.

(** The unique index on (symbol, tradeDate). *)
Definition unique_keys (db : table) : Prop :=
  NoDup (map (fun r => (Db.symbol r, Db.tradeDate r)) db).

(** Six daily bars of AAA, closing at 100, 101, ..., 104 and then 110. *)
Definition week_table : table :=
  [ price_row Sym.AAA 1%Z None (Some (Z2num 100));
    price_row Sym.AAA 2%Z None (Some (Z2num 101));
    price_row Sym.AAA 3%Z None (Some (Z2num 102));
    price_row Sym.AAA 4%Z None (Some (Z2num 103));
    price_row Sym.AAA 5%Z None (Some (Z2num 104));
    price_row Sym.AAA 6%Z None (Some (Z2num 110)) ].

(** ** Specification side: monotone series *)

(** Every entry of [values] is a finite number that stands in [rel] to
    the entry before it, [prev] being the entry before the first. *)
Fixpoint chain (rel : Qc -> Qc -> bool) (prev : Qc) (values : arr) : bool :=
  match values with
  | [] => true
  | Some (Fin b) :: rest => rel prev b && chain rel b rest
  | _ => false
  end.

Definition chained (rel : Qc -> Qc -> bool) (values : arr) : bool :=
  match values with
  | [] => true
  | Some (Fin a) :: rest => chain rel a rest
  | _ => false
  end.

(** A series of finite closes none of which is below the one before. *)
Definition never_falls (values : arr) : bool :=
  chained (fun a b => negb (Qcltb b a)) values.

(** A series of finite closes each of which is below the one before. *)
Definition always_falls (values : arr) : bool :=
  chained (fun a b => Qcltb b a) values.

(** Order of bucketed rows: by bucket key and by trade date. *)
Definition keyed_le (p q : Z * Db.Row) : Prop :=
  (fst p <= fst q)%Z /\ (Db.tradeDate (snd p) <= Db.tradeDate (snd q))%Z.

Definition date_le (r1 r2 : Db.Row) : Prop :=
  (Db.tradeDate r1 <= Db.tradeDate r2)%Z.

(** ** The averaging loops in machine arithmetic

    The engine computes in IEEE binary64 doubles.  The definitions above
    compute in exact rationals: that is faithful for what depends on
    nulls, on the order of stored values and on the shape of a formula,
    and it is not for what depends on rounding, overflow or underflow.
    [sma] and [cci] are therefore embedded a second time, here, over the
    kernel's binary64 numbers, operation by operation in the order of the
    source. *)

Module Ieee.
Import PrimFloat.
#[local] Set Warnings "-inexact-float".

Definition arr := list (option float).

(** [values[i]]: [undefined] past the end. *)
Definition get (values : arr) (i : nat) : option float :=
  nth i values (Some nan).

Definition toNumber (o : option float) : float :=
  match o with Some v => v | None => 0%float end.

(** A count or a period as a double (exact below 2^53). *)
Fixpoint ofNat (n : nat) : float :=
  match n with
  | O => 0%float
  | S n' => (ofNat n' + 1)%float
  end.

Definition sma_step (values : arr) (period : nat) (i : nat)
  (st : float * nat) : (float * nat) * option float :=
  let '(sum, count) := st in
  match get values i with
  | None => ((0%float, 0), None)
  | Some v =>
    if negb (is_finite v) then ((0%float, 0), None)
    else
      let sum := (sum + v)%float in
      let count := S count in
      let '(sum, count) :=
        if period <? count
        then ((sum - toNumber (get values (i - period)))%float, period)
        else (sum, count) in
      ((sum, count),
       if count =? period then Some (sum / ofNat period)%float else None)
  end.

Definition sma (values : arr) (period : nat) : arr :=
  loop (sma_step values period) 0 (length values) (0%float, 0).


Definition typical (high low close : arr) : arr :=
  mapi (fun _ i =>
    match get high i, get low i, get close i with
    | Some h, Some l, Some c => Some ((h + l + c) / 3)%float
    | _, _, _ => None
    end) close.

(** The deviation loop of [cci]: a null entry zeroes the sum and leaves
    the loop. *)
Fixpoint cci_dev_loop (tp : arr) (m : float) (j n : nat) (sumDev : float)
  : float :=
  match n with
  | O => sumDev
  | S n' =>
    match get tp j with
    | None => 0%float
    | Some w => cci_dev_loop tp m (S j) n' (sumDev + abs (w - m))%float
    end
  end.

Definition cci_at (tp tpSma : arr) (period i : nat) : option float :=
  if i + 1 <? period then None
  else
    match get tp i, get tpSma i with
    | Some t, Some m =>
      let sumDev := cci_dev_loop tp m (i + 1 - period) period 0%float in
      let meanDev := (sumDev / ofNat period)%float in
      if (meanDev =? 0)%float then None
      else Some ((t - m) / (0.015 * meanDev))%float
    | _, _ => None
    end.

Definition cci (high low close : arr) (period : nat) : arr :=
  let tp := typical high low close in
  let tpSma := sma tp period in
  map (cci_at tp tpSma period) (seq 0 (length tp)).



(** Twenty bars of a symbol that stays at 10.1. *)
Definition flat_bars : arr := repeat (Some 10.1%float) 20.

(** Nineteen bars at 0 and one at 10^-321, a subnormal double. *)
Definition tiny_bars : arr :=
  repeat (Some 0%float) 19 ++ [Some 1e-321%float].

(** Twenty bars at 10^307. *)
Definition huge_bars : arr := repeat (Some 1e307%float) 20.

End Ieee.

(** * Part II: lemmas and theorems *)

(** ** Index loops *)

Section LoopFacts.
Context {St Out : Type} (step : nat -> St -> St * Out).

Lemma state_at_shift (k i : nat) (s : St) :
  state_at step i (S k) s = state_at step (S i) k (fst (step i s)).
Proof.
  induction k as [|k IH]; simpl.
  - now rewrite Nat.add_0_r.
  - simpl in IH. rewrite IH.
    now replace (i + S k) with (S (i + k)) by lia.
Qed.

Lemma loop_length (n i : nat) (s : St) : length (loop step i n s) = n.
Proof.
  revert i s; induction n as [|n IH]; intros i s; simpl; auto.
  destruct (step i s); simpl; now rewrite IH.
Qed.

Lemma loop_nth (n k i : nat) (s : St) (d : Out) :
  k < n ->
  nth k (loop step i n s) d = snd (step (i + k) (state_at step i k s)).
Proof.
  revert k i s; induction n as [|n IH]; intros k i s Hk; [lia|].
  destruct k as [|k].
  - simpl. rewrite Nat.add_0_r. now destruct (step i s).
  - rewrite state_at_shift. simpl loop.
    destruct (step i s) as [s' o] eqn:E. simpl nth.
    rewrite IH by lia. simpl.
    now replace (i + S k) with (S (i + k)) by lia.
Qed.

End LoopFacts.

(** ** Structural equality tests *)

Lemma num_same_eq (a b : num) : num_same a b = true -> a = b.
Proof.
  destruct a, b; simpl; intros H; try discriminate; auto.
  f_equal. now apply Qc_eq_bool_correct.
Qed.

Lemma opt_same_eq (a b : option num) : opt_same a b = true -> a = b.
Proof.
  destruct a, b; simpl; intros H; try discriminate; auto.
  f_equal. now apply num_same_eq.
Qed.

Lemma arr_same_eq (a b : arr) : arr_same a b = true -> a = b.
Proof.
  revert b; induction a as [|x a IH]; intros [|y b]; simpl; intros H;
    try discriminate; auto.
  apply andb_true_iff in H as [H1 H2].
  f_equal; [now apply opt_same_eq | now apply IH].
Qed.

(** ** Facts about the number model *)

Lemma Qceqb_true (x y : Qc) : Qceqb x y = true <-> x = y.
Proof.
  unfold Qceqb. rewrite Qceq_alt.
  destruct (x ?= y)%Qc; split; intros H; congruence.
Qed.

Lemma Qceqb_false (x y : Qc) : Qceqb x y = false <-> x <> y.
Proof.
  rewrite <- Qceqb_true. destruct (Qceqb x y); split; congruence.
Qed.

Lemma Qcltb_true (x y : Qc) : Qcltb x y = true <-> (x < y)%Qc.
Proof.
  unfold Qcltb. rewrite Qclt_alt.
  destruct (x ?= y)%Qc; split; intros H; congruence.
Qed.

Lemma nat2Qc_nonzero (n : nat) : 0 < n -> nat2Qc n <> 0%Qc.
Proof.
  intros Hn E. unfold nat2Qc in E.
  apply Q2Qc_eq_iff in E. unfold Qeq in E. simpl in E. lia.
Qed.

Lemma ndiv_fin (x : Qc) (n : nat) :
  0 < n -> ndiv (Fin x) (nat2num n) = Fin (x / nat2Qc n)%Qc.
Proof.
  intros Hn. unfold nat2num. simpl.
  apply nat2Qc_nonzero in Hn. apply Qceqb_false in Hn. now rewrite Hn.
Qed.

(** ** SMA: the rolling mean and the reset at a gap *)

Lemma valid_fin (o : option num) :
  valid o = true -> exists q, o = Some (Fin q).
Proof. destruct o as [[q| | |]|]; simpl; try discriminate; eauto. Qed.

Lemma qat_fin (values : arr) (j : nat) (q : Qc) :
  get values j = Some (Fin q) -> qat values j = q.
Proof. intros E. unfold qat. now rewrite E. Qed.

Lemma qsum_range_head (values : arr) (n a : nat) :
  qsum_range values a (S n)
  = (qat values a + qsum_range values (S a) n)%Qc.
Proof.
  induction n as [|n IH].
  - simpl. rewrite Nat.add_0_r. ring.
  - change (qsum_range values a (S (S n)))
      with (qsum_range values a (S n) + qat values (a + S n))%Qc.
    rewrite IH. simpl.
    replace (a + S n) with (S (a + n)) by lia. ring.
Qed.

Lemma sma_inv_reset (values : arr) (period i : nat) :
  valid (get values i) = false ->
  sma_inv values period (S i) (n0, 0).
Proof.
  intros Hv. unfold sma_inv. split; [lia|]. split; [lia|].
  split; [intros j Hj; lia|]. split; [reflexivity|].
  intros _ _. now replace (S i - 0 - 1) with i by lia.
Qed.

Lemma sma_inv_step (values : arr) (period i : nat) (st : num * nat) :
  sma_inv values period i st ->
  sma_inv values period (S i) (fst (sma_step values period i st)).
Proof.
  destruct st as [sum count]. intros (Hcp & Hci & Hval & Hsum & Hrun).
  unfold sma_step.
  destruct (get values i) as [v|] eqn:Ev.
  2:{ apply sma_inv_reset. now rewrite Ev. }
  destruct v as [q| | |]; simpl negb; cbv iota.
  2,3,4: apply sma_inv_reset; now rewrite Ev.
  subst sum. simpl nadd.
  destruct (period <? S count) eqn:Ep.
  - apply Nat.ltb_lt in Ep. assert (count = period) by lia. subst count.
    simpl fst. unfold sma_inv.
    assert (Hoff : get values (i - period) = Some (Fin (qat values (i - period)))).
    { destruct period as [|p].
      - rewrite Nat.sub_0_r. unfold qat. now rewrite Ev.
      - assert (Hv : valid (get values (i - S p)) = true)
          by (apply Hval; lia).
        apply valid_fin in Hv as [q0 E0]. unfold qat. now rewrite E0. }
    rewrite Hoff. simpl toNumber. simpl nsub.
    repeat split; try lia.
    + intros j Hj. destruct (Nat.eq_dec j i) as [->|Hne].
      * now rewrite Ev.
      * apply Hval; lia.
    + f_equal. destruct period as [|p].
      * simpl. rewrite Nat.sub_0_r. unfold qat. rewrite Ev. ring.
      * replace (S i - S p) with (S (i - S p)) by lia.
        change (qsum_range values (S (i - S p)) (S p))
          with (qsum_range values (S (i - S p)) p
                + qat values (S (i - S p) + p))%Qc.
        rewrite qsum_range_head.
        replace (S (i - S p) + p) with i by lia.
        unfold qat at 3. rewrite Ev. ring.
  - apply Nat.ltb_ge in Ep. simpl fst. unfold sma_inv.
    repeat split; try lia.
    + intros j Hj. destruct (Nat.eq_dec j i) as [->|Hne].
      * now rewrite Ev.
      * apply Hval; lia.
    + f_equal. replace (S i - S count) with (i - count) by lia.
      simpl. replace (i - count + count) with i by lia.
      unfold qat. now rewrite Ev.
    + intros H1 H2. replace (S i - S count - 1) with (i - count - 1) by lia.
      apply Hrun; lia.
Qed.

Lemma sma_state_inv (values : arr) (period i : nat) :
  sma_inv values period i (state_at (sma_step values period) 0 i (n0, 0)).
Proof.
  induction i as [|i IH].
  - simpl state_at. unfold sma_inv. split; [lia|]. split; [lia|].
    split; [intros j Hj; lia|]. split; [reflexivity|]. intros; lia.
  - simpl state_at. now apply sma_inv_step.
Qed.

Lemma sma_nth (values : arr) (period i : nat) :
  i < length values ->
  nth i (sma values period) None
  = snd (sma_step values period i
           (state_at (sma_step values period) 0 i (n0, 0))).
Proof. intros Hi. unfold sma. now rewrite loop_nth. Qed.

(** At an index whose trailing window is entirely valid, [sma] yields the
    window's sum divided by [period]. *)
Lemma sma_emits_mean (values : arr) (period i : nat) :
  0 < period -> i < length values -> period <= i + 1 ->
  (forall j, i + 1 - period <= j <= i -> valid (get values j) = true) ->
  nth i (sma values period) None
  = Some (Fin (qsum_range values (i + 1 - period) period / nat2Qc period)%Qc).
Proof.
  intros Hp Hi Hfit Hwin. rewrite sma_nth by assumption.
  pose proof (sma_state_inv values period i) as Hinv.
  destruct (state_at (sma_step values period) 0 i (n0, 0)) as [sum count].
  destruct Hinv as (Hcp & Hci & Hval & Hsum & Hrun).
  assert (Hv : valid (get values i) = true) by (apply Hwin; lia).
  apply valid_fin in Hv as [q Ev].
  unfold sma_step. rewrite Ev. simpl negb. cbv iota.
  subst sum. cbn [nadd].
  destruct (period <? S count) eqn:Ep.
  - apply Nat.ltb_lt in Ep. assert (count = period) by lia. subst count.
    assert (Hv : valid (get values (i - period)) = true)
      by (apply Hval; lia).
    apply valid_fin in Hv as [q0 E0].
    rewrite E0. cbn [toNumber nsub snd].
    rewrite Nat.eqb_refl, ndiv_fin by assumption.
    do 3 f_equal.
    destruct period as [|p]; [lia|].
    replace (i + 1 - S p) with (S (i - S p)) by lia.
    change (qsum_range values (S (i - S p)) (S p))
      with (qsum_range values (S (i - S p)) p
            + qat values (S (i - S p) + p))%Qc.
    rewrite qsum_range_head.
    replace (S (i - S p) + p) with i by lia.
    rewrite (qat_fin _ _ Ev), (qat_fin _ _ E0). ring.
  - apply Nat.ltb_ge in Ep. cbn [snd].
    assert (Hc : S count = period).
    { destruct (Nat.eq_dec (S count) period) as [|Hne]; [assumption|].
      exfalso. assert (Hlt : count < i) by lia.
      assert (Hlp : count < period) by lia.
      specialize (Hrun Hlp Hlt).
      rewrite Hwin in Hrun by lia. discriminate. }
    rewrite <- Hc at 1. rewrite Nat.eqb_refl, ndiv_fin by assumption.
    do 3 f_equal. rewrite <- Hc.
    replace (i + 1 - S count) with (i - count) by lia.
    simpl. replace (i - count + count) with i by lia.
    now rewrite (qat_fin _ _ Ev).
Qed.

(** Whenever [sma] emits a value, the window fits and is entirely valid. *)
Lemma sma_some_window (values : arr) (period i : nat) (v : num) :
  i < length values ->
  nth i (sma values period) None = Some v ->
  period <= i + 1 /\
  (forall j, i + 1 - period <= j <= i -> valid (get values j) = true).
Proof.
  intros Hi. rewrite sma_nth by assumption.
  pose proof (sma_state_inv values period i) as Hinv.
  destruct (state_at (sma_step values period) 0 i (n0, 0)) as [sum count].
  destruct Hinv as (Hcp & Hci & Hval & Hsum & Hrun).
  unfold sma_step.
  destruct (get values i) as [w|] eqn:Ev; [|discriminate].
  destruct w as [q| | |]; simpl negb; cbv iota; try discriminate.
  assert (Hvi : valid (get values i) = true) by (now rewrite Ev).
  destruct (period <? S count) eqn:Ep.
  - apply Nat.ltb_lt in Ep. assert (count = period) by lia. subst count.
    intros _. split; [lia|]. intros j Hj.
    destruct (Nat.eq_dec j i) as [->|Hne]; [assumption | apply Hval; lia].
  - apply Nat.ltb_ge in Ep. cbn [snd].
    destruct (S count =? period) eqn:Ec; [|discriminate].
    apply Nat.eqb_eq in Ec. intros _. split; [lia|]. intros j Hj.
    destruct (Nat.eq_dec j i) as [->|Hne]; [assumption | apply Hval; lia].
Qed.

(** ** Rolling mean in machine arithmetic *)

Section SmaRounding.
Import PrimFloat.
#[local] Set Warnings "-inexact-float".


End SmaRounding.

(** ** RSI: what happens around a null close *)

Lemma rsi_nth (values : arr) (period i : nat) :
  i < length values ->
  nth (S i) (rsi values period) None
  = nth i (loop (rsi_step values period) 1 (length values - 1) (None, None))
      None.
Proof. destruct values; simpl; [lia | reflexivity]. Qed.

(** Past the seeding index, a state without averages never gets them back. *)
Lemma rsi_step_stuck (values : arr) (period i : nat) :
  period < i ->
  rsi_step values period i (None, None) = ((None, None), None).
Proof.
  intros Hi. unfold rsi_step.
  destruct (get values (i - 1)) as [prev|]; [|reflexivity].
  destruct (get values i) as [cur|]; [|reflexivity].
  assert (E1 : (i <? period) = false) by (apply Nat.ltb_ge; lia).
  assert (E2 : (i =? period) = false) by (apply Nat.eqb_neq; lia).
  now rewrite E1, E2.
Qed.

Lemma rsi_step_null (values : arr) (period i : nat)
  (st : option num * option num) :
  get values i = None ->
  rsi_step values period i st = ((None, None), None).
Proof.
  intros E. unfold rsi_step. destruct st as [g l]. rewrite E.
  now destruct (get values (i - 1)).
Qed.

Lemma rsi_state_after_gap (values : arr) (period j k : nat) :
  get values j = None -> period <= j -> j <= k ->
  state_at (rsi_step values period) 1 k (None, None) = (None, None).
Proof.
  intros Hnull Hp Hk. induction k as [|k IH]; [reflexivity|].
  simpl state_at. replace (1 + k) with (S k) by lia.
  destruct (Nat.eq_dec j (S k)) as [->|Hne].
  - now rewrite rsi_step_null.
  - rewrite IH by lia. rewrite rsi_step_stuck by lia. reflexivity.
Qed.

(** Once a null close occurs at or after the seeding index, every later
    output of [rsi] is null, however many valid closes follow. *)
Lemma rsi_null_after_gap (values : arr) (period j i : nat) :
  get values j = None -> period <= j -> j < i -> i < length values ->
  nth i (rsi values period) None = None.
Proof.
  intros Hnull Hp Hji Hi. destruct i as [|i]; [lia|].
  rewrite rsi_nth by lia. rewrite loop_nth by lia.
  rewrite (rsi_state_after_gap values (period:=period) (j:=j)) by (auto; lia).
  replace (1 + i) with (S i) by lia.
  rewrite rsi_step_stuck by lia. reflexivity.
Qed.

(** C1. On [gap_closes] the RSI is emitted at indices 14 and 15, and after
    the null at index 16 it stays null through all twenty valid closes that
    follow: the averages are never seeded again. *)
Theorem rsi_gap_stays_null :
  rsi gap_closes 14
  = repeat None 14 ++ [Some n100; Some n100] ++ repeat None 21.
Proof. apply arr_same_eq. vm_compute. reflexivity. Qed.

(** A seeding loop that meets a null returns two zero sums. *)
Lemma rsi_seed_loop_null (values : arr) (n k j : nat) (g l : num) :
  k <= j < k + n ->
  get values (j - 1) = None \/ get values j = None ->
  rsi_seed_loop values k n g l = (n0, n0).
Proof.
  revert k g l; induction n as [|n IH]; intros k g l Hj Hnull; [lia|].
  simpl rsi_seed_loop.
  destruct (get values (k - 1)) as [a|] eqn:Ea; [|reflexivity].
  destruct (get values k) as [b|] eqn:Eb; [|reflexivity].
  destruct (Nat.eq_dec j k) as [->|Hne].
  - destruct Hnull; congruence.
  - apply IH; [lia | assumption].
Qed.

(** With a null among the first [period + 1] closes (not at the last two),
    the seed is the degenerate pair (0, 0) and [rsi] reports 100. *)
Lemma rsi_null_in_seed_window (values : arr) (period j : nat) :
  0 < period -> period < length values ->
  j < period - 1 -> get values j = None ->
  get values (period - 1) <> None -> get values period <> None ->
  nth period (rsi values period) None = Some n100.
Proof.
  intros Hp Hlen Hj Hnull Hprev Hcur.
  destruct period as [|p]; [lia|].
  rewrite rsi_nth by lia. rewrite loop_nth by lia.
  replace (1 + p) with (S p) by lia.
  destruct (state_at (rsi_step values (S p)) 1 p (None, None)) as [g l].
  unfold rsi_step.
  destruct (get values (S p - 1)) as [prev|]; [|congruence].
  destruct (get values (S p)) as [cur|]; [|congruence].
  rewrite Nat.ltb_irrefl, Nat.eqb_refl.
  assert (Hseed : rsi_seed_loop values 1 (S p) n0 n0 = (n0, n0)).
  { apply rsi_seed_loop_null with (j := S j); [lia|].
    left. now replace (S j - 1) with j by lia. }
  rewrite Hseed. cbn [snd]. f_equal. unfold rsi_out, n0.
  rewrite ndiv_fin by lia.
  assert (E : (0 / nat2Qc (S p))%Qc = 0%Qc).
  { unfold Qcdiv. apply Qcmult_0_l. }
  rewrite E. unfold neqb.
  assert (Ez : Qceqb 0 0 = true) by (now apply Qceqb_true).
  now rewrite Ez.
Qed.

(** C2. On [one_null_closes] no fifteen contiguous valid closes end at
    index 14, yet [rsi] emits 100 there instead of null. *)
Theorem rsi_degenerate_seed :
  nth 14 (rsi one_null_closes 14) None = Some n100.
Proof. apply opt_same_eq. vm_compute. reflexivity. Qed.

(** ** Lists built by [mapi] and by mapping over an index range *)

Lemma mapi_from_length {A B : Type} (f : A -> nat -> B) (l : list A) (i : nat) :
  length (mapi_from f i l) = length l.
Proof. revert i; induction l as [|x l IH]; intros i; simpl; auto. Qed.

Lemma mapi_length {A B : Type} (f : A -> nat -> B) (l : list A) :
  length (mapi f l) = length l.
Proof. apply mapi_from_length. Qed.

Lemma mapi_from_nth {A B : Type} (f : A -> nat -> B) (l : list A)
  (i k : nat) (d : B) (a : A) :
  k < length l ->
  nth k (mapi_from f i l) d = f (nth k l a) (i + k).
Proof.
  revert i k; induction l as [|x l IH]; intros i k Hk; simpl in *; [lia|].
  destruct k as [|k].
  - now rewrite Nat.add_0_r.
  - rewrite IH by lia. f_equal. lia.
Qed.

Lemma mapi_nth {A B : Type} (f : A -> nat -> B) (l : list A)
  (k : nat) (d : B) (a : A) :
  k < length l -> nth k (mapi f l) d = f (nth k l a) k.
Proof. intros Hk. unfold mapi. now rewrite mapi_from_nth with (a := a). Qed.

Lemma nth_map_seq {B : Type} (f : nat -> B) (a n k : nat) (d : B) :
  k < n -> nth k (map f (seq a n)) d = f (a + k).
Proof.
  intros Hk. rewrite nth_indep with (d' := f 0).
  - rewrite map_nth. now rewrite seq_nth.
  - now rewrite length_map, length_seq.
Qed.

Lemma typical_length (high low close : arr) :
  length (typical high low close) = length close.
Proof. apply mapi_length. Qed.

(** ** Order facts on numbers *)

Lemma Qcltb_asym (x y : Qc) : Qcltb x y = true -> Qcltb y x = false.
Proof.
  intros H. destruct (Qcltb y x) eqn:E; [|reflexivity].
  apply Qcltb_true in H, E.
  exfalso. apply (Qclt_not_eq x x); [|reflexivity].
  now apply Qclt_trans with y.
Qed.

Lemma nlt_asym (a b : num) : nlt a b = true -> nlt b a = false.
Proof.
  destruct a, b; simpl; intros H; try discriminate; try reflexivity.
  now apply Qcltb_asym.
Qed.

(** ** MFI: the zero-denominator rule *)

Lemma mfi_flow_loop_valid (tp rmf : arr) (n a : nat) (pos neg : num) :
  (forall j, a <= j < a + n ->
     get tp j <> None /\ get tp (j - 1) <> None /\ get rmf j <> None) ->
  mfi_flow_loop tp rmf a n pos neg
  = (flow_sum rising tp rmf a n pos, flow_sum falling tp rmf a n neg).
Proof.
  revert a pos neg; induction n as [|n IH]; intros a pos neg Hwin;
    [reflexivity|].
  destruct (Hwin a ltac:(lia)) as (Ht & Hp & Hf).
  simpl. unfold rising, falling.
  destruct (get tp a) as [t|]; [|congruence].
  destruct (get tp (a - 1)) as [tPrev|]; [|congruence].
  destruct (get rmf a) as [f|]; [|congruence].
  simpl toNumber.
  destruct (ngt t tPrev) eqn:Eg.
  - unfold ngt in Eg. rewrite (nlt_asym _ _ Eg).
    apply IH. intros j Hj. apply Hwin. lia.
  - destruct (nlt t tPrev); apply IH; intros j Hj; apply Hwin; lia.
Qed.

Lemma mfi_nth (high low close volume : arr) (period i : nat) :
  0 < i -> i < length close ->
  nth i (mfi high low close volume period) None
  = mfi_at (typical high low close)
      (money_flow (typical high low close) volume) period i.
Proof.
  intros H0 Hi. unfold mfi.
  pose proof (typical_length high low close) as Hlen.
  destruct (typical high low close) as [|x tp] eqn:E.
  - simpl in Hlen. lia.
  - rewrite <- E. destruct i as [|i]; [lia|].
    cbn [nth]. rewrite nth_map_seq by (rewrite E; simpl in *; lia).
    reflexivity.
Qed.

(** C3 (amended). On a valid trailing window at an index [i >= 14]: when
    both money-flow sums are zero the MFI is null; when only the negative
    sum is zero it is 100; otherwise it is
    [100 - 100 / (1 + posSum / negSum)]. *)
Theorem mfi_zero_denominator (high low close volume : arr) (i : nat) :
  let tp := typical high low close in
  let rmf := money_flow tp volume in
  let pos := posSum tp rmf 14 i in
  let neg := negSum tp rmf 14 i in
  14 <= i -> i < length close ->
  mfi_window_valid tp rmf 14 i ->
  (neqb neg n0 = true -> neqb pos n0 = true ->
   nth i (mfi high low close volume 14) None = None)
  /\
  (neqb neg n0 = true -> neqb pos n0 = false ->
   nth i (mfi high low close volume 14) None = Some n100)
  /\
  (neqb neg n0 = false ->
   nth i (mfi high low close volume 14) None = Some (mfi_formula pos neg)).
Proof.
  intros tp rmf pos neg Hi Hlen Hwin.
  rewrite mfi_nth by lia. fold tp. fold rmf.
  unfold mfi_at.
  assert (E : (i <? 14) = false) by (apply Nat.ltb_ge; lia).
  rewrite E.
  rewrite mfi_flow_loop_valid.
  2:{ intros j Hj. apply Hwin. lia. }
  fold (posSum tp rmf 14 i). fold (negSum tp rmf 14 i).
  fold pos. fold neg.
  repeat split; intros Hn; try intros Hq; rewrite Hn; try rewrite Hq;
    try reflexivity.
  now rewrite andb_false_r.
Qed.

Lemma flat_window_valid :
  mfi_window_valid (typical flat_bars flat_bars flat_bars)
    (money_flow (typical flat_bars flat_bars flat_bars) flat_bars) 14 14.
Proof.
  intros j Hj.
  assert (Hc : j = 1 \/ j = 2 \/ j = 3 \/ j = 4 \/ j = 5 \/ j = 6 \/ j = 7
               \/ j = 8 \/ j = 9 \/ j = 10 \/ j = 11 \/ j = 12 \/ j = 13
               \/ j = 14) by lia.
  repeat (destruct Hc as [->|Hc]; [repeat split; discriminate|]).
  subst j. repeat split; discriminate.
Qed.

Lemma mfi_zero_denominator_witness :
  nth 14 (mfi flat_bars flat_bars flat_bars flat_bars 14) None = None.
Proof.
  apply (mfi_zero_denominator flat_bars flat_bars flat_bars flat_bars
           (i := 14)).
  - lia.
  - simpl; lia.
  - exact flat_window_valid.
  - vm_compute. reflexivity.
  - vm_compute. reflexivity.
Defined.

(** C3, counterexample. On a perfectly flat series the negative sum is
    zero and the MFI at index 14 is null, not 100. *)
Lemma mfi_flat_counterexample :
  ~ mfi_claim_as_stated flat_bars flat_bars flat_bars flat_bars 14.
Proof.
  intros H.
  destruct (H (le_n 14) ltac:(simpl; lia) flat_window_valid) as [H100 _].
  assert (Hz : neqb (negSum (typical flat_bars flat_bars flat_bars)
                       (money_flow (typical flat_bars flat_bars flat_bars)
                          flat_bars) 14 14) n0 = true)
    by (vm_compute; reflexivity).
  specialize (H100 Hz).
  assert (Hnull : nth 14 (mfi flat_bars flat_bars flat_bars flat_bars 14) None
                  = None) by (vm_compute; reflexivity).
  rewrite Hnull in H100. discriminate.
Qed.

(** ** CCI: the division guard *)

Lemma sma_length (values : arr) (period : nat) :
  length (sma values period) = length values.
Proof. apply loop_length. Qed.

Lemma get_nth (values : arr) (i : nat) :
  i < length values -> get values i = nth i values None.
Proof. intros Hi. unfold get. now apply nth_indep. Qed.

Lemma cci_nth (high low close : arr) (period i : nat) :
  i < length close ->
  nth i (cci high low close period) None
  = cci_at (typical high low close) (sma (typical high low close) period)
      period i.
Proof.
  intros Hi. unfold cci.
  rewrite nth_map_seq by (now rewrite typical_length).
  reflexivity.
Qed.

(** ** CCI in machine arithmetic *)

Section CciRounding.
Import PrimFloat.
#[local] Set Warnings "-inexact-float".

(** C5. The guard of [cci] tests [meanDev === 0], on a mean deviation
    taken from a rounded rolling mean, and then divides by
    [0.015 * meanDev].  On twenty flat bars at 10.1 the rolling mean is
    not 10.1, the mean deviation is not zero and the output is
    66.66666666666667 instead of null.  On bars whose mean deviation is a
    subnormal number the product [0.015 * meanDev] is zero and the output
    is Infinity.  On bars whose sum overflows the output is NaN.  All
    inputs are finite. *)
Theorem cci_guard_misses :
  nth 19 (Ieee.cci Ieee.flat_bars Ieee.flat_bars Ieee.flat_bars 20) None
  = Some 66.66666666666667%float
  /\ nth 19 (Ieee.cci Ieee.tiny_bars Ieee.tiny_bars Ieee.tiny_bars 20) None
     = Some infinity
  /\ nth 19 (Ieee.cci Ieee.huge_bars Ieee.huge_bars Ieee.huge_bars 20) None
     = Some nan.
Proof.
  split; [vm_compute; reflexivity|].
  split; vm_compute; reflexivity.
Qed.

End CciRounding.

(** ** RefreshJob: idempotence and frame *)

Lemma insert_sorted_map {A B : Type} (g : A -> B) (leb : A -> A -> bool)
  (leb' : B -> B -> bool) (x : A) (l : list A) :
  (forall a b, leb' (g a) (g b) = leb a b) ->
  insert_sorted leb' (g x) (map g l) = map g (insert_sorted leb x l).
Proof.
  intros H. induction l as [|y l IH]; simpl; [reflexivity|].
  rewrite H. destruct (leb x y); simpl; [reflexivity|]. now rewrite IH.
Qed.

Lemma order_by_map {A B : Type} (g : A -> B) (leb : A -> A -> bool)
  (leb' : B -> B -> bool) (l : list A) :
  (forall a b, leb' (g a) (g b) = leb a b) ->
  order_by leb' (map g l) = map g (order_by leb l).
Proof.
  intros H. induction l as [|x l IH]; [reflexivity|].
  unfold order_by in *. cbn [map fold_right]. rewrite IH.
  now apply insert_sorted_map.
Qed.

Lemma filter_map_commute {A : Type} (g : A -> A) (p : A -> bool)
  (l : list A) :
  (forall a, p (g a) = p a) ->
  filter p (map g l) = map g (filter p l).
Proof.
  intros H. induction l as [|x l IH]; simpl; [reflexivity|].
  rewrite H. destruct (p x); simpl; now rewrite IH.
Qed.

Section Refresh.
Variable sqrt : num -> num.

Lemma keeps_symbol (g : Db.Row -> Db.Row) (r : Db.Row) :
  keeps_bars g -> Db.symbol (g r) = Db.symbol r.
Proof.
  intros H. destruct (H r) as [E _].
  now apply (f_equal Bar.symbol) in E.
Qed.

Lemma keeps_tradeDate (g : Db.Row -> Db.Row) (r : Db.Row) :
  keeps_bars g -> Db.tradeDate (g r) = Db.tradeDate r.
Proof.
  intros H. destruct (H r) as [E _].
  now apply (f_equal Bar.tradeDate) in E.
Qed.

Lemma findMany_bars_keeps (g : Db.Row -> Db.Row) (db : table)
  (symbol : string) (fromDate tradeDate : date) :
  keeps_bars g ->
  findMany_bars (map g db) symbol fromDate tradeDate
  = findMany_bars db symbol fromDate tradeDate.
Proof.
  intros H. unfold findMany_bars.
  rewrite filter_map_commute.
  2:{ intros a. unfold in_lookback.
      now rewrite keeps_symbol, keeps_tradeDate. }
  rewrite order_by_map with (leb := by_tradeDate).
  2:{ intros a b. unfold by_tradeDate. now rewrite !keeps_tradeDate. }
  rewrite map_map. apply map_ext. intros a. apply H.
Qed.

Lemma getTradingIndicators_keeps (g : Db.Row -> Db.Row) (db : table)
  (symbol : string) (tradeDate fromDate : date) :
  keeps_bars g ->
  getTradingIndicators sqrt (map g db) symbol tradeDate fromDate
  = getTradingIndicators sqrt db symbol tradeDate fromDate.
Proof.
  intros H. unfold getTradingIndicators. now rewrite findMany_bars_keeps.
Qed.

Lemma symbols_on_keeps (g : Db.Row -> Db.Row) (db : table)
  (tradeDate : date) (marketType : string) :
  keeps_bars g ->
  symbols_on (map g db) tradeDate marketType
  = symbols_on db tradeDate marketType.
Proof.
  intros H. unfold symbols_on. rewrite filter_map_commute.
  - rewrite map_map. apply map_ext. intros a. now apply keeps_symbol.
  - intros a. unfold on_date, marketType_is.
    rewrite keeps_tradeDate by assumption.
    destruct (H a) as [_ E]. now rewrite E.
Qed.

Lemma refreshed_keeps (db0 : table) (tradeDate : date)
  (symbols : list string) :
  keeps_bars (refreshed sqrt db0 tradeDate symbols).
Proof.
  intros r. unfold refreshed.
  destruct ((Db.tradeDate r =? tradeDate)%Z
            && existsb (String.eqb (Db.symbol r)) symbols); split;
    reflexivity.
Qed.

Lemma refreshed_nil (db0 : table) (tradeDate : date) (r : Db.Row) :
  refreshed sqrt db0 tradeDate [] r = r.
Proof. unfold refreshed. simpl. now rewrite andb_false_r. Qed.

Lemma has_key_keeps (g : Db.Row -> Db.Row) (symbol : string)
  (tradeDate : date) (r : Db.Row) :
  keeps_bars g -> has_key symbol tradeDate (g r) = has_key symbol tradeDate r.
Proof.
  intros H. unfold has_key. now rewrite keeps_symbol, keeps_tradeDate.
Qed.

Lemma existsb_map_keeps (g : Db.Row -> Db.Row) (p : Db.Row -> bool)
  (db : table) :
  (forall a, p (g a) = p a) -> existsb p (map g db) = existsb p db.
Proof.
  intros H. induction db as [|x db IH]; simpl; [reflexivity|].
  now rewrite H, IH.
Qed.

(** One more symbol processed. *)
Lemma refreshed_snoc (db0 : table) (tradeDate : date)
  (done : list string) (symbol : string) (r : Db.Row) :
  (if has_key symbol tradeDate (refreshed sqrt db0 tradeDate done r)
   then write_indicators
          (getTradingIndicators sqrt db0 symbol tradeDate
             (tradeDate - LOOKBACK_DAYS)%Z)
          (refreshed sqrt db0 tradeDate done r)
   else refreshed sqrt db0 tradeDate done r)
  = refreshed sqrt db0 tradeDate (done ++ [symbol]) r.
Proof.
  rewrite has_key_keeps by apply refreshed_keeps.
  unfold has_key, refreshed. rewrite existsb_app. simpl existsb.
  rewrite orb_false_r.
  destruct (String.eqb_spec (Db.symbol r) symbol) as [Es|Es];
    destruct (Db.tradeDate r =? tradeDate)%Z; simpl.
  - rewrite orb_true_r, Es.
    now destruct (existsb (String.eqb symbol) done).
  - reflexivity.
  - now rewrite orb_false_r.
  - reflexivity.
Qed.

Lemma update_loop_spec (symbols done : list string) (db0 : table)
  (tradeDate : date) (updated : nat) :
  (forall s, In s symbols -> existsb (has_key s tradeDate) db0 = true) ->
  update_loop sqrt symbols tradeDate (tradeDate - LOOKBACK_DAYS)%Z
    (map (refreshed sqrt db0 tradeDate done) db0) updated
  = Some (map (refreshed sqrt db0 tradeDate (done ++ symbols)) db0,
          updated + length symbols).
Proof.
  revert done updated.
  induction symbols as [|s rest IH]; intros done updated Hkey.
  - simpl. now rewrite app_nil_r, Nat.add_0_r.
  - simpl update_loop.
    rewrite getTradingIndicators_keeps by apply refreshed_keeps.
    unfold prisma_update.
    rewrite existsb_map_keeps
      by (intros a; apply has_key_keeps, refreshed_keeps).
    rewrite Hkey by (now left).
    rewrite map_map.
    rewrite (map_ext _ _ (refreshed_snoc db0 tradeDate done s)).
    rewrite IH by (intros s' Hs'; apply Hkey; now right).
    rewrite <- app_assoc. simpl. do 2 f_equal. lia.
Qed.

(** A run always completes; it returns the table in which the rows of the
    target date and of the enumerated symbols carry the indicators
    computed from the original table's bars, and the number of symbols. *)
Lemma update_spec (db : table) (tradeDate : date) (marketType : string) :
  updateTradingDayIndicators sqrt db tradeDate marketType
  = Some (map (refreshed sqrt db tradeDate
                 (symbols_on db tradeDate marketType)) db,
          length (symbols_on db tradeDate marketType)).
Proof.
  unfold updateTradingDayIndicators.
  fold (symbols_on db tradeDate marketType).
  rewrite <- (map_id db) at 2.
  rewrite (map_ext _ _ (fun r => eq_sym (refreshed_nil db tradeDate r))).
  rewrite update_loop_spec; [reflexivity|].
  intros s Hs. unfold symbols_on in Hs.
  apply in_map_iff in Hs as (r & Hr & Hin).
  apply filter_In in Hin as [Hin Hd].
  apply existsb_exists. exists r. split; [assumption|].
  unfold has_key. rewrite Hr, String.eqb_refl.
  unfold on_date in Hd. apply andb_true_iff in Hd as [Hd _].
  now rewrite Hd.
Qed.



Lemma write_same_ingested (ind : Ind.t) (r : Db.Row) :
  same_ingested r (write_indicators ind r).
Proof. unfold same_ingested. repeat split. Qed.

Lemma same_ingested_refl (r : Db.Row) : same_ingested r r.
Proof. unfold same_ingested. repeat split. Qed.

(** C9. Price bars are read-only: a run completes, and in its result
    every row keeps all its ingested columns, and every row of another
    date is unchanged altogether. *)
Theorem refresh_frame (db : table) (tradeDate : date) (marketType : string) :
  exists (db1 : table) (updated : nat),
    updateTradingDayIndicators sqrt db tradeDate marketType
    = Some (db1, updated)
    /\ Forall2 (fun r r1 =>
                  same_ingested r r1
                  /\ (Db.tradeDate r <> tradeDate -> r1 = r)
                  /\ (r1 = r \/ exists ind, r1 = write_indicators ind r))
         db db1.
Proof.
  eexists. eexists. split; [apply update_spec|].
  induction db as [|r db' IH] at 1 4; simpl; constructor; [|exact IH].
  unfold refreshed.
  destruct (Db.tradeDate r =? tradeDate)%Z eqn:Ed; simpl.
  - destruct (existsb (String.eqb (Db.symbol r))
                (symbols_on db tradeDate marketType)).
    + split; [apply write_same_ingested|]. split.
      * intros Hne. apply Z.eqb_eq in Ed. contradiction.
      * right. eexists. reflexivity.
    + split; [apply same_ingested_refl|]. split; auto.
  - split; [apply same_ingested_refl|]. split; auto.
Qed.

End Refresh.

(** ** Facts about [order_by] *)

Lemma insert_sorted_In {A : Type} (leb : A -> A -> bool) (x a : A)
  (l : list A) :
  In a (insert_sorted leb x l) <-> a = x \/ In a l.
Proof.
  induction l as [|y l IH]; simpl.
  - intuition.
  - destruct (leb x y); simpl; [intuition|]. rewrite IH. intuition.
Qed.

Lemma order_by_In {A : Type} (leb : A -> A -> bool) (a : A) (l : list A) :
  In a (order_by leb l) <-> In a l.
Proof.
  induction l as [|x l IH]; simpl; [reflexivity|].
  unfold order_by in *. rewrite insert_sorted_In, IH. intuition.
Qed.

Lemma insert_sorted_Sorted {A : Type} (leb : A -> A -> bool) (x : A)
  (l : list A) :
  (forall a b, leb a b = false -> leb b a = true) ->
  Sorted (fun a b => leb a b = true) l ->
  Sorted (fun a b => leb a b = true) (insert_sorted leb x l).
Proof.
  intros Htot Hs. induction Hs as [|y l Hs IH Hhd]; simpl.
  - repeat constructor.
  - destruct (leb x y) eqn:E.
    + constructor; [now constructor | now constructor].
    + constructor; [exact IH|].
      destruct l as [|z l]; simpl.
      * constructor. now apply Htot.
      * destruct (leb x z); constructor.
        -- now apply Htot.
        -- now inversion Hhd.
Qed.

Lemma order_by_Sorted {A : Type} (leb : A -> A -> bool) (l : list A) :
  (forall a b, leb a b = false -> leb b a = true) ->
  Sorted (fun a b => leb a b = true) (order_by leb l).
Proof.
  intros Htot. induction l as [|x l IH]; simpl; [constructor|].
  now apply insert_sorted_Sorted.
Qed.

(** ** Facts about the SQL ordering *)

Lemma sql_compare_antisym (a b : num) :
  sql_compare a b = CompOpp (sql_compare b a).
Proof.
  destruct a, b; simpl; try reflexivity.
  unfold Qccompare. now rewrite <- Qcompare_antisym.
Qed.




(** ** Uptrend screen: membership and order *)

Lemma marketType_is_true (marketType : string) (r : Db.Row) :
  marketType_is marketType r = true <-> Db.marketType r = Some marketType.
Proof.
  unfold marketType_is. destruct (Db.marketType r) as [m|].
  - rewrite String.eqb_eq. split; congruence.
  - split; discriminate.
Qed.






(** ** Facts used by the Market Spirit score *)

Lemma Qc_div_this (x y : Qc) : (this (x / y)%Qc == this x / this y)%Q.
Proof.
  unfold Qcdiv, Qcmult, Qcinv, Q2Qc. cbn [this].
  rewrite !Qred_correct. reflexivity.
Qed.

Lemma half_lt_ratio (c t : nat) :
  0 < t ->
  Qcltb (Q2Qc (1 # 2)) (nat2Qc c / nat2Qc t)%Qc = (t <? 2 * c).
Proof.
  intros Ht.
  assert (Hq : (this (nat2Qc c / nat2Qc t)%Qc
                == inject_Z (Z.of_nat c) / inject_Z (Z.of_nat t))%Q).
  { rewrite Qc_div_this. unfold nat2Qc, Q2Qc. cbn [this].
    rewrite !Qred_correct. reflexivity. }
  assert (Hpos : (0 < inject_Z (Z.of_nat t))%Q).
  { unfold Qlt. simpl. lia. }
  destruct (t <? 2 * c) eqn:E.
  - apply Nat.ltb_lt in E. apply Qcltb_true. unfold Qclt.
    rewrite Hq. unfold Q2Qc. cbn [this]. rewrite Qred_correct.
    apply Qlt_shift_div_l; [assumption|].
    unfold Qlt, Qmult, inject_Z. cbn [Qnum Qden]. lia.
  - apply Nat.ltb_ge in E.
    destruct (Qcltb (Q2Qc (1 # 2)) (nat2Qc c / nat2Qc t)%Qc) eqn:El;
      [|reflexivity].
    exfalso. apply Qcltb_true in El. unfold Qclt in El.
    rewrite Hq in El. unfold Q2Qc in El. cbn [this] in El.
    rewrite Qred_correct in El.
    apply (Qlt_not_le _ _ El).
    apply Qle_shift_div_r; [assumption|].
    unfold Qle, Qmult, inject_Z. cbn [Qnum Qden]. lia.
Qed.

Lemma over_half_majority (p : Db.Row -> bool) (stocks : list Db.Row) :
  stocks <> [] -> over_half p stocks = majority p stocks.
Proof.
  intros Hne. unfold over_half, majority.
  assert (Ht : 0 < length stocks)
    by (destruct stocks; [congruence | simpl; lia]).
  unfold nat2num at 1. rewrite ndiv_fin by assumption.
  unfold ngt, half, nlt. now apply half_lt_ratio.
Qed.

Lemma count_rows_ext (p q : Db.Row -> bool) (rows : list Db.Row) :
  (forall r, p r = q r) -> count_rows p rows = count_rows q rows.
Proof.
  intros H. unfold count_rows. now rewrite (filter_ext _ _ H).
Qed.

Lemma majority_ext (p q : Db.Row -> bool) (rows : list Db.Row) :
  (forall r, p r = q r) -> majority p rows = majority q rows.
Proof.
  intros H. unfold majority. now rewrite (count_rows_ext _ _ rows H).
Qed.

Lemma js_ez_pos_above (s : Db.Row) : js_ez_pos s = above Db.ez n0 s.
Proof. unfold js_ez_pos, above. now destruct (Db.ez s). Qed.

Lemma js_hist_pos_above (s : Db.Row) : js_hist_pos s = above Db.macdHist n0 s.
Proof. unfold js_hist_pos, above. now destruct (Db.macdHist s). Qed.

Lemma js_cci_pos_above (s : Db.Row) : js_cci_pos s = above Db.cci20 n0 s.
Proof. unfold js_cci_pos, above. now destruct (Db.cci20 s). Qed.

Lemma js_rsi_bull_above (s : Db.Row) :
  js_rsi_bull s = above Db.rsi14 (Z2num 50) s.
Proof. unfold js_rsi_bull, above. now destruct (Db.rsi14 s). Qed.

Lemma js_advancing_above (s : Db.Row) :
  js_advancing s = above Db.change n0 s.
Proof. unfold js_advancing, above. now destruct (Db.change s). Qed.

Lemma js_declining_below (s : Db.Row) :
  js_declining s
  = match Db.change s with Some c => nlt c n0 | None => false end.
Proof. unfold js_declining. now destruct (Db.change s). Qed.

Lemma fold_or_zero (l : list Z) (acc : Z) :
  fold_left (fun sum row => (sum + or_zero row)%Z) l acc
  = fold_left Z.add l acc.
Proof.
  revert acc; induction l as [|x l IH]; intros acc; simpl; [reflexivity|].
  rewrite IH. f_equal. unfold or_zero.
  destruct (x =? 0)%Z eqn:E; [apply Z.eqb_eq in E; lia | reflexivity].
Qed.

Lemma bump_point (b : bool) (n : nat) : bump b n = n + point b.
Proof. destruct b; simpl; lia. Qed.

Lemma point_le_1 (b : bool) : point b <= 1.
Proof. destruct b; simpl; lia. Qed.

Lemma fold_left_add (l : list Z) (acc : Z) :
  fold_left Z.add l acc = (acc + fold_right Z.add 0 l)%Z.
Proof.
  revert acc; induction l as [|x l IH]; intros acc; simpl; [lia|].
  rewrite IH. lia.
Qed.

Lemma sum_perm (l1 l2 : list Z) :
  Permutation l1 l2 -> fold_right Z.add 0%Z l1 = fold_right Z.add 0%Z l2.
Proof.
  intros P. induction P as [|x l1 l2 P IH|x y l|l1 l2 l3 P1 IH1 P2 IH2];
    simpl; lia.
Qed.

Lemma insert_sorted_perm {A : Type} (leb : A -> A -> bool) (x : A)
  (l : list A) :
  Permutation (insert_sorted leb x l) (x :: l).
Proof.
  induction l as [|y l IH]; simpl; [apply Permutation_refl|].
  destruct (leb x y); [apply Permutation_refl|].
  eapply Permutation_trans; [apply perm_skip, IH | apply perm_swap].
Qed.

(** [ORDER BY] only rearranges. *)
Lemma order_by_perm {A : Type} (leb : A -> A -> bool) (l : list A) :
  Permutation (order_by leb l) l.
Proof.
  induction l as [|x l IH]; simpl; [constructor|].
  eapply Permutation_trans; [apply insert_sorted_perm|].
  now apply perm_skip.
Qed.

(** The rows of one date among the rows of the window are the rows of
    that date. *)
Lemma window_day (db : table) (marketType : string) (fromDate tradeDate d : date) :
  (fromDate <= d <= tradeDate)%Z ->
  filter (fun r => (Db.tradeDate r =? d)%Z)
    (filter (fun r =>
       marketType_is marketType r
       && (fromDate <=? Db.tradeDate r)%Z
       && (Db.tradeDate r <=? tradeDate)%Z) db)
  = filter (on_date d marketType) db.
Proof.
  intros Hd. induction db as [|r db IH]; [reflexivity|].
  cbn [filter]. unfold on_date at 1.
  destruct (Db.tradeDate r =? d)%Z eqn:E.
  - apply Z.eqb_eq in E.
    assert (E1 : (fromDate <=? Db.tradeDate r)%Z = true)
      by (apply Z.leb_le; lia).
    assert (E2 : (Db.tradeDate r <=? tradeDate)%Z = true)
      by (apply Z.leb_le; lia).
    rewrite E1, E2, !andb_true_r. cbn [andb].
    destruct (marketType_is marketType r); cbn [filter].
    + apply Z.eqb_eq in E. rewrite E. now rewrite IH.
    + exact IH.
  - cbn [andb].
    destruct (marketType_is marketType r
              && (fromDate <=? Db.tradeDate r)%Z
              && (Db.tradeDate r <=? tradeDate)%Z); cbn [filter];
      [rewrite E|]; exact IH.
Qed.

(** What the history query adds up is the breadth line. *)
Lemma adv_history_line (db : table) (marketType : string)
  (tradeDate : date) :
  fold_left Z.add (advHistory db marketType (tradeDate - 90)%Z tradeDate) 0%Z
  = breadth_line db marketType tradeDate.
Proof.
  rewrite fold_left_add, Z.add_0_l.
  unfold advHistory, breadth_line, trailing_dates, group_keys.
  set (rows := filter _ db).
  rewrite (sum_perm (Permutation_map _ (order_by_perm Z.leb _))).
  f_equal. apply map_ext_in. intros d Hd.
  apply nodup_In, in_map_iff in Hd as (r & <- & Hr).
  apply filter_In in Hr as [_ Hw].
  apply andb_true_iff in Hw as [Hw Hhi].
  apply andb_true_iff in Hw as [_ Hlo].
  apply Z.leb_le in Hlo. apply Z.leb_le in Hhi.
  unfold rows. rewrite window_day by lia.
  reflexivity.
Qed.

(** On a day with no NaN change, the database's count is the breadth. *)
Lemma day_breadth_breadth (day : list Db.Row) :
  (forall r, In r day -> Db.change r <> Some NaN) ->
  day_breadth day = breadth day.
Proof.
  intros H. unfold day_breadth, breadth, count_rows.
  rewrite (filter_ext_in advances (above Db.change n0) day).
  - rewrite (filter_ext_in declines
               (fun r => match Db.change r with
                         | Some c => nlt c n0
                         | None => false
                         end) day); [reflexivity|].
    intros r Hr. unfold declines.
    destruct (Db.change r) as [[q| | |]|]; try reflexivity.
    unfold sql_lt, sql_gt, n0. cbn [sql_compare nlt]. unfold Qcltb.
    unfold Qccompare.
    rewrite <- (Qcompare_antisym (this q) (this (Q2Qc 0))).
    now destruct (Qcompare (this q) (this (Q2Qc 0))).
  - intros r Hr. specialize (H r Hr). unfold advances, above.
    destruct (Db.change r) as [[q| | |]|]; try reflexivity;
      [|congruence].
    unfold sql_gt, ngt, n0. cbn [sql_compare nlt]. unfold Qcltb.
    unfold Qccompare.
    rewrite <- (Qcompare_antisym (this q) (this (Q2Qc 0))).
    now destruct (Qcompare (this q) (this (Q2Qc 0))).
Qed.

(** C7. Market Spirit: on an empty universe score, adv and adLine are
    null; otherwise adv is the day's breadth, adLine the breadth line (the
    day breadths of the segment added up over the trade dates of the
    trailing 90 calendar days), and the score is the class of the number
    of conditions met, out of six: Defense for 0-2, Selective for 3-4,
    Attack for 5-6. *)
Theorem market_spirit_score (db : table) (marketType : string)
  (tradeDate : date) :
  let stocks := filter (on_date tradeDate marketType) db in
  let points := spirit_points db marketType tradeDate in
  (stocks = [] ->
   fetchMarketSpirit db marketType (Some tradeDate)
   = Some (Spirit.mkResponse tradeDate marketType None None None))
  /\
  (stocks <> [] ->
   exists score,
     fetchMarketSpirit db marketType (Some tradeDate)
     = Some (Spirit.mkResponse tradeDate marketType (Some score)
               (Some (breadth stocks))
               (Some (breadth_line db marketType tradeDate)))
     /\ points <= 6
     /\ (points <= 2 -> score = Defense)
     /\ (3 <= points <= 4 -> score = Selective)
     /\ (5 <= points -> score = Attack)).
Proof.
  intros stocks points. split.
  - intros Hempty. unfold fetchMarketSpirit, resolve_date. cbv zeta.
    fold stocks. now rewrite Hempty.
  - intros Hne. unfold fetchMarketSpirit, resolve_date. cbv zeta.
    fold stocks.
    assert (Ht : (length stocks =? 0) = false).
    { apply Nat.eqb_neq. destruct stocks; [congruence | simpl; lia]. }
    rewrite Ht.
    rewrite fold_or_zero, adv_history_line.
    rewrite (count_rows_ext _ _ stocks js_advancing_above).
    rewrite (count_rows_ext _ _ stocks js_declining_below).
    fold (breadth stocks).
    rewrite !over_half_majority by assumption.
    rewrite (majority_ext _ _ stocks js_ez_pos_above).
    rewrite (majority_ext _ _ stocks js_rsi_bull_above).
    rewrite (majority_ext _ _ stocks js_hist_pos_above).
    rewrite (majority_ext _ _ stocks js_cci_pos_above).
    rewrite !bump_point.
    assert (Hp : 0 + point (0 <? breadth stocks)%Z
                 + point (0 <? breadth_line db marketType tradeDate)%Z
                 + point (majority (above Db.ez n0) stocks)
                 + point (majority (above Db.rsi14 (Z2num 50)) stocks)
                 + point (majority (above Db.macdHist n0) stocks)
                 + point (majority (above Db.cci20 n0) stocks)
                 = points) by reflexivity.
    rewrite Hp.
    assert (H6 : points <= 6).
    { unfold points, spirit_points. fold stocks.
      pose proof (point_le_1 (0 <? breadth stocks)%Z).
      pose proof (point_le_1 (0 <? breadth_line db marketType tradeDate)%Z).
      pose proof (point_le_1 (majority (above Db.ez n0) stocks)).
      pose proof (point_le_1 (majority (above Db.rsi14 (Z2num 50)) stocks)).
      pose proof (point_le_1 (majority (above Db.macdHist n0) stocks)).
      pose proof (point_le_1 (majority (above Db.cci20 n0) stocks)).
      lia. }
    eexists. split; [reflexivity|]. split; [exact H6|].
    destruct (points <=? 2) eqn:E2.
    + apply Nat.leb_le in E2. repeat split; intros; try reflexivity; lia.
    + apply Nat.leb_gt in E2. destruct (points <=? 4) eqn:E4.
      * apply Nat.leb_le in E4. repeat split; intros; try reflexivity; lia.
      * apply Nat.leb_gt in E4. repeat split; intros; try reflexivity; lia.
Qed.

(** ** Aggregated bars: change of a bucket *)




Lemma In_mapi_from {A B : Type} (f : A -> nat -> B) (l : list A) (k : nat)
  (b : B) :
  In b (mapi_from f k l) -> exists a i, In a l /\ k <= i /\ b = f a i.
Proof.
  revert k; induction l as [|x l IH]; intros k H; simpl in H; [contradiction|].
  destruct H as [<-|H].
  - exists x, k. repeat split; [now left | lia].
  - apply IH in H as (a & i & Ha & Hi & Hb).
    exists a, i. repeat split; [now right | lia | assumption].
Qed.





Lemma group_keys_In (keys : list Z) (k : Z) :
  In k (group_keys keys) <-> In k keys.
Proof. unfold group_keys. now rewrite order_by_In, nodup_In. Qed.

(** Every bucket is non-empty and made of keyed rows. *)
Lemma buckets_spec (keyed : list (Z * Db.Row)) (bucket : list Db.Row) :
  In bucket (buckets keyed) ->
  bucket <> [] /\ forall r, In r bucket -> In r (map snd keyed).
Proof.
  unfold buckets. intros H.
  apply in_map_iff in H as (k & <- & Hk).
  rewrite group_keys_In in Hk. split.
  - apply in_map_iff in Hk as (p & Hp & Hin).
    assert (Hf : In p (filter (fun p => (fst p =? k)%Z) keyed)).
    { apply filter_In. split; [assumption|]. now apply Z.eqb_eq. }
    intros E. apply (in_map snd) in Hf. rewrite E in Hf. contradiction.
  - intros r Hr. apply in_map_iff in Hr as (p & <- & Hp).
    apply filter_In in Hp as [Hp _]. now apply in_map.
Qed.


Section CandleFacts.
Variable date_trunc : TruncUnit -> date -> date.
Variable yearBefore : date -> date.



End CandleFacts.


(** * Part III: further properties of the code *)

(** ** EMA: seeding and re-seeding *)

Lemma ema_seed_loop_some (values : arr) (n a : nat) (acc : num) :
  (forall j, a <= j < a + n -> get values j <> None) ->
  exists s, ema_seed_loop values a n acc = Some s.
Proof.
  revert a acc; induction n as [|n IH]; intros a acc H; simpl.
  - now exists acc.
  - destruct (get values a) as [w|] eqn:E.
    + apply IH. intros j Hj. apply H. lia.
    + exfalso. apply (H a); [lia | assumption].
Qed.

Lemma ema_seed_loop_window (values : arr) (n a : nat) (acc s : num) :
  ema_seed_loop values a n acc = Some s ->
  forall j, a <= j < a + n -> get values j <> None.
Proof.
  revert a acc; induction n as [|n IH]; intros a acc H j Hj; [lia|].
  simpl in H. destruct (get values a) as [w|] eqn:E; [|discriminate].
  destruct (Nat.eq_dec j a) as [->|Hne].
  - rewrite E. discriminate.
  - apply (IH _ _ H). lia.
Qed.

Lemma ema_inv_step (values : arr) (period i : nat) (prev : option num) :
  ema_inv values period i prev ->
  ema_inv values period (S i) (fst (ema_step values period i prev)).
Proof.
  intros Hinv. unfold ema_step.
  destruct (get values i) as [v|] eqn:Ev; [|intros H; now elim H].
  destruct (isFinite v); cbn [negb]; [|intros H; now elim H].
  destruct prev as [p|].
  - cbn [fst]. intros _.
    destruct Hinv as [Hp Hwin]; [discriminate|].
    split; [lia|]. intros j Hj.
    destruct (Nat.eq_dec j i) as [->|Hne].
    + rewrite Ev. discriminate.
    + apply Hwin. lia.
  - destruct (period <=? i + 1) eqn:Ep; [|intros H; now elim H].
    apply Nat.leb_le in Ep.
    destruct (ema_seed_loop values (i + 1 - period) period n0) as [sum|] eqn:Es;
      [|intros H; now elim H].
    cbn [fst]. intros _. split; [lia|]. intros j Hj.
    apply (@ema_seed_loop_window _ _ _ _ _ Es). lia.
Qed.

Lemma ema_state_inv (values : arr) (period i : nat) :
  ema_inv values period i (state_at (ema_step values period) 0 i None).
Proof.
  induction i as [|i IH].
  - simpl. intros H. now elim H.
  - simpl state_at. now apply ema_inv_step.
Qed.

Lemma ema_nth (values : arr) (period i : nat) :
  i < length values ->
  nth i (ema values period) None
  = snd (ema_step values period i
           (state_at (ema_step values period) 0 i None)).
Proof. intros Hi. unfold ema. now rewrite loop_nth. Qed.

Lemma ema_step_fst_snd (values : arr) (period i : nat) (prev : option num) :
  fst (ema_step values period i prev) = snd (ema_step values period i prev).
Proof.
  unfold ema_step.
  destruct (get values i) as [v|]; [|reflexivity].
  destruct (isFinite v); cbn [negb]; [|reflexivity].
  destruct prev as [p|]; [reflexivity|].
  destruct (period <=? i + 1); [|reflexivity].
  now destruct (ema_seed_loop values (i + 1 - period) period n0).
Qed.

(** Whenever [ema] emits a value, the window fits and holds no null. *)
Lemma ema_some_window (values : arr) (period i : nat) :
  i < length values ->
  nth i (ema values period) None <> None ->
  period <= i + 1
  /\ (forall j, i + 1 - period <= j <= i -> get values j <> None).
Proof.
  intros Hi Hne. rewrite ema_nth in Hne by assumption.
  rewrite <- ema_step_fst_snd in Hne.
  destruct (ema_inv_step (ema_state_inv values period i) Hne)
    as [Hfit Hwin].
  split; [lia|]. intros j Hj. apply Hwin. lia.
Qed.

(** X1. [ema] emits a value at index [i] exactly when the entry at [i] is
    finite and the [period] entries ending at [i] are all non-null: after
    a gap it seeds again as soon as [period] entries have accumulated. *)
Theorem ema_emits_iff (values : arr) (period i : nat) :
  i < length values ->
  (nth i (ema values period) None <> None <->
   valid (get values i) = true /\ period <= i + 1 /\
   forall j, i + 1 - period <= j <= i -> get values j <> None).
Proof.
  intros Hi. rewrite ema_nth by assumption.
  pose proof (ema_state_inv values period i) as Hinv.
  destruct (state_at (ema_step values period) 0 i None) as [p|].
  - destruct Hinv as [Hp Hwin]; [discriminate|].
    unfold ema_step.
    destruct (get values i) as [v|] eqn:Ev.
    + destruct v as [q| | |]; cbn [isFinite negb snd valid]; split;
        try (intros H; now elim H); try (intros [H _]; discriminate).
      intros _. split; [reflexivity|]. split; [lia|]. intros j Hj.
      destruct (Nat.eq_dec j i) as [->|Hne].
      * rewrite Ev. discriminate.
      * apply Hwin. lia.
    + cbn [snd valid]. split; [intros H; now elim H|].
      intros [H _]. discriminate.
  - unfold ema_step.
    destruct (get values i) as [v|] eqn:Ev.
    + destruct v as [q| | |]; cbn [isFinite negb snd valid]; split;
        try (intros H; now elim H); try (intros [H _]; discriminate).
      * destruct (period <=? i + 1) eqn:Ep; [|intros H; now elim H].
        apply Nat.leb_le in Ep.
        destruct (ema_seed_loop values (i + 1 - period) period n0)
          as [sum|] eqn:Es; [|intros H; now elim H].
        intros _. split; [reflexivity|]. split; [assumption|].
        intros j Hj. apply (@ema_seed_loop_window _ _ _ _ _ Es). lia.
      * intros (_ & Hp & Hwin).
        apply Nat.leb_le in Hp. rewrite Hp.
        destruct (@ema_seed_loop_some values period (i + 1 - period) n0)
          as [s Hs].
        { intros j Hj. apply Hwin. apply Nat.leb_le in Hp. lia. }
        rewrite Hs. discriminate.
    + cbn [snd valid]. split; [intros H; now elim H|].
      intros [H _]. discriminate.
Qed.

(** Closes 1 to 3, a null, then closes 5 to 7. *)
Lemma ema_emits_iff_witness :
  let values := [Some (Z2num 1); Some (Z2num 2); Some (Z2num 3); None;
                 Some (Z2num 5); Some (Z2num 6); Some (Z2num 7)] in
  nth 6 (ema values 3) None <> None.
Proof.
  intros values.
  apply (ema_emits_iff values 3 (i := 6)).
  - simpl; lia.
  - split; [reflexivity|]. split; [lia|].
    intros j Hj. assert (Hc : j = 4 \/ j = 5 \/ j = 6) by lia.
    destruct Hc as [-> | [-> | ->]]; discriminate.
Defined.

Lemma nat2Qc_S (n : nat) : nat2Qc (S n) = (nat2Qc n + 1)%Qc.
Proof.
  apply Qc_is_canon. unfold nat2Qc, Qcplus, Q2Qc. cbn [this].
  rewrite !Qred_correct. rewrite Nat2Z.inj_succ. unfold Z.succ.
  rewrite inject_Z_plus. reflexivity.
Qed.

Lemma nat2Qc_0 : nat2Qc 0 = 0%Qc.
Proof. apply Qc_is_canon. reflexivity. Qed.

Lemma nat2Qc_1 : nat2Qc 1 = 1%Qc.
Proof. apply Qc_is_canon. reflexivity. Qed.

(** ** Order facts on rationals *)

Lemma this_plus (a b : Qc) : (this (a + b)%Qc == this a + this b)%Q.
Proof. unfold Qcplus, Q2Qc. cbn [this]. apply Qred_correct. Qed.

Lemma this_opp (a : Qc) : (this (- a)%Qc == - this a)%Q.
Proof. unfold Qcopp, Q2Qc. cbn [this]. apply Qred_correct. Qed.

Lemma this_minus (a b : Qc) : (this (a - b)%Qc == this a - this b)%Q.
Proof. unfold Qcminus. rewrite this_plus, this_opp. reflexivity. Qed.

Lemma this_mult (a b : Qc) : (this (a * b)%Qc == this a * this b)%Q.
Proof. unfold Qcmult, Q2Qc. cbn [this]. apply Qred_correct. Qed.

Lemma this_nat2Qc (n : nat) : (this (nat2Qc n) == inject_Z (Z.of_nat n))%Q.
Proof. unfold nat2Qc, Q2Qc. cbn [this]. apply Qred_correct. Qed.

Lemma this_0 : (this 0%Qc == 0)%Q.
Proof. reflexivity. Qed.

Lemma Q_div_nonneg (a b : Q) : (0 <= a -> 0 < b -> 0 <= a / b)%Q.
Proof.
  intros Ha Hb. apply Qle_shift_div_l; [assumption|].
  now rewrite Qmult_0_l.
Qed.

Lemma Qc_nonzero_pos (a : Qc) : (0 <= a)%Qc -> a <> 0%Qc -> (0 < a)%Qc.
Proof.
  intros H Hne. destruct (Qcle_lt_or_eq _ _ H) as [Hl|He]; [assumption|].
  congruence.
Qed.

Lemma Qc_div_nonneg (a b : Qc) :
  (0 <= a)%Qc -> (0 < b)%Qc -> (0 <= a / b)%Qc.
Proof.
  unfold Qcle, Qclt. intros Ha Hb. rewrite Qc_div_this.
  now apply Q_div_nonneg.
Qed.

Lemma Qc_plus_nonneg (a b : Qc) :
  (0 <= a)%Qc -> (0 <= b)%Qc -> (0 <= a + b)%Qc.
Proof.
  unfold Qcle. intros Ha Hb. rewrite this_plus.
  change (this 0%Qc) with 0%Q in *. lra.
Qed.

Lemma Qc_mult_nonneg (a b : Qc) :
  (0 <= a)%Qc -> (0 <= b)%Qc -> (0 <= a * b)%Qc.
Proof.
  unfold Qcle. intros Ha Hb. rewrite this_mult.
  now apply Qmult_le_0_compat.
Qed.

Lemma nat2Qc_nonneg (n : nat) : (0 <= nat2Qc n)%Qc.
Proof.
  unfold Qcle. rewrite this_nat2Qc. change (this 0%Qc) with 0%Q.
  unfold Qle. simpl. lia.
Qed.

Lemma nat2Qc_pos (n : nat) : 0 < n -> (0 < nat2Qc n)%Qc.
Proof.
  intros Hn. apply Qc_nonzero_pos; [apply nat2Qc_nonneg|].
  now apply nat2Qc_nonzero.
Qed.

Lemma Qcltb_false_le (x y : Qc) : Qcltb x y = false -> (y <= x)%Qc.
Proof.
  intros H. apply Qcnot_lt_le. intros Hl.
  apply Qcltb_true in Hl. congruence.
Qed.

(** ** RSI: gains *)

Lemma gain_nonneg (x : Qc) :
  exists g, (if ngt (Fin x) n0 then Fin x else n0) = Fin g /\ (0 <= g)%Qc.
Proof.
  unfold ngt, n0. cbn [nlt].
  destruct (Qcltb 0 x) eqn:E.
  - exists x. split; [reflexivity|].
    apply Qclt_le_weak. now apply Qcltb_true.
  - exists 0%Qc. split; [reflexivity | apply Qcle_refl].
Qed.

(** ** Standard deviation: window and value *)

Lemma stddev_inv_reset (values : arr) (period i : nat) :
  valid (get values i) = false -> stddev_inv values period (S i) [].
Proof.
  intros Hv. exists 0. split; [lia|]. split; [lia|]. split; [reflexivity|].
  split; [intros j Hj; lia|]. intros _ _.
  now replace (S i - 0 - 1) with i by lia.
Qed.

Lemma stddev_window_push (values : arr) (i len : nat) (q : Qc) :
  len <= i -> get values i = Some (Fin q) ->
  map (fun j => Fin (qat values j)) (seq (i - len) len) ++ [Fin q]
  = map (fun j => Fin (qat values j)) (seq (S i - S len) (S len)).
Proof.
  intros Hl Ev. replace (S i - S len) with (i - len) by lia.
  rewrite seq_S, map_app. cbn [map].
  replace (i - len + len) with i by lia.
  now rewrite (qat_fin _ _ Ev).
Qed.

Section StddevFacts.
Variable sqrt : num -> num.

Lemma stddev_inv_step (values : arr) (period i : nat) (window : list num) :
  stddev_inv values period i window ->
  stddev_inv values period (S i)
    (fst (stddev_step sqrt values period i window)).
Proof.
  intros (len & Hlp & Hli & Hw & Hval & Hrun). unfold stddev_step.
  destruct (get values i) as [v|] eqn:Ev.
  2:{ apply stddev_inv_reset. now rewrite Ev. }
  destruct v as [q| | |]; cbn [isFinite negb].
  2,3,4: apply stddev_inv_reset; now rewrite Ev.
  cbn [fst]. subst window.
  rewrite (stddev_window_push values Hli Ev).
  rewrite length_map, length_seq.
  assert (Hvi : valid (get values i) = true) by (now rewrite Ev).
  destruct (period <? S len) eqn:Ep.
  - apply Nat.ltb_lt in Ep. assert (len = period) by lia. subst len.
    exists period. split; [lia|]. split; [lia|]. split.
    + cbn [seq map tl]. now replace (S (S i - S period)) with (S i - period) by lia.
    + split; [|intros; lia]. intros j Hj.
      destruct (Nat.eq_dec j i) as [->|Hne]; [assumption | apply Hval; lia].
  - apply Nat.ltb_ge in Ep. exists (S len). split; [lia|]. split; [lia|].
    split; [reflexivity|]. split.
    + intros j Hj.
      destruct (Nat.eq_dec j i) as [->|Hne]; [assumption | apply Hval; lia].
    + intros H1 H2. replace (S i - S len - 1) with (i - len - 1) by lia.
      apply Hrun; lia.
Qed.

Lemma stddev_state_inv (values : arr) (period i : nat) :
  stddev_inv values period i
    (state_at (stddev_step sqrt values period) 0 i []).
Proof.
  induction i as [|i IH].
  - exists 0. split; [lia|]. split; [lia|]. split; [reflexivity|].
    split; intros; lia.
  - simpl state_at. now apply stddev_inv_step.
Qed.

Lemma stddev_nth (values : arr) (period i : nat) :
  i < length values ->
  nth i (stddev sqrt values period) None
  = snd (stddev_step sqrt values period i
           (state_at (stddev_step sqrt values period) 0 i [])).
Proof. intros Hi. unfold stddev. now rewrite loop_nth. Qed.

Lemma stddev_length (values : arr) (period : nat) :
  length (stddev sqrt values period) = length values.
Proof. apply loop_length. Qed.

(** Whenever [stddev] emits a value, the window fits and is entirely
    valid. *)
Lemma stddev_some_window (values : arr) (period i : nat) (v : num) :
  i < length values ->
  nth i (stddev sqrt values period) None = Some v ->
  period <= i + 1 /\
  (forall j, i + 1 - period <= j <= i -> valid (get values j) = true).
Proof.
  intros Hi. rewrite stddev_nth by assumption.
  destruct (stddev_state_inv values period i)
    as (len & Hlp & Hli & Hw & Hval & Hrun).
  rewrite Hw. unfold stddev_step.
  destruct (get values i) as [w|] eqn:Ev; [|discriminate].
  destruct w as [q| | |]; cbn [isFinite negb]; try discriminate.
  assert (Hvi : valid (get values i) = true) by (now rewrite Ev).
  rewrite (stddev_window_push values Hli Ev).
  rewrite length_map, length_seq. cbn [snd].
  destruct (period <? S len) eqn:Ep.
  - apply Nat.ltb_lt in Ep. assert (len = period) by lia. subst len.
    intros _. split; [lia|]. intros j Hj.
    destruct (Nat.eq_dec j i) as [->|Hne]; [assumption | apply Hval; lia].
  - apply Nat.ltb_ge in Ep. rewrite length_map, length_seq.
    destruct (S len =? period) eqn:Ec; [|discriminate].
    apply Nat.eqb_eq in Ec. intros _. split; [lia|]. intros j Hj.
    destruct (Nat.eq_dec j i) as [->|Hne]; [assumption | apply Hval; lia].
Qed.

Lemma fold_nadd_fin (l : list Qc) (acc : Qc) :
  fold_left nadd (map Fin l) (Fin acc) = Fin (fold_left Qcplus l acc).
Proof.
  revert acc; induction l as [|x l IH]; intros acc; [reflexivity|].
  simpl. apply IH.
Qed.

Lemma fold_sqdev_fin (l : list Qc) (m acc : Qc) :
  fold_left (fun a b => nadd a (nmul (nsub b (Fin m)) (nsub b (Fin m))))
    (map Fin l) (Fin acc)
  = Fin (fold_left (fun a x => a + (x - m) * (x - m))%Qc l acc).
Proof.
  revert acc; induction l as [|x l IH]; intros acc; [reflexivity|].
  simpl. apply IH.
Qed.

(** The value emitted on a window of [period] valid entries. *)
Lemma stddev_window_value (values : arr) (period i : nat) :
  0 < period -> i < length values -> period <= i + 1 ->
  (forall j, i + 1 - period <= j <= i -> valid (get values j) = true) ->
  nth i (stddev sqrt values period) None
  = Some (sqrt (Fin (qvariance (window_q values period i) period))).
Proof.
  intros Hp Hi Hfit Hwin. rewrite stddev_nth by assumption.
  destruct (stddev_state_inv values period i)
    as (len & Hlp & Hli & Hw & Hval & Hrun).
  rewrite Hw. unfold stddev_step.
  assert (Hv : valid (get values i) = true) by (apply Hwin; lia).
  apply valid_fin in Hv as [q Ev]. rewrite Ev. cbn [isFinite negb].
  rewrite (stddev_window_push values Hli Ev).
  rewrite length_map, length_seq. cbn [snd].
  assert (Hfinal :
    forall w : list num,
      w = map (fun j => Fin (qat values j)) (seq (i + 1 - period) period) ->
      (if length w =? period
       then Some (sqrt (ndiv
              (fold_left
                 (fun a b =>
                    nadd a (nmul (nsub b (ndiv (fold_left nadd w n0)
                                            (nat2num period)))
                              (nsub b (ndiv (fold_left nadd w n0)
                                         (nat2num period)))))
                 w n0)
              (nat2num period)))
       else None)
      = Some (sqrt (Fin (qvariance (window_q values period i) period)))).
  { intros w ->. rewrite length_map, length_seq, Nat.eqb_refl.
    rewrite <- (map_map (qat values) Fin).
    fold (window_q values period i). unfold n0.
    rewrite fold_nadd_fin, ndiv_fin by assumption.
    rewrite fold_sqdev_fin, ndiv_fin by assumption.
    reflexivity. }
  destruct (period <? S len) eqn:Ep.
  - apply Nat.ltb_lt in Ep. assert (len = period) by lia. subst len.
    apply Hfinal. cbn [seq map tl].
    now replace (S (S i - S period)) with (i + 1 - period) by lia.
  - apply Nat.ltb_ge in Ep.
    assert (Hc : S len = period).
    { destruct (Nat.eq_dec (S len) period) as [|Hne]; [assumption|].
      exfalso. assert (Hlt : len < i) by lia.
      assert (Hl : len < period) by lia.
      specialize (Hrun Hl Hlt). rewrite Hwin in Hrun by lia. discriminate. }
    apply Hfinal. rewrite Hc.
    now replace (S i - period) with (i + 1 - period) by lia.
Qed.

(** X4. On a window of [period] valid entries ending at [i], [stddev]
    yields the square root of the population variance of the window:
    squared deviations from the window mean, divided by [period]. *)
Theorem stddev_population (values : arr) (period i : nat) :
  0 < period -> i < length values -> period <= i + 1 ->
  (forall j, i + 1 - period <= j <= i -> valid (get values j) = true) ->
  nth i (stddev sqrt values period) None
  = Some (sqrt (Fin (qvariance (window_q values period i) period))).
Proof.
  intros Hp Hi Hfit Hwin.
  apply stddev_window_value; assumption.
Qed.

End StddevFacts.

Lemma stddev_population_witness :
  nth 2 (stddev (fun x => x) (closes [1; 2; 3]%Z) 3) None
  = Some (Fin (qvariance (window_q (closes [1; 2; 3]%Z) 3 2) 3)).
Proof.
  apply (@stddev_population (fun x => x) (closes [1; 2; 3]%Z) 3 2).
  - lia.
  - simpl; lia.
  - lia.
  - intros j Hj. assert (Hc : j = 0 \/ j = 1 \/ j = 2) by lia.
    destruct Hc as [-> | [-> | ->]]; reflexivity.
Defined.

(** ** Too little history gives null *)

Lemma rsi_none_short (values : arr) (period i : nat) :
  i < period -> nth i (rsi values period) None = None.
Proof.
  intros Hi.
  destruct (Nat.lt_ge_cases i (length values)) as [Hl|Hl].
  2:{ apply nth_overflow. unfold rsi. destruct values; simpl in *; [lia|].
      rewrite loop_length. lia. }
  destruct i as [|i].
  { unfold rsi. destruct values; reflexivity. }
  rewrite rsi_nth by lia. rewrite loop_nth by lia.
  replace (1 + i) with (S i) by lia.
  destruct (state_at (rsi_step values period) 1 i (None, None)) as [g l].
  unfold rsi_step.
  destruct (get values (S i - 1)); [|reflexivity].
  destruct (get values (S i)); [|reflexivity].
  apply Nat.ltb_lt in Hi. now rewrite Hi.
Qed.

Lemma ema_length (values : arr) (period : nat) :
  length (ema values period) = length values.
Proof. apply loop_length. Qed.

Lemma ema_none_short (values : arr) (period i : nat) :
  i + 1 < period -> nth i (ema values period) None = None.
Proof.
  intros Hi.
  destruct (Nat.lt_ge_cases i (length values)) as [Hl|Hl].
  2:{ apply nth_overflow. now rewrite ema_length. }
  destruct (nth i (ema values period) None) as [v|] eqn:E; [|reflexivity].
  exfalso.
  assert (Hne : nth i (ema values period) None <> None)
    by (rewrite E; discriminate).
  apply ema_some_window in Hne; [|assumption].
  destruct Hne as [Hfit _]. lia.
Qed.

Lemma sma_none_short (values : arr) (period i : nat) :
  i + 1 < period -> nth i (sma values period) None = None.
Proof.
  intros Hi.
  destruct (Nat.lt_ge_cases i (length values)) as [Hl|Hl].
  2:{ apply nth_overflow. now rewrite sma_length. }
  destruct (nth i (sma values period) None) as [v|] eqn:E; [|reflexivity].
  apply sma_some_window in E; [lia | assumption].
Qed.

Lemma stddev_none_short (sqrt : num -> num) (values : arr)
  (period i : nat) :
  i + 1 < period -> nth i (stddev sqrt values period) None = None.
Proof.
  intros Hi.
  destruct (Nat.lt_ge_cases i (length values)) as [Hl|Hl].
  2:{ apply nth_overflow. now rewrite stddev_length. }
  destruct (nth i (stddev sqrt values period) None) as [v|] eqn:E;
    [|reflexivity].
  apply stddev_some_window in E; [lia | assumption].
Qed.

Lemma cci_length (high low close : arr) (period : nat) :
  length (cci high low close period) = length close.
Proof. unfold cci. now rewrite length_map, length_seq, typical_length. Qed.

Lemma cci_none_short (high low close : arr) (period i : nat) :
  i + 1 < period -> nth i (cci high low close period) None = None.
Proof.
  intros Hi.
  destruct (Nat.lt_ge_cases i (length close)) as [Hl|Hl].
  2:{ apply nth_overflow. now rewrite cci_length. }
  rewrite cci_nth by assumption. unfold cci_at.
  apply Nat.ltb_lt in Hi. now rewrite Hi.
Qed.

Lemma mfi_length (high low close volume : arr) (period : nat) :
  length (mfi high low close volume period) = length close.
Proof.
  unfold mfi. pose proof (typical_length high low close) as H.
  destruct (typical high low close) as [|x tp] eqn:E.
  - simpl in H. now rewrite <- H.
  - simpl. rewrite length_map, length_seq. simpl in H. lia.
Qed.

Lemma mfi_none_short (high low close volume : arr) (period i : nat) :
  i < period -> nth i (mfi high low close volume period) None = None.
Proof.
  intros Hi.
  destruct (Nat.lt_ge_cases i (length close)) as [Hl|Hl].
  2:{ apply nth_overflow. now rewrite mfi_length. }
  destruct i as [|i].
  { unfold mfi. now destruct (typical high low close). }
  rewrite mfi_nth by lia. unfold mfi_at.
  apply Nat.ltb_lt in Hi. now rewrite Hi.
Qed.

(** The three arrays of [macd12269], entry by entry. *)
Lemma macd_nth (values : arr) (i : nat) :
  i < length values ->
  nth i (m_macd (macd12269 values)) None
  = match nth i (ema values 12) None, nth i (ema values 26) None with
    | Some a, Some b => Some (nsub a b)
    | _, _ => None
    end.
Proof.
  intros Hi. unfold macd12269. cbn [m_macd].
  rewrite mapi_nth with (a := None) by assumption.
  now rewrite !get_nth by (now rewrite ema_length).
Qed.

Lemma macd_length (values : arr) :
  length (m_macd (macd12269 values)) = length values.
Proof. unfold macd12269. cbn [m_macd]. apply mapi_length. Qed.

Lemma macdSignal_length (values : arr) :
  length (m_macdSignal (macd12269 values)) = length values.
Proof.
  unfold macd12269. cbn [m_macdSignal]. now rewrite ema_length, mapi_length.
Qed.

Lemma macdHist_nth (values : arr) (i : nat) :
  i < length values ->
  nth i (m_macdHist (macd12269 values)) None
  = match nth i (m_macd (macd12269 values)) None,
          nth i (m_macdSignal (macd12269 values)) None with
    | Some m, Some s => Some (nsub m s)
    | _, _ => None
    end.
Proof.
  intros Hi. unfold macd12269. cbn [m_macd m_macdSignal m_macdHist].
  rewrite mapi_nth with (a := None) by (now rewrite mapi_length).
  now rewrite get_nth by (now rewrite ema_length, mapi_length).
Qed.

Lemma macd_none_short (values : arr) (i : nat) :
  i + 1 < 26 -> nth i (m_macd (macd12269 values)) None = None.
Proof.
  intros Hi.
  destruct (Nat.lt_ge_cases i (length values)) as [Hl|Hl].
  2:{ apply nth_overflow. now rewrite macd_length. }
  rewrite macd_nth by assumption.
  rewrite (@ema_none_short values 26 i) by assumption.
  now destruct (nth i (ema values 12) None).
Qed.

Lemma macdSignal_none_short (values : arr) (i : nat) :
  i + 1 < 34 -> nth i (m_macdSignal (macd12269 values)) None = None.
Proof.
  intros Hi.
  destruct (Nat.lt_ge_cases i (length values)) as [Hl|Hl].
  2:{ apply nth_overflow. now rewrite macdSignal_length. }
  destruct (nth i (m_macdSignal (macd12269 values)) None) as [v|] eqn:E;
    [|reflexivity].
  exfalso.
  assert (Hne : nth i (ema (m_macd (macd12269 values)) 9) None <> None).
  { unfold macd12269 in E |- *. cbn [m_macd m_macdSignal] in E |- *.
    rewrite E. discriminate. }
  apply ema_some_window in Hne; [|now rewrite macd_length].
  destruct Hne as (Hfit & Hwin).
  apply (Hwin (i + 1 - 9)); [lia|].
  rewrite get_nth by (rewrite macd_length; lia).
  apply macd_none_short. lia.
Qed.

Lemma macdHist_none_short (values : arr) (i : nat) :
  i + 1 < 34 -> nth i (m_macdHist (macd12269 values)) None = None.
Proof.
  intros Hi.
  destruct (Nat.lt_ge_cases i (length values)) as [Hl|Hl].
  2:{ apply nth_overflow. unfold macd12269. cbn [m_macdHist].
      now rewrite !mapi_length. }
  rewrite macdHist_nth by assumption.
  rewrite macdSignal_none_short by assumption.
  now destruct (nth i (m_macd (macd12269 values)) None).
Qed.

Lemma ez_nth (close sma20Arr : arr) (i : nat) :
  i < length close -> length sma20Arr = length close ->
  nth i (ez close sma20Arr) None
  = match nth i close None, nth i sma20Arr None with
    | Some c, Some m =>
      if negb (isFinite c) || negb (isFinite m) || neqb m n0 then None
      else Some (nmul n100 (ndiv (nsub c m) m))
    | _, _ => None
    end.
Proof.
  intros Hi Hlen. unfold ez.
  rewrite mapi_nth with (a := None) by assumption.
  now rewrite get_nth by lia.
Qed.

Lemma ez_length (close sma20Arr : arr) :
  length (ez close sma20Arr) = length close.
Proof. apply mapi_length. Qed.

Lemma last_or_null_short (a : arr) (n bound : nat) :
  (forall i, i + 1 < bound -> nth i a None = None) ->
  n < bound -> last_or_null n a = None.
Proof.
  intros H Hn. destruct n as [|idx]; [reflexivity|].
  simpl. apply H. lia.
Qed.

Lemma band_nth (f : num -> num -> num) (sdArr smaArr : arr) (i : nat) :
  i < length sdArr -> length smaArr = length sdArr ->
  nth i (mapi (fun sd i =>
           match sd, get smaArr i with
           | Some sd, Some m => Some (f m sd)
           | _, _ => None
           end) sdArr) None
  = match nth i sdArr None, nth i smaArr None with
    | Some sd, Some m => Some (f m sd)
    | _, _ => None
    end.
Proof.
  intros Hi Hlen. rewrite mapi_nth with (a := None) by assumption.
  now rewrite get_nth by lia.
Qed.

Lemma band_none_short (f : num -> num -> num) (sdArr smaArr : arr)
  (bound i : nat) :
  (forall i, i + 1 < bound -> nth i sdArr None = None) ->
  i + 1 < bound ->
  nth i (mapi (fun sd i =>
           match sd, get smaArr i with
           | Some sd, Some m => Some (f m sd)
           | _, _ => None
           end) sdArr) None = None.
Proof.
  intros H Hi.
  destruct (Nat.lt_ge_cases i (length sdArr)) as [Hl|Hl].
  2:{ apply nth_overflow. now rewrite mapi_length. }
  rewrite mapi_nth with (a := None) by assumption.
  now rewrite H.
Qed.

(** X5. Insufficient history surfaces as null: on fewer bars than an
    indicator needs, its field of the snapshot is null - 10 bars for
    turnover10, 15 for rsi14 and mfi14, 20 for sma20, stddev20, both
    Bollinger bands, ez and cci20, 26 for macd, 34 for macdSignal and
    macdHist, 50 for sma50, 200 for sma200. *)
Theorem indicators_short_history (sqrt : num -> num) (rows : list Bar.t) :
  let n := length rows in
  let s := indicators_of sqrt rows in
  (n < 10 -> Ind.turnover10 s = None)
  /\ (n < 15 -> Ind.rsi14 s = None /\ Ind.mfi14 s = None)
  /\ (n < 20 ->
      Ind.sma20 s = None /\ Ind.stddev20 s = None
      /\ Ind.upperBollingerBand20 s = None
      /\ Ind.lowerBollingerBand20 s = None
      /\ Ind.ez s = None /\ Ind.cci20 s = None)
  /\ (n < 26 -> Ind.macd s = None)
  /\ (n < 34 -> Ind.macdSignal s = None /\ Ind.macdHist s = None)
  /\ (n < 50 -> Ind.sma50 s = None)
  /\ (n < 200 -> Ind.sma200 s = None).
Proof.
  intros n s. unfold s, indicators_of. cbv zeta.
  cbn [Ind.turnover10 Ind.rsi14 Ind.mfi14 Ind.sma20 Ind.stddev20
       Ind.upperBollingerBand20 Ind.lowerBollingerBand20 Ind.ez Ind.cci20
       Ind.macd Ind.macdSignal Ind.macdHist Ind.sma50 Ind.sma200].
  fold n.
  repeat match goal with
         | |- _ /\ _ => split
         | |- _ -> _ => intros Hn
         end.
  - apply last_or_null_short with (bound := 10); [|assumption].
    intros i Hi. now apply sma_none_short.
  - apply last_or_null_short with (bound := 15); [|assumption].
    intros i Hi. apply rsi_none_short. lia.
  - apply last_or_null_short with (bound := 15); [|assumption].
    intros i Hi. apply mfi_none_short. lia.
  - apply last_or_null_short with (bound := 20); [|assumption].
    intros i Hi. now apply sma_none_short.
  - apply last_or_null_short with (bound := 20); [|assumption].
    intros i Hi. now apply stddev_none_short.
  - apply last_or_null_short with (bound := 20); [|assumption].
    intros i Hi. apply band_none_short with (bound := 20); [|assumption].
    intros j Hj. now apply stddev_none_short.
  - apply last_or_null_short with (bound := 20); [|assumption].
    intros i Hi. apply band_none_short with (bound := 20); [|assumption].
    intros j Hj. now apply stddev_none_short.
  - apply last_or_null_short with (bound := 20); [|assumption].
    intros i Hi.
    destruct (Nat.lt_ge_cases i (length (map Bar.closingPrice rows)))
      as [Hl|Hl].
    + rewrite ez_nth by (auto; apply sma_length).
      rewrite (@sma_none_short _ 20 i) by assumption.
      now destruct (nth i (map Bar.closingPrice rows) None).
    + apply nth_overflow. now rewrite ez_length.
  - apply last_or_null_short with (bound := 20); [|assumption].
    intros i Hi. now apply cci_none_short.
  - apply last_or_null_short with (bound := 26); [|assumption].
    intros i Hi. now apply macd_none_short.
  - apply last_or_null_short with (bound := 34); [|assumption].
    intros i Hi. now apply macdSignal_none_short.
  - apply last_or_null_short with (bound := 34); [|assumption].
    intros i Hi. now apply macdHist_none_short.
  - apply last_or_null_short with (bound := 50); [|assumption].
    intros i Hi. now apply sma_none_short.
  - apply last_or_null_short with (bound := 200); [|assumption].
    intros i Hi. now apply sma_none_short.
Qed.

(** ** Bollinger bands *)

Lemma sma_stddev_together (sqrt : num -> num) (values : arr)
  (period i : nat) :
  0 < period ->
  (nth i (sma values period) None = None <->
   nth i (stddev sqrt values period) None = None).
Proof.
  intros Hp.
  destruct (Nat.lt_ge_cases i (length values)) as [Hl|Hl].
  2:{ rewrite !nth_overflow; [tauto | now rewrite stddev_length
                                    | now rewrite sma_length]. }
  split; intros H.
  - destruct (nth i (stddev sqrt values period) None) as [v|] eqn:E;
      [|reflexivity].
    apply stddev_some_window in E as [Hfit Hwin]; [|assumption].
    rewrite sma_emits_mean in H by assumption. discriminate.
  - destruct (nth i (sma values period) None) as [v|] eqn:E; [|reflexivity].
    apply sma_some_window in E as [Hfit Hwin]; [|assumption].
    rewrite stddev_window_value in H by assumption. discriminate.
Qed.

(** X6. Bollinger bands of a snapshot: stddev20 and both bands are null
    exactly when sma20 is; otherwise the upper band is
    [sma20 + 2 * stddev20] and the lower band [sma20 - 2 * stddev20]. *)
Theorem bollinger_bands (sqrt : num -> num) (rows : list Bar.t) :
  let s := indicators_of sqrt rows in
  (Ind.stddev20 s = None <-> Ind.sma20 s = None)
  /\ (Ind.upperBollingerBand20 s = None <-> Ind.sma20 s = None)
  /\ (Ind.lowerBollingerBand20 s = None <-> Ind.sma20 s = None)
  /\ (forall m sd,
        Ind.sma20 s = Some m -> Ind.stddev20 s = Some sd ->
        Ind.upperBollingerBand20 s = Some (nadd m (nmul n2 sd))
        /\ Ind.lowerBollingerBand20 s = Some (nsub m (nmul n2 sd))).
Proof.
  intros s. unfold s, indicators_of. cbv zeta.
  cbn [Ind.sma20 Ind.stddev20 Ind.upperBollingerBand20
       Ind.lowerBollingerBand20].
  remember (map Bar.closingPrice rows) as close eqn:Ec.
  assert (Hlen : length close = length rows)
    by (subst close; apply length_map).
  destruct (length rows) as [|idx]; cbn [last_or_null].
  { repeat split; intros; try discriminate; reflexivity. }
  assert (Hi : idx < length close) by lia.
  rewrite (@band_nth (fun m sd => nadd m (nmul n2 sd)))
    by (rewrite ?stddev_length, ?sma_length; auto).
  rewrite (@band_nth (fun m sd => nsub m (nmul n2 sd)))
    by (rewrite ?stddev_length, ?sma_length; auto).
  assert (H20 : 0 < 20) by lia.
  pose proof (@sma_stddev_together sqrt close 20 idx H20) as Htog.
  destruct (nth idx (stddev sqrt close 20) None) as [sd|];
    destruct (nth idx (sma close 20) None) as [m|].
  - repeat split; intros; try discriminate; try congruence.
  - exfalso. destruct Htog as [H _]. specialize (H eq_refl). discriminate.
  - exfalso. destruct Htog as [_ H]. specialize (H eq_refl). discriminate.
  - repeat split; intros; try discriminate; reflexivity.
Qed.

(** ** EZ: sign of the distance from the moving average *)

Lemma Q_ratio_sign (x m : Q) :
  (0 < m ->
   (0 < x -> 0 < 100 * (x / m))
   /\ (x < 0 -> 100 * (x / m) < 0)
   /\ (x == 0 -> 100 * (x / m) == 0))%Q.
Proof.
  intros Hm. repeat split.
  - intros Hx. assert (H : (0 < x / m)%Q).
    { apply Qlt_shift_div_l; [assumption|]. now rewrite Qmult_0_l. }
    lra.
  - intros Hx. assert (H : (x / m < 0)%Q).
    { apply Qlt_shift_div_r; [assumption|]. now rewrite Qmult_0_l. }
    lra.
  - intros Hx. rewrite Hx. unfold Qdiv. ring.
Qed.

(** X7. Where close and a positive sma20 are both finite, [ez] is the
    finite number [100 * ((close - sma20) / sma20)] and has the sign of
    [close - sma20]; where sma20 is zero, [ez] is null. *)
Theorem ez_sign (close sma20Arr : arr) (i : nat) (c m : Qc) :
  i < length close -> length sma20Arr = length close ->
  nth i close None = Some (Fin c) ->
  nth i sma20Arr None = Some (Fin m) ->
  (m = 0%Qc -> nth i (ez close sma20Arr) None = None)
  /\ ((0 < m)%Qc ->
      nth i (ez close sma20Arr) None
      = Some (Fin (nat2Qc 100 * ((c - m) / m))%Qc)
      /\ ((m < c)%Qc -> (0 < nat2Qc 100 * ((c - m) / m))%Qc)
      /\ ((c < m)%Qc -> (nat2Qc 100 * ((c - m) / m) < 0)%Qc)
      /\ (c = m -> (nat2Qc 100 * ((c - m) / m))%Qc = 0%Qc)).
Proof.
  intros Hi Hlen Hc Hm. rewrite ez_nth by assumption. rewrite Hc, Hm.
  cbn [isFinite negb orb neqb n0]. split.
  - intros ->. assert (E : Qceqb 0 0 = true) by (now apply Qceqb_true).
    now rewrite E.
  - intros Hpos.
    assert (E : Qceqb m 0 = false).
    { apply Qceqb_false. intros ->. now apply (Qclt_not_eq _ _ Hpos). }
    rewrite E. change n100 with (Fin (nat2Qc 100)).
    cbn [nsub ndiv]. rewrite E. cbn [nmul].
    split; [reflexivity|].
    assert (Hm' : (0 < this m)%Q) by exact Hpos.
    destruct (@Q_ratio_sign (this c - this m) (this m) Hm')
      as (Hp & Hn & Hz).
    assert (Ht : (this (nat2Qc 100 * ((c - m) / m))%Qc
                  == 100 * ((this c - this m) / this m))%Q).
    { rewrite this_mult, Qc_div_this, this_minus, this_nat2Qc.
      reflexivity. }
    repeat split.
    + intros Hlt. unfold Qclt in *. rewrite Ht.
      change (this 0%Qc) with 0%Q. apply Hp. lra.
    + intros Hlt. unfold Qclt in *. rewrite Ht.
      change (this 0%Qc) with 0%Q. apply Hn. lra.
    + intros ->. apply Qc_is_canon. rewrite Ht.
      change (this 0%Qc) with 0%Q. apply Hz. lra.
Qed.

Lemma ez_sign_witness :
  nth 0 (ez (closes [110]%Z) (closes [100]%Z)) None
  = Some (Fin (nat2Qc 100 * ((Z2Qc 110 - Z2Qc 100) / Z2Qc 100))%Qc).
Proof.
  apply (@ez_sign (closes [110]%Z) (closes [100]%Z) 0 (Z2Qc 110) (Z2Qc 100)).
  - simpl; lia.
  - reflexivity.
  - reflexivity.
  - reflexivity.
  - reflexivity.
Defined.

(** A snapshot written with a non-zero sma20 carries an ez: the refresh
    job leaves ez null only where sma20 is null or zero. *)
Lemma snapshot_ez_number (sqrt : num -> num) (rows : list Bar.t) (m : num) :
  let s := indicators_of sqrt rows in
  Ind.sma20 s = Some m -> m <> n0 ->
  exists v, Ind.ez s = Some v.
Proof.
  intros s. unfold s, indicators_of. cbv zeta. cbn [Ind.sma20 Ind.ez].
  remember (map Bar.closingPrice rows) as close eqn:Ec.
  assert (Hlen : length close = length rows)
    by (subst close; apply length_map).
  destruct (length rows) as [|idx]; cbn [last_or_null]; [discriminate|].
  assert (Hi : idx < length close) by lia.
  intros Hm Hnz.
  destruct (sma_some_window _ _ Hi Hm) as [Hfit Hwin].
  assert (Hv : valid (get close idx) = true) by (apply Hwin; lia).
  apply valid_fin in Hv as [c Hc].
  rewrite sma_emits_mean in Hm by (auto; lia).
  injection Hm as <-.
  rewrite ez_nth by (rewrite ?sma_length; auto).
  rewrite <- get_nth by assumption. rewrite Hc.
  rewrite sma_emits_mean by (auto; lia).
  cbn [isFinite negb orb neqb n0].
  destruct (Qceqb _ _) eqn:E.
  - exfalso. apply Hnz. apply Qceqb_true in E. unfold n0. f_equal.
    exact E.
  - eexists. reflexivity.
Qed.

(** ** RefreshJob: runs for different dates *)

Section RefreshDates.
Variable sqrt : num -> num.

Lemma refreshed_other_date (db : table) (tradeDate : date)
  (symbols : list string) (r : Db.Row) :
  Db.tradeDate r <> tradeDate -> refreshed sqrt db tradeDate symbols r = r.
Proof.
  intros Hne. unfold refreshed.
  apply Z.eqb_neq in Hne. now rewrite Hne.
Qed.

Lemma refreshed_table_keeps (g : Db.Row -> Db.Row) (db : table)
  (tradeDate : date) (symbols : list string) (r : Db.Row) :
  keeps_bars g ->
  refreshed sqrt (map g db) tradeDate symbols r
  = refreshed sqrt db tradeDate symbols r.
Proof.
  intros H. unfold refreshed. now rewrite getTradingIndicators_keeps.
Qed.

Lemma refreshed_commute (db : table) (d1 d2 : date)
  (s1 s2 : list string) (r : Db.Row) :
  d1 <> d2 ->
  refreshed sqrt db d2 s2 (refreshed sqrt db d1 s1 r)
  = refreshed sqrt db d1 s1 (refreshed sqrt db d2 s2 r).
Proof.
  intros Hne.
  destruct (Z.eq_dec (Db.tradeDate r) d1) as [E1|E1].
  - assert (E2 : Db.tradeDate r <> d2) by congruence.
    rewrite (@refreshed_other_date db d2 s2 r E2).
    apply refreshed_other_date.
    rewrite keeps_tradeDate by apply refreshed_keeps. assumption.
  - rewrite (@refreshed_other_date db d1 s1 r E1).
    symmetry. apply refreshed_other_date.
    rewrite keeps_tradeDate by apply refreshed_keeps. assumption.
Qed.

(** X9. Refreshes of two different dates do not interfere: run in either
    order they complete, return the counts they return when run alone,
    and leave the same table. *)
Theorem refresh_dates_commute (db : table) (d1 d2 : date)
  (m1 m2 : string) :
  d1 <> d2 ->
  exists (t1 t2 final : table),
    updateTradingDayIndicators sqrt db d1 m1
    = Some (t1, length (symbols_on db d1 m1))
    /\ updateTradingDayIndicators sqrt t1 d2 m2
       = Some (final, length (symbols_on db d2 m2))
    /\ updateTradingDayIndicators sqrt db d2 m2
       = Some (t2, length (symbols_on db d2 m2))
    /\ updateTradingDayIndicators sqrt t2 d1 m1
       = Some (final, length (symbols_on db d1 m1)).
Proof.
  intros Hne. eexists. eexists. eexists.
  split; [apply update_spec|].
  split.
  { rewrite update_spec.
    rewrite symbols_on_keeps by apply refreshed_keeps.
    rewrite map_map. reflexivity. }
  split; [apply update_spec|].
  rewrite update_spec.
  rewrite symbols_on_keeps by apply refreshed_keeps.
  rewrite map_map. do 2 f_equal. apply map_ext. intros r.
  rewrite !refreshed_table_keeps by apply refreshed_keeps.
  symmetry. now apply refreshed_commute.
Qed.

End RefreshDates.

Lemma refresh_dates_commute_witness :
  exists (t1 t2 final : table),
    updateTradingDayIndicators (fun x => x) candle_table 1%Z Sym.STOCK
    = Some (t1, length (symbols_on candle_table 1%Z Sym.STOCK))
    /\ updateTradingDayIndicators (fun x => x) t1 2%Z Sym.STOCK
       = Some (final, length (symbols_on candle_table 2%Z Sym.STOCK))
    /\ updateTradingDayIndicators (fun x => x) candle_table 2%Z Sym.STOCK
       = Some (t2, length (symbols_on candle_table 2%Z Sym.STOCK))
    /\ updateTradingDayIndicators (fun x => x) t2 1%Z Sym.STOCK
       = Some (final, length (symbols_on candle_table 1%Z Sym.STOCK)).
Proof.
  apply (@refresh_dates_commute (fun x => x) candle_table 1%Z 2%Z
           Sym.STOCK Sym.STOCK).
  discriminate.
Defined.

(** ** Latest trade date *)

Lemma order_by_nil {A : Type} (leb : A -> A -> bool) (l : list A) :
  order_by leb l = [] -> l = [].
Proof.
  intros H. destruct l as [|x l]; [reflexivity|].
  assert (Hin : In x (order_by leb (x :: l)))
    by (apply order_by_In; now left).
  rewrite H in Hin. contradiction.
Qed.

Lemma by_tradeDate_desc_total (r1 r2 : Db.Row) :
  by_tradeDate_desc r1 r2 = false -> by_tradeDate_desc r2 r1 = true.
Proof.
  unfold by_tradeDate_desc. intros H.
  apply Z.leb_gt in H. apply Z.leb_le. lia.
Qed.

(** The head of a list ordered by descending date has the greatest
    date. *)
Lemma order_by_desc_head (l : list Db.Row) (row : Db.Row)
  (rest : list Db.Row) :
  order_by by_tradeDate_desc l = row :: rest ->
  forall r, In r l -> (Db.tradeDate r <= Db.tradeDate row)%Z.
Proof.
  intros E r Hin.
  pose proof (order_by_Sorted by_tradeDate_desc l by_tradeDate_desc_total)
    as Hs.
  apply Sorted_StronglySorted in Hs.
  2:{ intros a b c Hab Hbc. unfold by_tradeDate_desc in *.
      apply Z.leb_le in Hab, Hbc. apply Z.leb_le. lia. }
  rewrite E in Hs. apply StronglySorted_inv in Hs as [_ Hall].
  apply (order_by_In by_tradeDate_desc) in Hin. rewrite E in Hin.
  destruct Hin as [<-|Hin]; [lia|].
  rewrite Forall_forall in Hall. specialize (Hall _ Hin).
  unfold by_tradeDate_desc in Hall. now apply Z.leb_le in Hall.
Qed.

Lemma last_date_candidate_filter (marketType : string)
  (before : option date) (r : Db.Row) :
  (marketType_is marketType r
   && match before with
      | Some b => (Db.tradeDate r <=? b)%Z
      | None => true
      end) = true
  <-> last_date_candidate marketType before r.
Proof.
  unfold last_date_candidate.
  rewrite andb_true_iff, marketType_is_true.
  destruct before as [b|]; [rewrite Z.leb_le|]; tauto.
Qed.

(** The date returned is the date of a candidate row. *)
Lemma getLastTradeDate_row (db : table) (marketType : string)
  (before : option date) (d : date) :
  getLastTradeDate db marketType before = Some d ->
  exists r, In r db /\ last_date_candidate marketType before r
            /\ Db.tradeDate r = d.
Proof.
  unfold getLastTradeDate.
  set (p := fun r : Db.Row =>
              marketType_is marketType r
              && match before with
                 | Some b => (Db.tradeDate r <=? b)%Z
                 | None => true
                 end).
  destruct (order_by by_tradeDate_desc (filter p db)) as [|row rest] eqn:E;
    [discriminate|].
  intros Hd. injection Hd as <-.
  assert (Hrow : In row (filter p db)).
  { apply (order_by_In by_tradeDate_desc). rewrite E. now left. }
  apply filter_In in Hrow as [Hin Hp].
  apply last_date_candidate_filter in Hp.
  exists row. auto.
Qed.

(** X10. [getLastTradeDate] fails exactly when the segment has no row
    (on or before the bound); otherwise it returns the date of such a
    row, and no such row has a later date. *)
Theorem getLastTradeDate_spec (db : table) (marketType : string)
  (before : option date) :
  (getLastTradeDate db marketType before = None <->
   forall r, In r db -> ~ last_date_candidate marketType before r)
  /\ (forall d,
        getLastTradeDate db marketType before = Some d ->
        (exists r, In r db /\ last_date_candidate marketType before r
                   /\ Db.tradeDate r = d)
        /\ (forall r, In r db -> last_date_candidate marketType before r ->
                      (Db.tradeDate r <= d)%Z)).
Proof.
  unfold getLastTradeDate.
  set (p := fun r : Db.Row =>
              marketType_is marketType r
              && match before with
                 | Some b => (Db.tradeDate r <=? b)%Z
                 | None => true
                 end).
  destruct (order_by by_tradeDate_desc (filter p db)) as [|row rest] eqn:E.
  - apply order_by_nil in E. split.
    + split; [|reflexivity]. intros _ r Hin Hc.
      assert (Hf : In r (filter p db)).
      { apply filter_In. split; [assumption|].
        now apply last_date_candidate_filter. }
      rewrite E in Hf. contradiction.
    + intros d Hd. discriminate.
  - assert (Hrow : In row (filter p db)).
    { apply (order_by_In by_tradeDate_desc). rewrite E. now left. }
    apply filter_In in Hrow as [Hin Hp].
    apply last_date_candidate_filter in Hp.
    split.
    + split; [discriminate|]. intros H. exfalso. now apply (H row).
    + intros d Hd. injection Hd as <-. split.
      * exists row. auto.
      * intros r Hr Hc. apply (order_by_desc_head _ E).
        apply filter_In. split; [assumption|].
        now apply last_date_candidate_filter.
Qed.

(** X11. Called without a date on a segment that has rows,
    [fetchMarketSpirit] reads the segment's latest trade date; its
    universe is then non-empty, so score, adv and adLine are never
    null. *)
Theorem market_spirit_default_date (db : table) (marketType : string)
  (d : date) :
  getLastTradeDate db marketType None = Some d ->
  exists score adv adLine,
    fetchMarketSpirit db marketType None
    = Some (Spirit.mkResponse d marketType (Some score) (Some adv)
              (Some adLine)).
Proof.
  intros Hd.
  destruct (@getLastTradeDate_row db marketType None d Hd)
    as (r & Hin & [Hm _] & Hr).
  unfold fetchMarketSpirit, resolve_date. rewrite Hd. cbv zeta.
  assert (Hne : In r (filter (on_date d marketType) db)).
  { apply filter_In. split; [assumption|]. unfold on_date.
    apply andb_true_iff. split; [now apply Z.eqb_eq|].
    now apply marketType_is_true. }
  destruct (filter (on_date d marketType) db) as [|x stocks] eqn:E;
    [contradiction|].
  cbn [length Nat.eqb]. eexists. eexists. eexists. reflexivity.
Qed.

Lemma market_spirit_default_date_witness :
  exists score adv adLine,
    fetchMarketSpirit candle_table Sym.STOCK None
    = Some (Spirit.mkResponse 4%Z Sym.STOCK (Some score) (Some adv)
              (Some adLine)).
Proof.
  apply (@market_spirit_default_date candle_table Sym.STOCK 4%Z).
  reflexivity.
Defined.

(** ** SQL aggregates *)

Lemma sql_compare_refl (a : num) : sql_compare a a = Eq.
Proof.
  destruct a; simpl; try reflexivity. now apply Qceq_alt.
Qed.

Lemma sql_ge_refl (a : num) : sql_ge a a = true.
Proof. unfold sql_ge. now rewrite sql_compare_refl. Qed.

Lemma sql_ge_fin (x y : Qc) : sql_ge (Fin x) (Fin y) = true <-> (y <= x)%Qc.
Proof.
  unfold sql_ge. cbn [sql_compare].
  change (y <= x)%Qc with ((fun a b : Qc => (b <= a)%Q) x y).
  rewrite (Qcge_alt x y).
  destruct (x ?= y)%Qc; split; intros H; congruence.
Qed.

Lemma sql_ge_trans (a b c : num) :
  sql_ge a b = true -> sql_ge b c = true -> sql_ge a c = true.
Proof.
  destruct a as [x| | |], b as [y| | |], c as [z| | |];
    try (intros; reflexivity); try (intros; discriminate).
  rewrite !sql_ge_fin. intros H1 H2. now apply Qcle_trans with y.
Qed.

Lemma sql_gt_ge (a b : num) : sql_gt a b = true -> sql_ge a b = true.
Proof.
  unfold sql_gt, sql_ge. destruct (sql_compare a b); congruence.
Qed.

Lemma sql_gt_false_ge (a b : num) : sql_gt b a = false -> sql_ge a b = true.
Proof.
  unfold sql_gt, sql_ge. rewrite (sql_compare_antisym a b).
  destruct (sql_compare b a); simpl; congruence.
Qed.

(** What [MAX] returns on a column: null when every entry is null,
    otherwise one of the entries, not below any other. *)
Lemma sql_max_fold (l : list (option num)) (acc : option num) :
  (fold_left sql_max2 l acc = None <->
   acc = None /\ forall o, In o l -> o = None)
  /\ (forall M, fold_left sql_max2 l acc = Some M ->
        (acc = Some M \/ In (Some M) l)
        /\ (forall a, acc = Some a -> sql_ge M a = true)
        /\ (forall x, In (Some x) l -> sql_ge M x = true)).
Proof.
  revert acc; induction l as [|o l IH]; intros acc.
  - simpl. split.
    + split; [intros H; split; [assumption | intros o []] | tauto].
    + intros M ->. split; [now left|]. split.
      * intros a E. injection E as <-. apply sql_ge_refl.
      * intros x [].
  - cbn [fold_left]. destruct (IH (sql_max2 acc o)) as [Hn Hs]. split.
    + rewrite Hn. split.
      * intros [Ha Hl]. destruct acc as [a|], o as [b|]; simpl in Ha;
          try discriminate.
        -- destruct (sql_gt b a); discriminate.
        -- split; [reflexivity|]. intros o' [<-|Ho]; auto.
      * intros [-> Hl]. split.
        -- simpl. apply Hl. now left.
        -- intros o' Ho. apply Hl. now right.
    + intros M HM. destruct (Hs M HM) as (Hin & Hacc & Hall).
      destruct acc as [a|], o as [b|]; simpl in Hin, Hacc.
      * destruct (sql_gt b a) eqn:Eg.
        -- assert (HMb : sql_ge M b = true) by (now apply Hacc).
           split; [|split].
           ++ destruct Hin as [E|Hin]; [right; left; congruence|].
              right. now right.
           ++ intros a' E. injection E as <-.
              apply sql_ge_trans with b; [assumption|].
              now apply sql_gt_ge.
           ++ intros x [E|Hx]; [injection E as <-; assumption|].
              now apply Hall.
        -- assert (HMa : sql_ge M a = true) by (now apply Hacc).
           split; [|split].
           ++ destruct Hin as [E|Hin]; [now left | right; now right].
           ++ intros a' E. injection E as <-. assumption.
           ++ intros x [E|Hx].
              ** injection E as <-. apply sql_ge_trans with a;
                   [assumption|]. now apply sql_gt_false_ge.
              ** now apply Hall.
      * split; [|split].
        -- destruct Hin as [E|Hin]; [now left | right; now right].
        -- exact Hacc.
        -- intros x [E|Hx]; [discriminate | now apply Hall].
      * split; [|split].
        -- destruct Hin as [E|Hin]; [right; left; assumption|].
           right. now right.
        -- intros a' E. discriminate.
        -- intros x [E|Hx]; [|now apply Hall].
           injection E as <-. now apply Hacc.
      * split; [|split].
        -- destruct Hin as [E|Hin]; [discriminate | right; now right].
        -- intros a' E. discriminate.
        -- intros x [E|Hx]; [discriminate | now apply Hall].
Qed.

(** The same for [MIN], with the order reversed. *)
Lemma sql_min_fold (l : list (option num)) (acc : option num) :
  (fold_left sql_min2 l acc = None <->
   acc = None /\ forall o, In o l -> o = None)
  /\ (forall M, fold_left sql_min2 l acc = Some M ->
        (acc = Some M \/ In (Some M) l)
        /\ (forall a, acc = Some a -> sql_le M a = true)
        /\ (forall x, In (Some x) l -> sql_le M x = true)).
Proof.
  unfold sql_le.
  revert acc; induction l as [|o l IH]; intros acc.
  - simpl. split.
    + split; [intros H; split; [assumption | intros o []] | tauto].
    + intros M ->. split; [now left|]. split.
      * intros a E. injection E as <-. apply sql_ge_refl.
      * intros x [].
  - cbn [fold_left]. destruct (IH (sql_min2 acc o)) as [Hn Hs]. split.
    + rewrite Hn. split.
      * intros [Ha Hl]. destruct acc as [a|], o as [b|]; simpl in Ha;
          try discriminate.
        -- destruct (sql_lt b a); discriminate.
        -- split; [reflexivity|]. intros o' [<-|Ho]; auto.
      * intros [-> Hl]. split.
        -- simpl. apply Hl. now left.
        -- intros o' Ho. apply Hl. now right.
    + intros M HM. destruct (Hs M HM) as (Hin & Hacc & Hall).
      destruct acc as [a|], o as [b|]; simpl in Hin, Hacc.
      * unfold sql_lt in *. destruct (sql_gt a b) eqn:Eg.
        -- assert (HMb : sql_ge b M = true) by (now apply Hacc).
           split; [|split].
           ++ destruct Hin as [E|Hin]; [right; left; congruence|].
              right. now right.
           ++ intros a' E. injection E as <-.
              apply sql_ge_trans with b; [|assumption].
              now apply sql_gt_ge.
           ++ intros x [E|Hx]; [injection E as <-; assumption|].
              now apply Hall.
        -- assert (HMa : sql_ge a M = true) by (now apply Hacc).
           split; [|split].
           ++ destruct Hin as [E|Hin]; [now left | right; now right].
           ++ intros a' E. injection E as <-. assumption.
           ++ intros x [E|Hx].
              ** injection E as <-. apply sql_ge_trans with a;
                   [|assumption]. now apply sql_gt_false_ge.
              ** now apply Hall.
      * split; [|split].
        -- destruct Hin as [E|Hin]; [now left | right; now right].
        -- exact Hacc.
        -- intros x [E|Hx]; [discriminate | now apply Hall].
      * split; [|split].
        -- destruct Hin as [E|Hin]; [right; left; assumption|].
           right. now right.
        -- intros a' E. discriminate.
        -- intros x [E|Hx]; [|now apply Hall].
           injection E as <-. now apply Hacc.
      * split; [|split].
        -- destruct Hin as [E|Hin]; [discriminate | right; now right].
        -- intros a' E. discriminate.
        -- intros x [E|Hx]; [discriminate | now apply Hall].
Qed.

Lemma sql_sum_fold_some (l : list (option Z)) (a : Z) :
  fold_left sql_sum2 l (Some a) = Some (a + zsum l)%Z.
Proof.
  revert a; induction l as [|o l IH]; intros a; simpl.
  - f_equal. lia.
  - destruct o as [z|]; simpl; rewrite IH; f_equal; lia.
Qed.

(** What [SUM] returns on a column: null when every entry is null,
    otherwise the sum of the non-null entries. *)
Lemma sql_sum_spec (l : list (option Z)) :
  sql_sum l = if forallb is_null l then None else Some (zsum l).
Proof.
  unfold sql_sum. induction l as [|o l IH]; [reflexivity|].
  cbn [fold_left forallb]. destruct o as [z|]; cbn [sql_sum2 is_null andb].
  - rewrite sql_sum_fold_some. reflexivity.
  - rewrite IH. reflexivity.
Qed.

Lemma fold_max_ge (l : list Z) (acc : Z) :
  (acc <= fold_left Z.max l acc)%Z
  /\ (forall z, In z l -> (z <= fold_left Z.max l acc)%Z)
  /\ (fold_left Z.max l acc = acc \/ In (fold_left Z.max l acc) l).
Proof.
  revert acc; induction l as [|x l IH]; intros acc; simpl.
  - split; [lia|]. split; [intros z []| now left].
  - destruct (IH (Z.max acc x)) as (H1 & H2 & H3).
    split; [lia|]. split.
    + intros z [<-|Hz]; [lia | now apply H2].
    + destruct H3 as [E|Hin]; [|right; now right].
      rewrite E. destruct (Z.max_spec acc x) as [[_ ->]|[_ ->]];
        [right; now left | now left].
Qed.

Lemma sql_max_date_spec (l : list date) :
  l <> [] ->
  In (sql_max_date l) l /\ forall z, In z l -> (z <= sql_max_date l)%Z.
Proof.
  intros Hne. unfold sql_max_date.
  destruct l as [|x l]; [congruence|]. cbn [hd].
  destruct (fold_max_ge (x :: l) x) as (H1 & H2 & H3).
  split; [|exact H2].
  destruct H3 as [E|Hin]; [rewrite E; now left | assumption].
Qed.

(** X12. Every aggregated bar of the 3D, 1W, 1M and 3M queries comes
    from a non-empty bucket of daily rows, with: volume the sum of the
    bucket's non-null volumes (null if all are null); high one of the
    bucket's highs and not below any of them; low one of its lows and
    not above any; trade date the latest date in the bucket. *)
Theorem candle_aggregates (date_trunc : TruncUnit -> date -> date)
  (db : table) (symbol : string) (from to : date) (timeframe : Timeframe)
  (agg : Agg.Row) :
  In agg (fetchCandlestickAggregated date_trunc db symbol from to timeframe)
  ->
  exists bucket,
    In bucket (candle_buckets date_trunc db symbol from to timeframe)
    /\ bucket <> []
    /\ Agg.volume agg
       = (if forallb is_null (map Db.volume bucket) then None
          else Some (zsum (map Db.volume bucket)))
    /\ (forall r h, In r bucket -> Db.high r = Some h ->
          exists H, Agg.high agg = Some H /\ sql_ge H h = true)
    /\ (forall H, Agg.high agg = Some H ->
          exists r, In r bucket /\ Db.high r = Some H)
    /\ (forall r l, In r bucket -> Db.low r = Some l ->
          exists L, Agg.low agg = Some L /\ sql_le L l = true)
    /\ (forall L, Agg.low agg = Some L ->
          exists r, In r bucket /\ Db.low r = Some L)
    /\ (forall r, In r bucket -> (Db.tradeDate r <= Agg.tradeDate agg)%Z)
    /\ (exists r, In r bucket /\ Db.tradeDate r = Agg.tradeDate agg).
Proof.
  intros Hagg. unfold fetchCandlestickAggregated in Hagg.
  apply in_map_iff in Hagg as (bucket & <- & Hb).
  exists bucket. split; [assumption|].
  pose proof Hb as Hb'. unfold candle_buckets in Hb'.
  apply buckets_spec in Hb' as [Hne _].
  split; [assumption|].
  unfold aggregate.
  cbn [Agg.volume Agg.high Agg.low Agg.tradeDate].
  split; [apply sql_sum_spec|].
  destruct (sql_max_fold (map Db.high bucket) None) as [HmaxN HmaxS].
  destruct (sql_min_fold (map Db.low bucket) None) as [HminN HminS].
  fold (sql_max (map Db.high bucket)) in HmaxN, HmaxS.
  fold (sql_min (map Db.low bucket)) in HminN, HminS.
  split; [|split; [|split; [|split; [|split]]]].
  - intros r h Hr Hh.
    assert (Hin : In (Some h) (map Db.high bucket))
      by (rewrite <- Hh; now apply in_map).
    destruct (sql_max (map Db.high bucket)) as [H|] eqn:E.
    + exists H. split; [reflexivity|].
      destruct (HmaxS H eq_refl) as (_ & _ & Hall). now apply Hall.
    + destruct HmaxN as [HN _]. destruct (HN eq_refl) as [_ Hall].
      specialize (Hall _ Hin). discriminate.
  - intros H E. destruct (HmaxS H E) as ([E'|Hin] & _ & _);
      [discriminate|].
    apply in_map_iff in Hin as (r & Hr & Hin). now exists r.
  - intros r l Hr Hl.
    assert (Hin : In (Some l) (map Db.low bucket))
      by (rewrite <- Hl; now apply in_map).
    destruct (sql_min (map Db.low bucket)) as [L|] eqn:E.
    + exists L. split; [reflexivity|].
      destruct (HminS L eq_refl) as (_ & _ & Hall). now apply Hall.
    + destruct HminN as [HN _]. destruct (HN eq_refl) as [_ Hall].
      specialize (Hall _ Hin). discriminate.
  - intros L E. destruct (HminS L E) as ([E'|Hin] & _ & _);
      [discriminate|].
    apply in_map_iff in Hin as (r & Hr & Hin). now exists r.
  - intros r Hr.
    assert (Hn : map Db.tradeDate bucket <> [])
      by (destruct bucket; [congruence | discriminate]).
    destruct (sql_max_date_spec Hn) as [_ Hall].
    apply Hall. now apply in_map.
  - assert (Hn : map Db.tradeDate bucket <> [])
      by (destruct bucket; [congruence | discriminate]).
    destruct (sql_max_date_spec Hn) as [Hin _].
    apply in_map_iff in Hin as (r & Hr & Hin). now exists r.
Qed.

Lemma candle_aggregates_witness :
  exists agg bucket,
    hd_error (fetchCandlestickAggregated trunc_same candle_table Sym.AAA
                1%Z 4%Z TF_3D) = Some agg
    /\ In bucket (candle_buckets trunc_same candle_table Sym.AAA 1%Z 4%Z
                    TF_3D)
    /\ (forall r, In r bucket -> (Db.tradeDate r <= Agg.tradeDate agg)%Z).
Proof.
  eexists.
  destruct (@candle_aggregates trunc_same candle_table Sym.AAA 1%Z 4%Z
              TF_3D
              (aggregate
                 [price_row Sym.AAA 1%Z (Some (Z2num 100))
                    (Some (Z2num 104));
                  price_row Sym.AAA 2%Z (Some (Z2num 104))
                    (Some (Z2num 90));
                  price_row Sym.AAA 3%Z (Some (Z2num 90))
                    (Some (Z2num 110))]))
    as (bucket & Hb & _ & _ & _ & _ & _ & _ & Hd & _).
  - left. reflexivity.
  - exists bucket. split; [reflexivity|]. split; assumption.
Defined.

(** ** Buckets of daily rows *)

Lemma filter_split_perm {A : Type} (p : A -> bool) (l : list A) :
  Permutation l (filter p l ++ filter (fun x => negb (p x)) l).
Proof.
  induction l as [|x l IH]; simpl; [constructor|].
  destruct (p x); simpl.
  - now apply perm_skip.
  - now apply Permutation_cons_app.
Qed.

Lemma filter_other_key {A : Type} (key : A -> Z) (k k' : Z) (l : list A) :
  k' <> k ->
  filter (fun x => (key x =? k')%Z)
    (filter (fun x => negb (key x =? k)%Z) l)
  = filter (fun x => (key x =? k')%Z) l.
Proof.
  intros Hk. induction l as [|x l IH]; simpl; [reflexivity|].
  destruct (key x =? k)%Z eqn:E; simpl.
  - apply Z.eqb_eq in E.
    assert (E' : (key x =? k')%Z = false) by (apply Z.eqb_neq; congruence).
    now rewrite E'.
  - destruct (key x =? k')%Z; [f_equal|]; exact IH.
Qed.

(** Grouping by a key splits a list: the groups of all the keys, put
    together, hold every element once. *)
Lemma group_filter_perm {A : Type} (key : A -> Z) (ks : list Z)
  (l : list A) :
  NoDup ks -> (forall x, In x l -> In (key x) ks) ->
  Permutation
    (concat (map (fun k => filter (fun x => (key x =? k)%Z) l) ks)) l.
Proof.
  revert l; induction ks as [|k ks IH]; intros l Hnd Hin.
  - destruct l as [|a l]; [constructor|]. exfalso. apply (Hin a). now left.
  - cbn [map concat]. inversion Hnd as [|k0 ks0 Hk Hnd']; subst.
    eapply Permutation_trans;
      [|apply Permutation_sym,
          (filter_split_perm (fun x => (key x =? k)%Z) l)].
    apply Permutation_app_head.
    rewrite (map_ext_in
               (fun k' => filter (fun x => (key x =? k')%Z) l)
               (fun k' => filter (fun x => (key x =? k')%Z)
                            (filter (fun x => negb (key x =? k)%Z) l))).
    + apply IH; [assumption|].
      intros x Hx. apply filter_In in Hx as [Hx Hn].
      destruct (Hin x Hx) as [E|Hks]; [|assumption].
      rewrite <- E, Z.eqb_refl in Hn. discriminate.
    + intros k' Hk'. symmetry. apply filter_other_key.
      intros ->. contradiction.
Qed.

Lemma group_keys_NoDup (keys : list Z) : NoDup (group_keys keys).
Proof.
  unfold group_keys.
  apply Permutation_NoDup with (l := nodup Z.eq_dec keys).
  - apply Permutation_sym, order_by_perm.
  - apply NoDup_nodup.
Qed.

Lemma buckets_perm (keyed : list (Z * Db.Row)) :
  Permutation (concat (buckets keyed)) (map snd keyed).
Proof.
  unfold buckets.
  rewrite <- (map_map (fun k => filter (fun p => (fst p =? k)%Z) keyed)
                (map snd)).
  rewrite <- concat_map. apply Permutation_map.
  apply group_filter_perm.
  - apply group_keys_NoDup.
  - intros x Hx. apply group_keys_In. now apply in_map.
Qed.

Lemma mapi_from_snd {A K : Type} (key : A -> nat -> K) (i : nat)
  (l : list A) :
  map snd (mapi_from (fun r row_idx => (key r row_idx, r)) i l) = l.
Proof.
  revert i; induction l as [|x l IH]; intros i; simpl; [reflexivity|].
  now rewrite IH.
Qed.

Lemma candle_keyed_snd (date_trunc : TruncUnit -> date -> date)
  (rows : list Db.Row) (timeframe : Timeframe) :
  map snd (candle_keyed date_trunc rows timeframe) = rows.
Proof.
  destruct timeframe; simpl;
    try (rewrite map_map; simpl; apply map_id).
  apply (mapi_from_snd (fun _ row_idx => Z.of_nat (row_idx / 3))).
Qed.

(** X13. For every timeframe the buckets behind the aggregated bars
    partition the symbol's daily rows of the window: put together, they
    hold each daily row exactly once. *)
Theorem candle_buckets_partition (date_trunc : TruncUnit -> date -> date)
  (db : table) (symbol : string) (from to : date) (timeframe : Timeframe) :
  Permutation
    (concat (candle_buckets date_trunc db symbol from to timeframe))
    (candle_rows db symbol from to).
Proof.
  unfold candle_buckets.
  eapply Permutation_trans; [apply buckets_perm|].
  rewrite candle_keyed_snd. apply Permutation_refl.
Qed.

Lemma mapi_from_app {A B : Type} (f : A -> nat -> B) (i : nat)
  (l1 l2 : list A) :
  mapi_from f i (l1 ++ l2)
  = mapi_from f i l1 ++ mapi_from f (i + length l1) l2.
Proof.
  revert i; induction l1 as [|x l1 IH]; intros i; simpl.
  - now rewrite Nat.add_0_r.
  - rewrite IH. do 3 f_equal. lia.
Qed.

Lemma mapi_from_fst {A K : Type} (key : nat -> K) (i : nat) (l : list A) :
  map fst (mapi_from (fun r row_idx => (key row_idx, r)) i l)
  = map key (seq i (length l)).
Proof.
  revert i; induction l as [|x l IH]; intros i; simpl; [reflexivity|].
  now rewrite IH.
Qed.

Lemma filter_keyed_none {A : Type} (key : nat -> Z) (k : Z) (i : nat)
  (l : list A) :
  (forall j, i <= j < i + length l -> key j <> k) ->
  filter (fun p => (fst p =? k)%Z)
    (mapi_from (fun r row_idx => (key row_idx, r)) i l) = [].
Proof.
  revert i; induction l as [|x l IH]; intros i H; simpl; [reflexivity|].
  assert (E : (key i =? k)%Z = false)
    by (apply Z.eqb_neq, H; simpl; lia).
  rewrite E. apply IH. intros j Hj. apply H. simpl. lia.
Qed.

Lemma filter_keyed_all {A : Type} (key : nat -> Z) (k : Z) (i : nat)
  (l : list A) :
  (forall j, i <= j < i + length l -> key j = k) ->
  map snd (filter (fun p => (fst p =? k)%Z)
             (mapi_from (fun r row_idx => (key row_idx, r)) i l)) = l.
Proof.
  revert i; induction l as [|x l IH]; intros i H; simpl; [reflexivity|].
  assert (E : (key i =? k)%Z = true)
    by (apply Z.eqb_eq, H; simpl; lia).
  rewrite E. simpl. f_equal. apply IH. intros j Hj. apply H. simpl. lia.
Qed.

Lemma div3_bounds (j k : nat) : j / 3 = k <-> 3 * k <= j < 3 * k + 3.
Proof.
  pose proof (Nat.div_mod_eq j 3) as E.
  pose proof (Nat.mod_upper_bound j 3) as U.
  lia.
Qed.

(** The rows numbered [3k], [3k+1], [3k+2] are the ones whose
    [(rn - 1) / 3] is [k]. *)
Lemma bucket_3d_rows (rows : list Db.Row) (k : nat) :
  map snd (filter (fun p => (fst p =? Z.of_nat k)%Z)
             (mapi (fun r row_idx => (Z.of_nat (row_idx / 3), r)) rows))
  = firstn 3 (skipn (3 * k) rows).
Proof.
  unfold mapi.
  rewrite <- (firstn_skipn (3 * k) rows) at 1.
  rewrite <- (firstn_skipn 3 (skipn (3 * k) rows)) at 1.
  rewrite !(mapi_from_app (fun r row_idx => (Z.of_nat (row_idx / 3), r))).
  rewrite !filter_app, !map_app.
  rewrite (filter_keyed_none (fun j => Z.of_nat (j / 3))).
  2:{ intros j Hj E. apply Nat2Z.inj in E. apply div3_bounds in E.
      rewrite length_firstn in Hj. lia. }
  assert (L1 : length (firstn (3 * k) rows) = 3 * k
               \/ skipn (3 * k) rows = []).
  { destruct (Nat.le_gt_cases (3 * k) (length rows)) as [H|H].
    - left. rewrite length_firstn. lia.
    - right. apply skipn_all2. lia. }
  destruct L1 as [L1|L1].
  - rewrite (filter_keyed_all (fun j => Z.of_nat (j / 3))).
    2:{ intros j Hj. f_equal. apply div3_bounds.
        rewrite L1 in Hj.
        pose proof (length_firstn 3 (skipn (3 * k) rows)). lia. }
    assert (L2 : length (firstn 3 (skipn (3 * k) rows)) = 3
                 \/ skipn 3 (skipn (3 * k) rows) = []).
    { destruct (Nat.le_gt_cases 3 (length (skipn (3 * k) rows)))
        as [H|H].
      - left. rewrite length_firstn. lia.
      - right. apply skipn_all2. lia. }
    destruct L2 as [L2|L2].
    + rewrite (filter_keyed_none (fun j => Z.of_nat (j / 3))).
      * simpl. now rewrite app_nil_r.
      * intros j Hj E. apply Nat2Z.inj in E. apply div3_bounds in E.
        rewrite L1, L2 in Hj. lia.
    + rewrite L2. simpl. now rewrite app_nil_r.
  - rewrite L1. simpl. reflexivity.
Qed.

Lemma sorted_unique (l1 l2 : list Z) :
  StronglySorted Z.lt l1 -> StronglySorted Z.lt l2 ->
  (forall x, In x l1 <-> In x l2) -> l1 = l2.
Proof.
  revert l2; induction l1 as [|a l1 IH]; intros l2 S1 S2 H.
  - destruct l2 as [|b l2]; [reflexivity|].
    exfalso. apply (H b). now left.
  - destruct l2 as [|b l2]; [exfalso; apply (H a); now left|].
    inversion S1 as [|a' l1' S1' F1]; subst.
    inversion S2 as [|b' l2' S2' F2]; subst.
    rewrite Forall_forall in F1, F2.
    assert (a = b).
    { destruct (proj1 (H a) (or_introl eq_refl)) as [E|Ha];
        [congruence|].
      destruct (proj2 (H b) (or_introl eq_refl)) as [E|Hb];
        [congruence|].
      specialize (F1 _ Hb). specialize (F2 _ Ha). lia. }
    subst b. f_equal. apply IH; try assumption.
    intros x. split; intros Hx.
    + destruct (proj1 (H x) (or_intror Hx)) as [E|Hx']; [|assumption].
      specialize (F1 _ Hx). lia.
    + destruct (proj2 (H x) (or_intror Hx)) as [E|Hx']; [|assumption].
      specialize (F2 _ Hx). lia.
Qed.

Lemma group_keys_sorted (keys : list Z) :
  StronglySorted Z.lt (group_keys keys).
Proof.
  assert (S : StronglySorted Z.le (group_keys keys)).
  { apply Sorted_StronglySorted; [intros a b c; apply Z.le_trans|].
    unfold group_keys.
    assert (So := @order_by_Sorted Z Z.leb (nodup Z.eq_dec keys)).
    assert (T : forall a b, Z.leb a b = false -> Z.leb b a = true)
      by (intros a b; rewrite Z.leb_gt, Z.leb_le; lia).
    specialize (So T). clear T.
    induction So as [|a l Sl IHl Hd]; [constructor|].
    constructor; [assumption|].
    destruct Hd as [|b l' Hb]; constructor. now apply Z.leb_le. }
  pose proof (group_keys_NoDup keys) as N.
  induction S as [|a l Sl IHl F]; [constructor|].
  inversion N as [|a' l' Ha Nl]; subst.
  constructor; [now apply IHl|].
  rewrite Forall_forall in *. intros x Hx.
  specialize (F x Hx).
  assert (x <> a) by (intros ->; contradiction). lia.
Qed.

Lemma seq_sorted (m : nat) :
  StronglySorted Z.lt (map Z.of_nat (seq 0 m)).
Proof.
  generalize 0. induction m as [|m IH]; intros s; simpl; constructor.
  - apply IH.
  - rewrite Forall_forall. intros x Hx.
    apply in_map_iff in Hx as (j & <- & Hj). apply in_seq in Hj. lia.
Qed.

(** [GROUP BY (rn - 1) / 3] over [n] rows: the groups 0 to ceil(n/3) - 1,
    in order. *)
Lemma group_keys_3d (n : nat) :
  group_keys (map (fun j => Z.of_nat (j / 3)) (seq 0 n))
  = map Z.of_nat (seq 0 ((n + 2) / 3)).
Proof.
  apply sorted_unique;
    [apply group_keys_sorted | apply seq_sorted |].
  intros x. rewrite group_keys_In, !in_map_iff. split.
  - intros (j & <- & Hj). apply in_seq in Hj.
    exists (j / 3). split; [reflexivity|]. apply in_seq.
    pose proof (Nat.div_mod_eq j 3). pose proof (Nat.mod_upper_bound j 3).
    pose proof (Nat.div_mod_eq (n + 2) 3).
    pose proof (Nat.mod_upper_bound (n + 2) 3). lia.
  - intros (k & <- & Hk). apply in_seq in Hk.
    exists (3 * k). split.
    + f_equal. apply div3_bounds. lia.
    + apply in_seq.
      pose proof (Nat.div_mod_eq (n + 2) 3).
      pose proof (Nat.mod_upper_bound (n + 2) 3). lia.
Qed.

(** X14. The 3-day bars cut the symbol's daily rows, listed by ascending
    trade date, into consecutive runs of three: there are ceil(n/3) bars
    for n daily rows, and bar number k aggregates exactly the rows
    numbered 3k, 3k+1 and 3k+2 (fewer in the last bar). *)
Theorem candle_buckets_3d (date_trunc : TruncUnit -> date -> date)
  (db : table) (symbol : string) (from to : date) :
  let rows := candle_rows db symbol from to in
  let bars := fetchCandlestickAggregated date_trunc db symbol from to TF_3D in
  length bars = (length rows + 2) / 3
  /\ forall k, k < length bars ->
       nth_error bars k = Some (aggregate (firstn 3 (skipn (3 * k) rows))).
Proof.
  intros rows bars.
  assert (E : candle_buckets date_trunc db symbol from to TF_3D
              = map (fun k => firstn 3 (skipn (3 * k) rows))
                  (seq 0 ((length rows + 2) / 3))).
  { unfold candle_buckets, buckets. fold rows. cbn [candle_keyed].
    unfold mapi at 2.
    rewrite (mapi_from_fst (fun j => Z.of_nat (j / 3))), group_keys_3d.
    rewrite map_map. apply map_ext. intros k. apply bucket_3d_rows. }
  unfold bars, fetchCandlestickAggregated. rewrite E.
  rewrite !length_map, length_seq. split; [reflexivity|].
  intros k Hk. rewrite map_map.
  rewrite nth_error_map.
  rewrite nth_error_nth' with (d := 0) by (rewrite length_seq; assumption).
  rewrite seq_nth by assumption. reflexivity.
Qed.

(** ** Period change *)

Lemma In_mapi_from_nth {A B : Type} (f : A -> nat -> B) (l : list A)
  (k : nat) (b : B) :
  In b (mapi_from f k l) ->
  exists i a, nth_error l i = Some a /\ b = f a (k + i).
Proof.
  revert k; induction l as [|x l IH]; intros k; simpl; [intros []|].
  intros [<-|H].
  - exists 0, x. split; [reflexivity|]. now rewrite Nat.add_0_r.
  - destruct (IH _ H) as (i & a & Hi & ->).
    exists (S i), a. split; [assumption|]. f_equal. lia.
Qed.

(** A [WHERE] clause keeps keys distinct. *)
Lemma NoDup_map_filter {Row Key : Type} (key : Row -> Key)
  (rows : list Row) (keep : Row -> bool) :
  NoDup (map key rows) -> NoDup (map key (filter keep rows)).
Proof.
  intros U. induction rows as [|r rows IH]; cbn [filter map] in *;
    [constructor|].
  inversion U as [|k ks Hr Hrows]; subst.
  destruct (keep r); cbn [map]; [|now apply IH].
  constructor; [|now apply IH].
  intros Hin. apply Hr. apply in_map_iff in Hin as (a & E & Ha).
  apply filter_In in Ha as [Ha _]. rewrite <- E. now apply in_map.
Qed.

Lemma by_tradeDate_total (r1 r2 : Db.Row) :
  by_tradeDate r1 r2 = false -> by_tradeDate r2 r1 = true.
Proof. unfold by_tradeDate. rewrite Z.leb_gt, Z.leb_le. lia. Qed.

(** The first row of a partition listed by trade date is its earliest. *)
Lemma order_by_asc_head (l : list Db.Row) (row : Db.Row)
  (rest : list Db.Row) :
  order_by by_tradeDate l = row :: rest ->
  forall r, In r l -> (Db.tradeDate row <= Db.tradeDate r)%Z.
Proof.
  intros E r Hr.
  assert (S : StronglySorted (fun a b => by_tradeDate a b = true)
                (order_by by_tradeDate l)).
  { apply Sorted_StronglySorted.
    - intros a b c. unfold by_tradeDate. rewrite !Z.leb_le. lia.
    - apply order_by_Sorted, by_tradeDate_total. }
  apply (order_by_In by_tradeDate) in Hr. rewrite E in S, Hr.
  inversion S as [|a l' _ F]; subst. rewrite Forall_forall in F.
  destruct Hr as [<-|Hr]; [lia|].
  specialize (F _ Hr). unfold by_tradeDate in F.
  now apply Z.leb_le.
Qed.

Lemma recent_dates_NoDup (db : table) (date : date) (limit : nat) :
  NoDup (recent_dates db date limit).
Proof.
  unfold recent_dates.
  set (l := order_by dates_desc _).
  assert (N : NoDup l).
  { unfold l. eapply Permutation_NoDup;
      [apply Permutation_sym, order_by_perm | apply NoDup_nodup]. }
  rewrite <- (firstn_skipn limit l) in N.
  now apply NoDup_app_remove_r in N.
Qed.

(** A row of the windowed query with a past close: its symbol has a row
    on every one of the [N + 1] recent dates, and the past close is the
    close on the earliest of them. *)
Lemma windowed_past_close (db : table) (symbols : list string)
  (date : date) (N : nat) (t : Db.Row) (past : option num) :
  unique_keys db ->
  In (t, past) (windowed db symbols date N (N + 1)) ->
  past <> None ->
  let recent := recent_dates db date (N + 1) in
  In t db
  /\ length recent = N + 1
  /\ (forall d, In d recent ->
        exists t', In t' db /\ Db.symbol t' = Db.symbol t
                   /\ Db.tradeDate t' = d)
  /\ exists t0, In t0 db /\ Db.symbol t0 = Db.symbol t
                /\ In (Db.tradeDate t0) recent
                /\ (forall d, In d recent -> (Db.tradeDate t0 <= d)%Z)
                /\ Db.closingPrice t0 = past.
Proof.
  intros U Hin Hpast recent. unfold windowed in Hin. fold recent in Hin.
  set (rows := filter (in_window recent symbols) db) in Hin.
  apply in_concat in Hin as (l & Hl & Hin).
  apply in_map_iff in Hl as (s & <- & _).
  set (P := order_by by_tradeDate
              (filter (fun t => String.eqb (Db.symbol t) s) rows)) in Hin.
  unfold lag, mapi in Hin.
  apply In_mapi_from_nth in Hin as (i & a & Hi & E).
  cbn [Nat.add] in E. injection E as -> ->.
  destruct (N <=? i) eqn:ENi; [|congruence].
  apply Nat.leb_le in ENi.
  destruct (nth_error P (i - N)) as [t0|] eqn:E0; [|congruence].
  assert (HP : forall x, In x P ->
                 In x db /\ Db.symbol x = s
                 /\ In (Db.tradeDate x) recent).
  { intros x Hx. apply order_by_In in Hx.
    apply filter_In in Hx as [Hx Hs]. apply String.eqb_eq in Hs.
    apply filter_In in Hx as [Hx Hw]. unfold in_window in Hw.
    apply andb_true_iff in Hw as [Hw _].
    apply existsb_exists in Hw as (d & Hd & Ed). apply Z.eqb_eq in Ed.
    repeat split; [assumption..|]. now rewrite Ed. }
  assert (ND : NoDup (map Db.tradeDate P)).
  { assert (NK : NoDup (map (fun r => (Db.symbol r, Db.tradeDate r)) P)).
    { eapply Permutation_NoDup.
      - apply Permutation_map, Permutation_sym, order_by_perm.
      - do 2 apply NoDup_map_filter. exact U. }
    rewrite (map_ext_in (fun r => (Db.symbol r, Db.tradeDate r))
               (fun r => (s, Db.tradeDate r))) in NK.
    - rewrite <- (map_map Db.tradeDate (fun d => (s, d))) in NK.
      now apply NoDup_map_inv in NK.
    - intros x Hx. f_equal. now apply HP. }
  assert (Hincl : incl (map Db.tradeDate P) recent).
  { intros d Hd. apply in_map_iff in Hd as (x & <- & Hx). now apply HP. }
  pose proof (NoDup_incl_length ND Hincl) as Hlen.
  rewrite length_map in Hlen.
  assert (HiP : i < length P) by (apply nth_error_Some; congruence).
  assert (Hrec : length recent <= N + 1)
    by (unfold recent, recent_dates; apply firstn_le_length).
  assert (Ei : i = N) by lia. subst i.
  rewrite Nat.sub_diag in E0.
  assert (Hback : incl recent (map Db.tradeDate P)).
  { apply NoDup_length_incl; [assumption| |assumption].
    rewrite length_map. lia. }
  assert (Ha : In a P) by (eapply nth_error_In; eassumption).
  destruct (HP a Ha) as (Hadb & Has & _).
  split; [assumption|]. split; [lia|]. split.
  - intros d Hd. apply Hback in Hd.
    apply in_map_iff in Hd as (x & <- & Hx).
    destruct (HP x Hx) as (Hxdb & Hxs & _).
    exists x. repeat split; congruence.
  - assert (H0 : In t0 P) by (eapply nth_error_In; eassumption).
    destruct (HP t0 H0) as (H0db & H0s & H0r).
    exists t0. repeat split; try congruence; try assumption.
    intros d Hd. apply Hback in Hd.
    apply in_map_iff in Hd as (x & <- & Hx).
    destruct P as [|p0 P'] eqn:EP; [discriminate|].
    injection E0 as ->. unfold P in EP.
    apply (@order_by_asc_head _ _ _ EP). apply (order_by_In by_tradeDate).
    rewrite EP. exact Hx.
Qed.

(** X15. Period change of the 1W, 1M and 3M sidebar queries, on a table
    whose (symbol, tradeDate) keys are unique.  An item carries a change
    only when the table holds N + 1 distinct trade dates up to the
    requested date and the symbol has a row on every one of them; the
    change is then 100 * (close - past) / past, where close is the
    symbol's close on the requested date and past, which is positive, its
    close on the earliest of these N + 1 dates. *)
Theorem period_change_reference (db : table) (symbols : list string)
  (tradeDate : option date) (period : HeatmapPeriod)
  (resp : Eod.Response) (item : Stock.Data) (c : num) :
  unique_keys db ->
  period <> P_1D ->
  fetchEndOfDaySymbolsByDate db symbols tradeDate period = Some resp ->
  In item (Eod.items resp) ->
  Stock.change item = Some c ->
  let N := HEATMAP_PERIOD_OFFSETS period in
  let recent := recent_dates db (Eod.dateTo resp) (N + 1) in
  length recent = N + 1
  /\ (forall d, In d recent ->
        exists t, In t db /\ Db.symbol t = Stock.symbol item
                  /\ Db.tradeDate t = d)
  /\ exists t t0 close past,
       In t db /\ Db.symbol t = Stock.symbol item
       /\ Db.tradeDate t = Eod.dateTo resp
       /\ Db.closingPrice t = Some close
       /\ In t0 db /\ Db.symbol t0 = Stock.symbol item
       /\ In (Db.tradeDate t0) recent
       /\ (forall d, In d recent -> (Db.tradeDate t0 <= d)%Z)
       /\ Db.closingPrice t0 = Some past
       /\ sql_gt past n0 = true
       /\ c = nmul (ndiv (nsub close past) past) n100.
Proof.
  intros U Hp Hf Hitem Hc N recent.
  unfold fetchEndOfDaySymbolsByDate in Hf.
  destruct (getLastTradeDate db Sym.STOCK None) as [lastDate|];
    [|discriminate].
  cbv zeta in Hf.
  set (date := match tradeDate with Some d => d | None => lastDate end)
    in Hf.
  assert (Hr : symbols <> []
               /\ resp = Eod.mkResponse symbols
                    (length (map (sidebar_item date)
                               (period_rows db symbols date N (N + 1))))
                    date date
                    (map (sidebar_item date)
                       (period_rows db symbols date N (N + 1)))).
  { destruct period; [congruence| | |];
      (destruct symbols; [discriminate|]); injection Hf as <-;
      (split; [discriminate | reflexivity]). }
  destruct Hr as [_ ->]. clear Hf.
  cbn [Eod.items] in Hitem. subst recent. cbn [Eod.dateTo].
  apply in_map_iff in Hitem as (row & <- & Hrow).
  unfold period_rows in Hrow.
  apply in_map_iff in Hrow as ([t past] & <- & Hw).
  apply order_by_In in Hw. apply filter_In in Hw as [Hw Hd].
  cbn [fst] in Hd. apply Z.eqb_eq in Hd.
  cbn [sidebar_item sidebar_row Stock.change Stock.symbol Sidebar.change
       Sidebar.symbol fst snd] in Hc |- *.
  unfold period_change in Hc.
  destruct past as [p|]; [|discriminate].
  destruct (sql_gt p n0) eqn:Ep; [|discriminate].
  destruct (Db.closingPrice t) as [close|] eqn:Ec; [|discriminate].
  injection Hc as <-.
  destruct (@windowed_past_close db symbols date N t (Some p) U Hw)
    as (Ht & Hlen & Hall & t0 & H0 & H0s & H0r & H0min & H0c);
    [discriminate|].
  split; [assumption|]. split; [assumption|].
  exists t, t0, close, p. repeat split; assumption.
Qed.

Lemma period_change_reference_witness :
  exists resp,
    fetchEndOfDaySymbolsByDate week_table [Sym.AAA] (Some 6%Z) P_1W
    = Some resp
    /\ length (recent_dates week_table (Eod.dateTo resp)
                 (HEATMAP_PERIOD_OFFSETS P_1W + 1))
       = HEATMAP_PERIOD_OFFSETS P_1W + 1.
Proof.
  assert (U : unique_keys week_table).
  { unfold unique_keys, week_table. cbn [map].
    repeat (constructor; [cbn [In]; intros H;
                          repeat (destruct H as [H|H]; [discriminate|]);
                          exact H|]).
    constructor. }
  assert (Hp : P_1W <> P_1D) by discriminate.
  eexists. split; [reflexivity|].
  refine (proj1 (@period_change_reference week_table [Sym.AAA] (Some 6%Z)
                   P_1W _ _ _ U Hp _ _ _)).
  - reflexivity.
  - left. reflexivity.
  - reflexivity.
Defined.

(** ** RSI on monotone series *)

Lemma chain_get (rel : Qc -> Qc -> bool) (values : arr) (prev : Qc)
  (i : nat) :
  chain rel prev values = true -> i < length values ->
  exists a b, get (Some (Fin prev) :: values) i = Some (Fin a)
              /\ get (Some (Fin prev) :: values) (S i) = Some (Fin b)
              /\ rel a b = true.
Proof.
  revert prev i; induction values as [|x rest IH]; intros prev i H Hi;
    [simpl in Hi; lia|].
  cbn [chain] in H. destruct x as [[b| | |]|]; try discriminate.
  apply andb_true_iff in H as [Hab Hrest].
  destruct i as [|i].
  - exists prev, b. repeat split. assumption.
  - destruct (IH b i Hrest) as (a' & b' & E & E' & Hr);
      [simpl in Hi; lia|].
    exists a', b'. repeat split; assumption.
Qed.

Lemma chained_get (rel : Qc -> Qc -> bool) (values : arr) (i : nat) :
  chained rel values = true -> S i < length values ->
  exists a b, get values i = Some (Fin a)
              /\ get values (S i) = Some (Fin b)
              /\ rel a b = true.
Proof.
  intros H Hi. destruct values as [|x rest]; [simpl in Hi; lia|].
  cbn [chained] in H. destruct x as [[a| | |]|]; try discriminate.
  apply chain_get; [assumption | simpl in Hi; lia].
Qed.

Lemma Qc_plus_pos (a b : Qc) : (0 <= a)%Qc -> (0 < b)%Qc -> (0 < a + b)%Qc.
Proof.
  unfold Qcle, Qclt. intros Ha Hb. rewrite this_plus.
  change (this 0%Qc) with 0%Q in *. lra.
Qed.

Lemma Qc_div_pos (a b : Qc) : (0 < a)%Qc -> (0 < b)%Qc -> (0 < a / b)%Qc.
Proof.
  unfold Qclt. intros Ha Hb. rewrite Qc_div_this.
  apply Qlt_shift_div_l; [assumption|]. now rewrite Qmult_0_l.
Qed.

Lemma Qc_pos_nonzero (a : Qc) : (0 < a)%Qc -> a <> 0%Qc.
Proof. intros H ->. now apply Qclt_not_eq in H. Qed.

(** A move that is not down: some gain, no loss. *)
Lemma loss_zero (a b : Qc) :
  negb (Qcltb b a) = true ->
  (if nlt (Fin (b - a)) n0 then nneg (Fin (b - a)) else n0) = n0.
Proof.
  intros H. apply negb_true_iff, Qcltb_false_le in H.
  unfold n0. cbn [nlt].
  destruct (Qcltb (b - a) 0) eqn:E; [|reflexivity].
  apply Qcltb_true in E. exfalso. revert H E. unfold Qcle, Qclt.
  rewrite this_minus. change (this 0%Qc) with 0%Q. lra.
Qed.

(** A move down: no gain, a positive loss. *)
Lemma gain_zero (a b : Qc) :
  Qcltb b a = true ->
  (if ngt (Fin (b - a)) n0 then Fin (b - a) else n0) = n0.
Proof.
  intros H. apply Qcltb_true in H.
  unfold ngt, n0. cbn [nlt].
  destruct (Qcltb 0 (b - a)) eqn:E; [|reflexivity].
  apply Qcltb_true in E. exfalso. revert H E. unfold Qclt.
  rewrite this_minus. change (this 0%Qc) with 0%Q. lra.
Qed.

Lemma loss_pos (a b : Qc) :
  Qcltb b a = true ->
  exists l, (if nlt (Fin (b - a)) n0 then nneg (Fin (b - a)) else n0) = Fin l
            /\ (0 < l)%Qc.
Proof.
  intros H. apply Qcltb_true in H.
  assert (Hd : (b - a < 0)%Qc).
  { revert H. unfold Qclt. rewrite this_minus.
    change (this 0%Qc) with 0%Q. lra. }
  unfold n0. cbn [nlt]. apply Qcltb_true in Hd as Hd'. rewrite Hd'.
  exists (- (b - a))%Qc. split; [reflexivity|].
  revert Hd. unfold Qclt. rewrite this_opp.
  change (this 0%Qc) with 0%Q. lra.
Qed.

Lemma wilder_fin (avg x : Qc) (period : nat) :
  0 < period ->
  ndiv (nadd (nmul (Fin avg) (nsub (nat2num period) n1)) (Fin x))
    (nat2num period)
  = Fin ((avg * (nat2Qc period - nat2Qc 1) + x) / nat2Qc period)%Qc.
Proof.
  intros Hp. change n1 with (Fin (nat2Qc 1)). unfold nat2num at 1.
  cbn [nsub nmul nadd]. now rewrite ndiv_fin.
Qed.

Lemma rsi_seed_loop_rising (values : arr) (n k : nat) (g : Qc) :
  never_falls values = true ->
  0 < k -> k + n <= length values ->
  exists g', rsi_seed_loop values k n (Fin g) (Fin 0%Qc)
             = (Fin g', Fin 0%Qc).
Proof.
  intros Hr. revert k g; induction n as [|n IH]; intros k g Hk Hlen.
  - now exists g.
  - cbn [rsi_seed_loop].
    destruct (@chained_get _ values (k - 1) Hr) as (a & b & E & E' & Hab);
      [lia|].
    replace (S (k - 1)) with k in E' by lia. rewrite E, E'.
    cbn [nsub]. rewrite (loss_zero _ _ Hab).
    destruct (gain_nonneg (b - a)) as (dg & -> & _).
    unfold n0. cbn [nadd].
    replace (0 + 0)%Qc with 0%Qc by ring.
    apply IH; lia.
Qed.

Lemma rsi_out_no_loss (ag : Qc) : rsi_out (Fin ag) (Fin 0%Qc) = n100.
Proof. reflexivity. Qed.

Lemma rsi_step_rising (values : arr) (period i : nat)
  (st : option num * option num) :
  never_falls values = true -> 0 < period ->
  period <= i -> i < length values ->
  (i = period \/ exists g, st = (Some (Fin g), Some (Fin 0%Qc))) ->
  exists g', rsi_step values period i st
             = ((Some (Fin g'), Some (Fin 0%Qc)), Some n100).
Proof.
  intros Hr Hp Hpi Hi Hst. destruct st as [avgGain avgLoss].
  unfold rsi_step.
  destruct (@chained_get _ values (i - 1) Hr) as (a & b & E & E' & Hab);
    [lia|].
  replace (S (i - 1)) with i in E' by lia. rewrite E, E'.
  cbn [nsub]. rewrite (loss_zero _ _ Hab).
  destruct (gain_nonneg (b - a)) as (dg & -> & _).
  assert (Elt : (i <? period) = false) by (apply Nat.ltb_ge; lia).
  rewrite Elt.
  destruct (i =? period) eqn:Eeq.
  - apply Nat.eqb_eq in Eeq. subst i.
    destruct (@rsi_seed_loop_rising values period 1 0%Qc Hr)
      as (g & Hs); try lia.
    unfold n0. rewrite Hs. rewrite !ndiv_fin by assumption.
    replace (0 / nat2Qc period)%Qc with 0%Qc by (unfold Qcdiv; ring).
    exists (g / nat2Qc period)%Qc. reflexivity.
  - destruct Hst as [->|(g & Hst)];
      [rewrite Nat.eqb_refl in Eeq; discriminate|].
    injection Hst as -> ->. unfold n0.
    rewrite !wilder_fin by assumption.
    replace ((0 * (nat2Qc period - nat2Qc 1) + 0) / nat2Qc period)%Qc
      with 0%Qc by (unfold Qcdiv; ring).
    eexists. reflexivity.
Qed.

Lemma rsi_state_rising (values : arr) (period k : nat) :
  never_falls values = true -> 0 < period ->
  period <= k -> k < length values ->
  exists g, state_at (rsi_step values period) 1 k (None, None)
            = (Some (Fin g), Some (Fin 0%Qc)).
Proof.
  intros Hr Hp. induction k as [|k IH]; intros Hk Hlen; [lia|].
  cbn [state_at]. replace (1 + k) with (S k) by lia.
  destruct (@rsi_step_rising values period (S k)
              (state_at (rsi_step values period) 1 k (None, None))
              Hr Hp) as (g & ->); try lia.
  - destruct (Nat.eq_dec (S k) period) as [Ek|Ek]; [now left | right].
    apply IH; lia.
  - now exists g.
Qed.

(** X16. On a series of finite closes that never falls (each close is at
    least the one before), RSI reads 100 at every index from [period]
    on. *)
Theorem rsi_rising_saturates (values : arr) (period i : nat) :
  never_falls values = true -> 0 < period ->
  period <= i -> i < length values ->
  nth i (rsi values period) None = Some n100.
Proof.
  intros Hr Hp Hpi Hi.
  destruct i as [|i]; [lia|].
  rewrite rsi_nth by lia. rewrite loop_nth by lia.
  replace (1 + i) with (S i) by lia.
  destruct (@rsi_step_rising values period (S i)
              (state_at (rsi_step values period) 1 i (None, None))
              Hr Hp) as (g & ->); try lia; [|reflexivity].
  destruct (Nat.eq_dec (S i) period) as [Ek|Ek]; [now left | right].
  apply rsi_state_rising; auto; lia.
Qed.

Lemma rsi_rising_saturates_witness :
  nth 15 (rsi (closes [1; 2; 3; 4; 5; 6; 7; 8; 9; 10;
                       11; 12; 13; 14; 15; 16]%Z) 14) None
  = Some n100.
Proof.
  apply rsi_rising_saturates.
  - vm_compute. reflexivity.
  - lia.
  - lia.
  - simpl. lia.
Defined.

Lemma rsi_seed_loop_falling (values : arr) (n k : nat) (l : Qc) :
  always_falls values = true ->
  0 < k -> k + n <= length values ->
  (0 <= l)%Qc -> ((0 < l)%Qc \/ 0 < n) ->
  exists l', rsi_seed_loop values k n (Fin 0%Qc) (Fin l)
             = (Fin 0%Qc, Fin l')
             /\ (0 < l')%Qc.
Proof.
  intros Hf. revert k l; induction n as [|n IH]; intros k l Hk Hlen Hl Hpos.
  - exists l. split; [reflexivity|]. destruct Hpos; [assumption | lia].
  - cbn [rsi_seed_loop].
    destruct (@chained_get _ values (k - 1) Hf) as (a & b & E & E' & Hab);
      [lia|].
    replace (S (k - 1)) with k in E' by lia. rewrite E, E'.
    cbn [nsub]. rewrite (gain_zero _ _ Hab).
    destruct (loss_pos _ _ Hab) as (dl & -> & Hdl).
    unfold n0. cbn [nadd].
    replace (0 + 0)%Qc with 0%Qc by ring.
    assert (Hl' : (0 < l + dl)%Qc) by (now apply Qc_plus_pos).
    apply IH; try lia; [now apply Qclt_le_weak | now left].
Qed.

Lemma rsi_out_no_gain (al : Qc) :
  (0 < al)%Qc -> rsi_out (Fin 0%Qc) (Fin al) = n0.
Proof.
  intros Hl. apply Qc_pos_nonzero in Hl.
  assert (E : Qceqb al 0 = false) by (now apply Qceqb_false).
  unfold rsi_out. cbn [neqb]. unfold n0 at 1. cbn [neqb]. rewrite E.
  unfold ndiv at 2. rewrite E.
  change n1 with (Fin (nat2Qc 1)). cbn [nadd].
  replace (nat2Qc 1 + 0 / al)%Qc with (nat2Qc 1)
    by (unfold Qcdiv; ring).
  change (ndiv n100 (Fin (nat2Qc 1)))
    with (ndiv (Fin (nat2Qc 100)) (nat2num 1)).
  rewrite ndiv_fin by lia. unfold n100, nat2num. cbn [nsub].
  unfold n0. f_equal.
Qed.

Lemma rsi_step_falling (values : arr) (period i : nat)
  (st : option num * option num) :
  always_falls values = true -> 0 < period ->
  period <= i -> i < length values ->
  (i = period
   \/ exists l, st = (Some (Fin 0%Qc), Some (Fin l)) /\ (0 < l)%Qc) ->
  exists l', rsi_step values period i st
             = ((Some (Fin 0%Qc), Some (Fin l')), Some n0)
             /\ (0 < l')%Qc.
Proof.
  intros Hf Hp Hpi Hi Hst. destruct st as [avgGain avgLoss].
  unfold rsi_step.
  destruct (@chained_get _ values (i - 1) Hf) as (a & b & E & E' & Hab);
    [lia|].
  replace (S (i - 1)) with i in E' by lia. rewrite E, E'.
  cbn [nsub]. rewrite (gain_zero _ _ Hab).
  destruct (loss_pos _ _ Hab) as (dl & -> & Hdl).
  assert (Elt : (i <? period) = false) by (apply Nat.ltb_ge; lia).
  rewrite Elt.
  assert (Hpp : (0 < nat2Qc period)%Qc) by (now apply nat2Qc_pos).
  destruct (i =? period) eqn:Eeq.
  - apply Nat.eqb_eq in Eeq. subst i.
    destruct (@rsi_seed_loop_falling values period 1 0%Qc Hf)
      as (l & Hs & Hl); try lia; [apply Qcle_refl|].
    unfold n0. rewrite Hs. rewrite !ndiv_fin by assumption.
    replace (0 / nat2Qc period)%Qc with 0%Qc by (unfold Qcdiv; ring).
    assert (Hl' : (0 < l / nat2Qc period)%Qc) by (now apply Qc_div_pos).
    exists (l / nat2Qc period)%Qc. split; [|assumption].
    cbv iota beta. now rewrite rsi_out_no_gain.
  - destruct Hst as [->|(l & Hst & Hl)];
      [rewrite Nat.eqb_refl in Eeq; discriminate|].
    injection Hst as -> ->. unfold n0.
    rewrite !wilder_fin by assumption.
    replace ((0 * (nat2Qc period - nat2Qc 1) + 0) / nat2Qc period)%Qc
      with 0%Qc by (unfold Qcdiv; ring).
    assert (Hl' : (0 < (l * (nat2Qc period - nat2Qc 1) + dl)
                       / nat2Qc period)%Qc).
    { apply Qc_div_pos; [|assumption]. apply Qc_plus_pos; [|assumption].
      apply Qc_mult_nonneg; [now apply Qclt_le_weak|].
      destruct period as [|p]; [lia|].
      rewrite nat2Qc_S, nat2Qc_1.
      replace (nat2Qc p + 1 - 1)%Qc with (nat2Qc p) by ring.
      apply nat2Qc_nonneg. }
    eexists. split; [|exact Hl'].
    cbv iota beta. now rewrite rsi_out_no_gain.
Qed.

Lemma rsi_state_falling (values : arr) (period k : nat) :
  always_falls values = true -> 0 < period ->
  period <= k -> k < length values ->
  exists l, state_at (rsi_step values period) 1 k (None, None)
            = (Some (Fin 0%Qc), Some (Fin l))
            /\ (0 < l)%Qc.
Proof.
  intros Hf Hp. induction k as [|k IH]; intros Hk Hlen; [lia|].
  cbn [state_at]. replace (1 + k) with (S k) by lia.
  destruct (@rsi_step_falling values period (S k)
              (state_at (rsi_step values period) 1 k (None, None))
              Hf Hp) as (l & -> & Hl); try lia.
  - destruct (Nat.eq_dec (S k) period) as [Ek|Ek]; [now left | right].
    apply IH; lia.
  - now exists l.
Qed.

(** X17. On a series of finite closes that always falls (each close is
    below the one before), RSI reads 0 at every index from [period]
    on. *)
Theorem rsi_falling_bottoms (values : arr) (period i : nat) :
  always_falls values = true -> 0 < period ->
  period <= i -> i < length values ->
  nth i (rsi values period) None = Some n0.
Proof.
  intros Hf Hp Hpi Hi.
  destruct i as [|i]; [lia|].
  rewrite rsi_nth by lia. rewrite loop_nth by lia.
  replace (1 + i) with (S i) by lia.
  destruct (@rsi_step_falling values period (S i)
              (state_at (rsi_step values period) 1 i (None, None))
              Hf Hp) as (l & -> & _); try lia; [|reflexivity].
  destruct (Nat.eq_dec (S i) period) as [Ek|Ek]; [now left | right].
  apply rsi_state_falling; auto; lia.
Qed.

Lemma rsi_falling_bottoms_witness :
  nth 15 (rsi (closes [16; 15; 14; 13; 12; 11; 10; 9; 8; 7;
                       6; 5; 4; 3; 2; 1]%Z) 14) None
  = Some n0.
Proof.
  apply rsi_falling_bottoms.
  - vm_compute. reflexivity.
  - lia.
  - lia.
  - simpl. lia.
Defined.

(** ** RefreshJob: rows of later dates *)

Section RefreshLater.
Variable sqrt : num -> num.

Lemma filter_none {A : Type} (p : A -> bool) (l : list A) :
  (forall x, In x l -> p x = false) -> filter p l = [].
Proof.
  induction l as [|x l IH]; intros H; simpl; [reflexivity|].
  rewrite (H x) by (now left). apply IH. intros y Hy. apply H. now right.
Qed.

(** The bars read for a date do not include rows of later dates. *)
Lemma getTradingIndicators_later (db extra : table) (symbol : string)
  (tradeDate fromDate : date) :
  (forall r, In r extra -> (tradeDate < Db.tradeDate r)%Z) ->
  getTradingIndicators sqrt (db ++ extra) symbol tradeDate fromDate
  = getTradingIndicators sqrt db symbol tradeDate fromDate.
Proof.
  intros H. unfold getTradingIndicators, findMany_bars.
  rewrite filter_app, (@filter_none _ _ extra), app_nil_r; [reflexivity|].
  intros r Hr. specialize (H r Hr). unfold in_lookback.
  assert (E : (Db.tradeDate r <=? tradeDate)%Z = false)
    by (apply Z.leb_gt; lia).
  rewrite E. apply andb_false_r.
Qed.

(** X18. Rows of later trade dates play no part in a refresh: with such
    rows appended to the table, the run for [tradeDate] writes the same
    indicators into the same rows, reports the same count, and leaves
    the later rows as they are. *)
Theorem refresh_ignores_later_rows (db extra : table) (tradeDate : date)
  (marketType : string) :
  (forall r, In r extra -> (tradeDate < Db.tradeDate r)%Z) ->
  exists (db1 : table) (updated : nat),
    updateTradingDayIndicators sqrt db tradeDate marketType
    = Some (db1, updated)
    /\ updateTradingDayIndicators sqrt (db ++ extra) tradeDate marketType
       = Some (db1 ++ extra, updated).
Proof.
  intros H. eexists. eexists. split; [apply update_spec|].
  rewrite update_spec.
  assert (Es : symbols_on (db ++ extra) tradeDate marketType
               = symbols_on db tradeDate marketType).
  { unfold symbols_on.
    rewrite filter_app, (@filter_none _ _ extra), app_nil_r; [reflexivity|].
    intros r Hr. specialize (H r Hr). unfold on_date.
    assert (E : (Db.tradeDate r =? tradeDate)%Z = false)
      by (apply Z.eqb_neq; lia).
    now rewrite E. }
  rewrite Es, map_app.
  set (symbols := symbols_on db tradeDate marketType).
  assert (E1 : map (refreshed sqrt (db ++ extra) tradeDate symbols) db
               = map (refreshed sqrt db tradeDate symbols) db).
  { apply map_ext. intros r. unfold refreshed.
    now rewrite getTradingIndicators_later. }
  assert (E2 : map (refreshed sqrt (db ++ extra) tradeDate symbols) extra
               = extra).
  { transitivity (map (fun r : Db.Row => r) extra); [|apply map_id].
    apply map_ext_in. intros r Hr.
    specialize (H r Hr). unfold refreshed.
    assert (E : (Db.tradeDate r =? tradeDate)%Z = false)
      by (apply Z.eqb_neq; lia).
    now rewrite E. }
  now rewrite E1, E2.
Qed.

End RefreshLater.

Lemma refresh_ignores_later_rows_witness :
  exists (db1 : table) (updated : nat),
    updateTradingDayIndicators (fun x => x) (firstn 2 candle_table) 2%Z
      Sym.STOCK
    = Some (db1, updated)
    /\ updateTradingDayIndicators (fun x => x)
         (firstn 2 candle_table ++ skipn 2 candle_table) 2%Z Sym.STOCK
       = Some (db1 ++ skipn 2 candle_table, updated).
Proof.
  apply (@refresh_ignores_later_rows (fun x => x) (firstn 2 candle_table)
           (skipn 2 candle_table) 2%Z Sym.STOCK).
  intros r Hr. cbn in Hr.
  destruct Hr as [<-|[<-|[]]]; reflexivity.
Defined.

(** ** Candlesticks: order of the bars *)

Lemma StronglySorted_map {A B : Type} (f : A -> B) (R : A -> A -> Prop)
  (R' : B -> B -> Prop) (l : list A) :
  (forall a b, R a b -> R' (f a) (f b)) ->
  StronglySorted R l -> StronglySorted R' (map f l).
Proof.
  intros H S. induction S as [|a l S IH F]; simpl; constructor;
    [assumption|].
  rewrite Forall_forall in *. intros y Hy.
  apply in_map_iff in Hy as (x & <- & Hx). auto.
Qed.

Lemma StronglySorted_mapi_from {A B : Type} (f : A -> nat -> B)
  (R : A -> A -> Prop) (R' : B -> B -> Prop) (l : list A) (k : nat) :
  (forall a b i j, R a b -> i <= j -> R' (f a i) (f b j)) ->
  StronglySorted R l -> StronglySorted R' (mapi_from f k l).
Proof.
  intros H S. revert k. induction S as [|a l S IH F]; intros k; simpl;
    constructor; [apply IH|].
  rewrite Forall_forall in *. intros y Hy.
  apply In_mapi_from in Hy as (x & i & Hx & Hi & ->).
  apply H; [auto | lia].
Qed.

Lemma StronglySorted_either {A : Type} (R : A -> A -> Prop) (l : list A)
  (p q : A) :
  StronglySorted R l -> In p l -> In q l -> p = q \/ R p q \/ R q p.
Proof.
  intros S. induction S as [|a l S IH F]; intros Hp Hq; [contradiction|].
  rewrite Forall_forall in F.
  destruct Hp as [<-|Hp], Hq as [<-|Hq]; auto.
Qed.

Lemma StronglySorted_map_keys {B : Type} (f : Z -> B)
  (R : B -> B -> Prop) (keys : list Z) :
  StronglySorted Z.lt keys ->
  (forall k1 k2, In k1 keys -> In k2 keys -> (k1 < k2)%Z ->
                 R (f k1) (f k2)) ->
  StronglySorted R (map f keys).
Proof.
  intros S. induction S as [|a l S IH F]; intros H; simpl; constructor.
  - apply IH. intros k1 k2 H1 H2. apply H; now right.
  - rewrite Forall_forall in *. intros y Hy.
    apply in_map_iff in Hy as (x & <- & Hx).
    apply H; [now left | now right | auto].
Qed.

Lemma last_In {A : Type} (l : list A) (d : A) : l <> [] -> In (last l d) l.
Proof.
  induction l as [|a l IH]; intros Hne; [congruence|].
  destruct l as [|b l']; [now left|].
  right. apply IH. discriminate.
Qed.

Lemma StronglySorted_last {A : Type} (f : A -> Z) (l : list A) (d x : A) :
  StronglySorted Z.le (map f l) -> In x l -> (f x <= f (last l d))%Z.
Proof.
  induction l as [|a l IH]; intros S Hx; [contradiction|].
  cbn [map] in S. inversion S as [|a' l' S' F]; subst.
  rewrite Forall_forall in F.
  destruct l as [|b l']; [destruct Hx as [<-|[]]; simpl; lia|].
  destruct Hx as [<-|Hx].
  - apply F. apply in_map. apply (@last_In _ (b :: l') d). discriminate.
  - apply IH; assumption.
Qed.

Lemma candle_rows_sorted (db : table) (symbol : string) (from to : date) :
  StronglySorted date_le (candle_rows db symbol from to).
Proof.
  unfold candle_rows.
  assert (S : StronglySorted (fun a b => by_tradeDate a b = true)
                (order_by by_tradeDate
                   (filter (in_lookback symbol from to) db))).
  { apply Sorted_StronglySorted.
    - intros a b c. unfold by_tradeDate. rewrite !Z.leb_le. lia.
    - apply order_by_Sorted, by_tradeDate_total. }
  rewrite <- (map_id (order_by _ _)).
  apply (@StronglySorted_map _ _ (fun r : Db.Row => r)
           (fun a b => by_tradeDate a b = true) date_le); [|exact S].
  intros a b. unfold by_tradeDate, date_le. now rewrite Z.leb_le.
Qed.

Section CandleOrder.
Variable date_trunc : TruncUnit -> date -> date.
Variable yearBefore : date -> date.
(** Truncation to a week, month or quarter keeps the order of dates. *)
Hypothesis date_trunc_mono :
  forall u d1 d2, (d1 <= d2)%Z -> (date_trunc u d1 <= date_trunc u d2)%Z.

Lemma candle_keyed_sorted (rows : list Db.Row) (timeframe : Timeframe) :
  StronglySorted date_le rows ->
  StronglySorted keyed_le (candle_keyed date_trunc rows timeframe).
Proof.
  intros S.
  assert (T : forall truncUnit,
            StronglySorted keyed_le
              (map (fun r => (date_trunc truncUnit (Db.tradeDate r), r))
                 rows)).
  { intros u. apply (@StronglySorted_map _ _ _ date_le keyed_le);
      [|exact S].
    intros a b Hab. split; cbn [fst snd]; [|exact Hab].
    now apply date_trunc_mono. }
  destruct timeframe; cbn [candle_keyed]; try apply T.
  unfold mapi.
  apply (@StronglySorted_mapi_from _ _ _ date_le keyed_le); [|exact S].
  intros a b i j Hab Hij. split; cbn [fst snd]; [|exact Hab].
  apply inj_le. now apply Nat.Div0.div_le_mono.
Qed.

(** Rows of a later bucket are not dated before rows of an earlier one. *)
Lemma buckets_dates (keyed : list (Z * Db.Row)) (k1 k2 : Z)
  (r1 r2 : Db.Row) :
  StronglySorted keyed_le keyed -> (k1 < k2)%Z ->
  In r1 (map snd (filter (fun p => (fst p =? k1)%Z) keyed)) ->
  In r2 (map snd (filter (fun p => (fst p =? k2)%Z) keyed)) ->
  (Db.tradeDate r1 <= Db.tradeDate r2)%Z.
Proof.
  intros S Hk H1 H2.
  apply in_map_iff in H1 as (p1 & <- & H1).
  apply in_map_iff in H2 as (p2 & <- & H2).
  apply filter_In in H1 as [H1 E1]. apply filter_In in H2 as [H2 E2].
  apply Z.eqb_eq in E1. apply Z.eqb_eq in E2.
  destruct (@StronglySorted_either _ _ _ _ _ S H1 H2)
    as [E|[[_ H]|[H _]]].
  - subst p2. lia.
  - exact H.
  - lia.
Qed.

Lemma aggregated_dates_sorted (db : table) (symbol : string)
  (from to : date) (timeframe : Timeframe) :
  StronglySorted Z.le
    (map Agg.tradeDate
       (fetchCandlestickAggregated date_trunc db symbol from to timeframe)).
Proof.
  unfold fetchCandlestickAggregated, candle_buckets, buckets.
  set (keyed := candle_keyed date_trunc (candle_rows db symbol from to)
                  timeframe).
  assert (S : StronglySorted keyed_le keyed)
    by (apply candle_keyed_sorted, candle_rows_sorted).
  rewrite !map_map.
  apply StronglySorted_map_keys; [apply group_keys_sorted|].
  intros k1 k2 H1 H2 Hk.
  unfold aggregate. cbn [Agg.tradeDate].
  set (b1 := map snd (filter (fun p => (fst p =? k1)%Z) keyed)).
  set (b2 := map snd (filter (fun p => (fst p =? k2)%Z) keyed)).
  assert (N : forall k, In k (group_keys (map fst keyed)) ->
                map Db.tradeDate
                  (map snd (filter (fun p => (fst p =? k)%Z) keyed))
                <> []).
  { intros k Hin. rewrite group_keys_In in Hin.
    apply in_map_iff in Hin as (p & Ep & Hp).
    assert (Hf : In p (filter (fun p => (fst p =? k)%Z) keyed))
      by (apply filter_In; split; [assumption | now apply Z.eqb_eq]).
    apply (in_map snd) in Hf. apply (in_map Db.tradeDate) in Hf.
    intros E. rewrite E in Hf. contradiction. }
  destruct (sql_max_date_spec (N k1 H1)) as [M1 _].
  destruct (sql_max_date_spec (N k2 H2)) as [M2 _].
  fold b1 in M1. fold b2 in M2.
  apply in_map_iff in M1 as (r1 & <- & M1).
  apply in_map_iff in M2 as (r2 & <- & M2).
  apply (@buckets_dates keyed k1 k2); assumption.
Qed.

(** X19. With a date truncation that keeps the order of dates, the bars
    of a candlestick response come in ascending order of trade date for
    every timeframe.  A response without bars has null [dateFrom] and
    [dateTo]; otherwise [dateFrom] is the trade date of one of the bars
    and no bar is earlier, and [dateTo] is the trade date of one of the
    bars and no bar is later. *)
Theorem candlestick_ascending (db : table) (symbol : string)
  (dateFrom dateTo : option date) (timeframe : Timeframe)
  (resp : Candle.Response) :
  fetchCandlestick date_trunc yearBefore db symbol dateFrom dateTo timeframe
  = Some resp ->
  StronglySorted Z.le (map Stock.tradeDate (Candle.items resp))
  /\ (Candle.items resp = [] ->
      Candle.dateFrom resp = None /\ Candle.dateTo resp = None)
  /\ (Candle.items resp <> [] ->
      exists earliest latest,
        In earliest (Candle.items resp)
        /\ In latest (Candle.items resp)
        /\ Candle.dateFrom resp = Some (Stock.tradeDate earliest)
        /\ Candle.dateTo resp = Some (Stock.tradeDate latest)
        /\ forall item, In item (Candle.items resp) ->
             (Stock.tradeDate earliest <= Stock.tradeDate item
              <= Stock.tradeDate latest)%Z).
Proof.
  intros Hresp. unfold fetchCandlestick in Hresp.
  destruct (getLastTradeDate db Sym.STOCK None) as [lastDate|];
    [|discriminate].
  injection Hresp as <-.
  cbn [Candle.items Candle.dateFrom Candle.dateTo].
  set (to := match dateTo with Some d => d | None => lastDate end).
  set (from := match dateFrom with Some d => d | None => yearBefore to end).
  set (items := match timeframe with
                | TF_1D => map rowToStockData (candle_rows db symbol from to)
                | _ => map (fun r => aggRowToStockData r symbol)
                         (fetchCandlestickAggregated date_trunc db symbol
                            from to timeframe)
                end).
  assert (S : StronglySorted Z.le (map Stock.tradeDate items)).
  { assert (A : StronglySorted Z.le
                  (map Stock.tradeDate
                     (map (fun r => aggRowToStockData r symbol)
                        (fetchCandlestickAggregated date_trunc db symbol
                           from to timeframe)))).
    { rewrite map_map. cbn [aggRowToStockData Stock.tradeDate].
      apply aggregated_dates_sorted. }
    unfold items. destruct timeframe; try exact A.
    rewrite map_map. cbn [rowToStockData Stock.tradeDate].
    apply (@StronglySorted_map _ _ _ date_le Z.le);
      [auto | apply candle_rows_sorted]. }
  split; [exact S|].
  destruct items as [|first rest] eqn:E.
  - split; [intros _; split; reflexivity | intros H; now contradiction H].
  - split; [discriminate|]. intros _.
    exists first, (last (first :: rest) first).
    split; [now left|].
    split; [apply last_In; discriminate|].
    split; [reflexivity|]. split; [reflexivity|].
    intros item Hin. split.
    + cbn [map] in S. inversion S as [|a l S' F]; subst.
      rewrite Forall_forall in F.
      destruct Hin as [<-|Hin]; [lia|]. apply F. now apply in_map.
    + now apply StronglySorted_last.
Qed.

End CandleOrder.

(** The four daily bars of AAA in 3-day buckets: two bars, dated 3 and
    4. *)
Lemma candlestick_ascending_witness :
  exists resp,
    fetchCandlestick trunc_same minus_365 candle_table Sym.AAA None None
      TF_3D = Some resp
    /\ map Stock.tradeDate (Candle.items resp) = [3%Z; 4%Z]
    /\ StronglySorted Z.le (map Stock.tradeDate (Candle.items resp))
    /\ (Candle.items resp = [] ->
        Candle.dateFrom resp = None /\ Candle.dateTo resp = None)
    /\ (Candle.items resp <> [] ->
        exists earliest latest,
          In earliest (Candle.items resp)
          /\ In latest (Candle.items resp)
          /\ Candle.dateFrom resp = Some (Stock.tradeDate earliest)
          /\ Candle.dateTo resp = Some (Stock.tradeDate latest)
          /\ forall item, In item (Candle.items resp) ->
               (Stock.tradeDate earliest <= Stock.tradeDate item
                <= Stock.tradeDate latest)%Z).
Proof.
  eexists. split; [reflexivity|]. split; [vm_compute; reflexivity|].
  refine (@candlestick_ascending trunc_same minus_365 _
            candle_table Sym.AAA None None TF_3D _ _).
  - intros u d1 d2 H. exact H.
  - reflexivity.
Defined.

(** ** End-of-day rows of chosen symbols *)

Lemma by_symbol_tradeDate_total (r1 r2 : Db.Row) :
  by_symbol_tradeDate r1 r2 = false -> by_symbol_tradeDate r2 r1 = true.
Proof.
  unfold by_symbol_tradeDate.
  rewrite (String.compare_antisym (Db.symbol r1) (Db.symbol r2)).
  destruct (String.compare (Db.symbol r2) (Db.symbol r1)); cbn [CompOpp];
    try congruence.
  rewrite Z.leb_gt, Z.leb_le. lia.
Qed.

Lemma symbol_in_In (symbols : list string) (r : Db.Row) :
  symbol_in symbols r = true <-> In (Db.symbol r) symbols.
Proof.
  unfold symbol_in. rewrite existsb_exists. split.
  - intros (s & Hs & E). apply String.eqb_eq in E. now rewrite E.
  - intros H. exists (Db.symbol r). split; [assumption|].
    apply String.eqb_refl.
Qed.

(** X20. What [fetchEndOfDaySymbols] returns: the rows of the table
    dated within [dateFrom, dateTo] whose symbol is in the list, rows of
    every symbol when the list is omitted or empty, each as often as the
    table holds it, ordered by symbol and then trade date; each bound
    defaults to the latest STOCK trade date. *)
Theorem eod_symbols_rows (db : table) (symbols : option (list string))
  (dateFrom dateTo : option date) (resp : Eod.Response) :
  fetchEndOfDaySymbols db symbols dateFrom dateTo = Some resp ->
  exists (lastDate : date) (rows : list Db.Row),
    getLastTradeDate db Sym.STOCK None = Some lastDate
    /\ Eod.symbols resp = match symbols with Some l => l | None => [] end
    /\ Eod.dateFrom resp
       = match dateFrom with Some d => d | None => lastDate end
    /\ Eod.dateTo resp
       = match dateTo with Some d => d | None => lastDate end
    /\ Eod.items resp = map rowToStockData rows
    /\ Eod.count resp = length (Eod.items resp)
    /\ Sorted (fun r1 r2 => by_symbol_tradeDate r1 r2 = true) rows
    /\ Permutation rows
         (filter (eod_selected (Eod.symbols resp) (Eod.dateFrom resp)
                    (Eod.dateTo resp)) db)
    /\ forall r, In r rows <->
         In r db
         /\ (Eod.symbols resp = [] \/ In (Db.symbol r) (Eod.symbols resp))
         /\ (Eod.dateFrom resp <= Db.tradeDate r <= Eod.dateTo resp)%Z.
Proof.
  intros Hresp. unfold fetchEndOfDaySymbols in Hresp.
  destruct (getLastTradeDate db Sym.STOCK None) as [lastDate|];
    [|discriminate].
  injection Hresp as <-.
  cbn [Eod.symbols Eod.dateFrom Eod.dateTo Eod.items Eod.count].
  set (from := match dateFrom with Some d => d | None => lastDate end).
  set (to := match dateTo with Some d => d | None => lastDate end).
  eexists. eexists. split; [reflexivity|].
  split; [reflexivity|].
  split; [reflexivity|]. split; [reflexivity|]. split; [reflexivity|].
  split; [now rewrite length_map|].
  split; [apply order_by_Sorted, by_symbol_tradeDate_total|].
  split.
  { eapply Permutation_trans; [apply order_by_perm|].
    erewrite filter_ext; [apply Permutation_refl|].
    intros r. cbv beta. unfold eod_selected. do 2 f_equal.
    destruct symbols as [[|s l]|]; [reflexivity| |reflexivity].
    destruct (in_dec String.string_dec (Db.symbol r) (s :: l)) as [H|H].
    - exact (proj2 (symbol_in_In (s :: l) r) H).
    - destruct (symbol_in (s :: l) r) eqn:E; [|exact E].
      now contradiction (H (proj1 (symbol_in_In (s :: l) r) E)). }
  intros r. rewrite order_by_In, filter_In, !andb_true_iff.
  rewrite !Z.leb_le.
  assert (Hs : match symbols with
               | Some (s :: l) => symbol_in (s :: l) r
               | _ => true
               end = true
               <-> (match symbols with Some l => l | None => [] end = []
                    \/ In (Db.symbol r)
                         (match symbols with Some l => l | None => [] end))).
  { destruct symbols as [[|s l]|].
    - split; auto.
    - rewrite symbol_in_In. split; [auto|].
      intros [E|H]; [discriminate | assumption].
    - split; auto. }
  rewrite Hs. tauto.
Qed.

(** The window from day 1 to the latest date with the symbol AAA listed:
    all four rows of the example table. *)
Lemma eod_symbols_rows_witness :
  exists resp,
    fetchEndOfDaySymbols candle_table (Some [Sym.AAA]) (Some 1%Z) None
    = Some resp
    /\ Eod.count resp = 4
    /\ exists (lastDate : date) (rows : list Db.Row),
         getLastTradeDate candle_table Sym.STOCK None = Some lastDate
         /\ Eod.symbols resp = [Sym.AAA]
         /\ Eod.dateFrom resp = 1%Z
         /\ Eod.dateTo resp = lastDate
         /\ Eod.items resp = map rowToStockData rows
         /\ Eod.count resp = length (Eod.items resp)
         /\ Sorted (fun r1 r2 => by_symbol_tradeDate r1 r2 = true) rows
         /\ Permutation rows
              (filter (eod_selected (Eod.symbols resp) (Eod.dateFrom resp)
                         (Eod.dateTo resp)) candle_table)
         /\ forall r, In r rows <->
              In r candle_table
              /\ (Eod.symbols resp = []
                  \/ In (Db.symbol r) (Eod.symbols resp))
              /\ (Eod.dateFrom resp <= Db.tradeDate r <= Eod.dateTo resp)%Z.
Proof.
  eexists. split; [reflexivity|]. split; [vm_compute; reflexivity|].
  exact (@eod_symbols_rows candle_table (Some [Sym.AAA]) (Some 1%Z) None _
           eq_refl).
Defined.

(** ** Uptrend screen: one item per symbol *)

(** X22. On a table whose (symbol, tradeDate) keys are unique, the
    uptrend screen lists every symbol at most once. *)
Theorem uptrend_symbols_unique (db : table) (marketType : string)
  (tradeDate : option date) (resp : Uptrend.Response) :
  unique_keys db ->
  fetchUptrendSymbols db marketType tradeDate = Some resp ->
  NoDup (map Uptrend.symbol (Uptrend.items resp)).
Proof.
  intros U Hresp. unfold fetchUptrendSymbols in Hresp.
  destruct (resolve_date db marketType tradeDate) as [date|];
    [|discriminate].
  injection Hresp as <-. cbn [Uptrend.items].
  rewrite map_map. cbn [uptrend_item Uptrend.symbol].
  unfold uptrend_rows.
  eapply Permutation_NoDup;
    [apply Permutation_map, Permutation_sym, order_by_perm|].
  assert (NK : NoDup (map (fun r => (Db.symbol r, Db.tradeDate r))
                        (filter (uptrend_where date marketType) db)))
    by (apply NoDup_map_filter; exact U).
  rewrite (map_ext_in (fun r => (Db.symbol r, Db.tradeDate r))
             (fun r => (Db.symbol r, date))) in NK.
  - rewrite <- (map_map Db.symbol (fun s => (s, date))) in NK.
    now apply NoDup_map_inv in NK.
  - intros r Hr. apply filter_In in Hr as [_ Hw].
    unfold uptrend_where in Hw.
    apply andb_true_iff in Hw as [Hw _].
    apply andb_true_iff in Hw as [Hw _].
    apply Z.eqb_eq in Hw. now rewrite Hw.
Qed.

Lemma uptrend_symbols_unique_witness :
  exists resp,
    fetchUptrendSymbols null_ez_table Sym.STOCK (Some 1%Z) = Some resp
    /\ NoDup (map Uptrend.symbol (Uptrend.items resp)).
Proof.
  eexists. split; [reflexivity|].
  apply (@uptrend_symbols_unique null_ez_table Sym.STOCK (Some 1%Z));
    [|reflexivity].
  unfold unique_keys, null_ez_table. cbn [map].
  repeat (constructor; [cbn [In]; intros H;
                        repeat (destruct H as [H|H]; [discriminate|]);
                        exact H|]).
  constructor.
Defined.

(** ** Candlesticks: volume *)

Lemma zsum_app (l1 l2 : list (option Z)) :
  zsum (l1 ++ l2) = (zsum l1 + zsum l2)%Z.
Proof.
  induction l1 as [|o l1 IH]; simpl; [reflexivity|].
  destruct o; rewrite IH; lia.
Qed.

Lemma zsum_perm (l1 l2 : list (option Z)) :
  Permutation l1 l2 -> zsum l1 = zsum l2.
Proof.
  intros P. induction P as [|o l1 l2 P IH|o1 o2 l|l1 l2 l3 P1 IH1 P2 IH2];
    simpl.
  - reflexivity.
  - now rewrite IH.
  - destruct o1, o2; lia.
  - congruence.
Qed.

Lemma zsum_all_null (l : list (option Z)) :
  forallb is_null l = true -> zsum l = 0%Z.
Proof.
  induction l as [|o l IH]; simpl; [reflexivity|].
  destruct o; simpl; [discriminate | exact IH].
Qed.

(** Summing the [SUM]s of the groups is summing the whole column. *)
Lemma zsum_groups (groups : list (list Db.Row)) :
  zsum (map (fun g => sql_sum (map Db.volume g)) groups)
  = zsum (map Db.volume (concat groups)).
Proof.
  induction groups as [|g groups IH]; [reflexivity|].
  cbn [map concat]. rewrite map_app, zsum_app, <- IH.
  cbn [zsum fold_right]. fold (zsum (map (fun g => sql_sum (map Db.volume g))
                                      groups)).
  rewrite sql_sum_spec.
  destruct (forallb is_null (map Db.volume g)) eqn:E; [|reflexivity].
  now rewrite (zsum_all_null _ E).
Qed.

(** X23. Aggregation keeps the traded volume: for every timeframe the
    bars' volumes add up to the daily rows' volumes of the window (null
    volumes counting for nothing on either side). *)
Theorem candle_volume_conserved (date_trunc : TruncUnit -> date -> date)
  (db : table) (symbol : string) (from to : date) (timeframe : Timeframe) :
  zsum (map Agg.volume
          (fetchCandlestickAggregated date_trunc db symbol from to
             timeframe))
  = zsum (map Db.volume (candle_rows db symbol from to)).
Proof.
  unfold fetchCandlestickAggregated. rewrite map_map.
  cbn [aggregate Agg.volume]. rewrite zsum_groups.
  apply zsum_perm, Permutation_map.
  unfold candle_buckets.
  eapply Permutation_trans; [apply buckets_perm|].
  rewrite candle_keyed_snd. apply Permutation_refl.
Qed.
